(** * RoxInvoice dispatch engine: a shallow embedding and its properties

    The development follows the backend sources:
    - [queue.js]: the spintax parser [parseSpintax], the telemetry logger
      [emitLiveLog] and the BullMQ worker [emailWorker] with its sender
      rotation loop;
    - [segMiddleware.js]: the pre-flight security gate
      ([verifyInfrastructure], [runPreFlightCheck], [segMiddleware]);
    - [index.js]: the HTTP handlers for dispatch, clear and status, the
      preview route and the invoice route.

    JavaScript strings are modelled as [string] (or [list ascii] where the
    code scans them character by character), Redis as a finite map of
    string keys with expiry instants plus the telemetry list, and every
    external collaborator (renderer, SMTP transport, DNS resolver, random
    source, clock) as a field of an explicit environment record. *)

From Stdlib Require Import ZArith Lia List Ascii String Bool.
From Stdlib Require Import Decimal DecimalNat DecimalString.
From Stdlib Require Import Sorted.
From stdpp Require Import gmap strings list.

Local Open Scope list_scope.

(* ===================================================================== *)
(** * Template engine: spintax resolution ([queue.js], [parseSpintax])   *)
(* ===================================================================== *)

Module Spintax.

(** The text scanned by the regular expression, one character per
    element.  The pattern only tells the two braces and the pipe from
    every other character, so the alphabet beyond these three does not
    matter. *)
Definition text := list ascii.

Definition lbrace : ascii := "{"%char.
Definition rbrace : ascii := "}"%char.
Definition pipe : ascii := "|"%char.

Definition is_lbrace (c : ascii) : bool := Ascii.eqb c lbrace.
Definition is_rbrace (c : ascii) : bool := Ascii.eqb c rbrace.
Definition is_pipe (c : ascii) : bool := Ascii.eqb c pipe.

(** [[^{}]] of the pattern. *)
Definition non_brace (c : ascii) : bool := negb (is_lbrace c || is_rbrace c).

Definition brace_free (s : text) : bool := forallb non_brace s.
Definition has_pipe (s : text) : bool := existsb is_pipe s.

Fixpoint count_open (s : text) : nat :=
  match s with
  | [] => 0
  | c :: r => (if is_lbrace c then 1 else 0) + count_open r
  end.

(** [contents.split('|')]: always at least one piece. *)
Fixpoint split_pipe (s : text) : list text :=
  match s with
  | [] => [[]]
  | c :: r =>
      if is_pipe c then [] :: split_pipe r
      else match split_pipe r with
           | h :: t => (c :: h) :: t
           | [] => [[c]]
           end
  end.

(** [options[Math.floor(Math.random() * options.length)]].  The random
    source is a stream [rnd] of draws; draw number [k] selects index
    [rnd k mod length options], so every index of [options] can be chosen
    and no other. *)
Definition choose (rnd : nat -> nat) (k : nat) (options : list text) : text :=
  nth (rnd k mod List.length options) options [].

(** The pattern of [spintaxRegex] is an opening brace, a run of
    characters other than braces that holds a pipe, and a closing brace.
    The scanner state of that pattern: outside a
    candidate ([None]) or after an opening brace followed by the
    brace-free run read so far ([Some run]).  A candidate is abandoned by
    the next opening brace and decided by the next closing brace. *)
Definition flush (pending : option text) : text :=
  match pending with
  | None => []
  | Some run => lbrace :: run
  end.

(** [spintaxRegex.test(result)] started at [lastIndex = 0]. *)
Fixpoint test_from (pending : option text) (s : text) : bool :=
  match s with
  | [] => false
  | c :: rest =>
      if is_lbrace c then test_from (Some []) rest
      else if is_rbrace c then
        match pending with
        | Some run => if has_pipe run then true else test_from None rest
        | None => test_from None rest
        end
      else
        match pending with
        | Some run => test_from (Some (run ++ [c])) rest
        | None => test_from None rest
        end
  end.

Definition spintax_test (s : text) : bool := test_from None s.

(** [result.replace(spintaxRegex, callback)]: one left-to-right pass of
    the global regular expression; every match is replaced by one of its
    options, the [k]-th match consuming the [k]-th random draw.  Returns
    the new text and the number of the next draw. *)
Fixpoint replace_from (rnd : nat -> nat) (k : nat) (pending : option text)
    (s : text) : text * nat :=
  match s with
  | [] => (flush pending, k)
  | c :: rest =>
      if is_lbrace c then
        let '(out, k') := replace_from rnd k (Some []) rest in
        (flush pending ++ out, k')
      else if is_rbrace c then
        match pending with
        | Some run =>
            if has_pipe run then
              let '(out, k') := replace_from rnd (S k) None rest in
              (choose rnd k (split_pipe run) ++ out, k')
            else
              let '(out, k') := replace_from rnd k None rest in
              (lbrace :: run ++ rbrace :: out, k')
        | None =>
            let '(out, k') := replace_from rnd k None rest in
            (rbrace :: out, k')
        end
      else
        match pending with
        | Some run => replace_from rnd k (Some (run ++ [c])) rest
        | None =>
            let '(out, k') := replace_from rnd k None rest in
            (c :: out, k')
        end
  end.

Definition replace_pass (rnd : nat -> nat) (k : nat) (s : text) : text * nat :=
  replace_from rnd k None s.

(** The result of the [while] loop: final text, next random draw and the
    number of substitution passes that were run. *)
Record spun := { spun_text : text; spun_next : nat; spun_passes : nat }.

(** [while (spintaxRegex.test(result)) result = result.replace(...)].
    The source loop carries no counter; [fuel] only makes the recursion
    structural and [None] means that it ran out. *)
Fixpoint spin_loop (fuel : nat) (rnd : nat -> nat) (k passes : nat)
    (result : text) : option spun :=
  if spintax_test result then
    match fuel with
    | 0 => None
    | S fuel' =>
        let '(result', k') := replace_pass rnd k result in
        spin_loop fuel' rnd k' (S passes) result'
    end
  else Some {| spun_text := result; spun_next := k; spun_passes := passes |}.

(** [parseSpintax]: [if (!text) return text] and then the loop. *)
Definition parseSpintax_fuel (fuel : nat) (rnd : nat -> nat) (k : nat)
    (t : text) : option spun :=
  match t with
  | [] => Some {| spun_text := t; spun_next := k; spun_passes := 0 |}
  | _ => spin_loop fuel rnd k 0 t
  end.

(** The loop never needs more passes than the text has opening braces
    ([parseSpintax_fuel_enough] below), which makes [parseSpintax] total. *)
Definition parseSpintax (rnd : nat -> nat) (k : nat) (t : text) : spun :=
  match parseSpintax_fuel (count_open t) rnd k t with
  | Some r => r
  | None => {| spun_text := t; spun_next := k; spun_passes := 0 |}
  end.

(** A span [{run}] that the pattern matches: brace-free contents with a
    pipe. *)
Definition spintax_span (s : text) : Prop :=
  exists pre run post,
    s = pre ++ lbrace :: run ++ rbrace :: post /\
    brace_free run = true /\ has_pipe run = true.

(** A brace-delimited span [{w}] occurs in [s]. *)
Definition contains_span (w s : text) : Prop :=
  exists pre post, s = pre ++ lbrace :: w ++ rbrace :: post.

(** Braces are balanced in [s] when started at nesting depth [d]. *)
Fixpoint balanced_from (d : nat) (s : text) : bool :=
  match s with
  | [] => Nat.eqb d 0
  | c :: r =>
      if is_lbrace c then balanced_from (S d) r
      else if is_rbrace c then
        match d with
        | 0 => false
        | S d' => balanced_from d' r
        end
      else balanced_from d r
  end.

(** A brace pair whose contents include a pipe: the contents may hold
    further (balanced) braces. *)
Definition pipe_brace_pair (s : text) : Prop :=
  exists pre contents post,
    s = pre ++ lbrace :: contents ++ rbrace :: post /\
    balanced_from 0 contents = true /\ has_pipe contents = true.

Definition txt (s : string) : text := list_ascii_of_string s.

(** The pending candidate of the scanner only ever holds characters
    other than braces. *)
Definition pending_ok (pending : option text) : Prop :=
  match pending with Some run => brace_free run = true | None => True end.

Definition pending_pipe_free (pending : option text) : Prop :=
  match pending with Some run => has_pipe run = false | None => True end.

(** A family of texts nested [j] levels deep around one innermost span,
    every option being the letter a. *)
Definition a_char : ascii := "a"%char.

Fixpoint opens (j : nat) : text :=
  match j with 0 => [] | S j' => opens j' ++ [lbrace; a_char; pipe] end.

Fixpoint closes (j : nat) : text :=
  match j with 0 => [] | S j' => rbrace :: closes j' end.

Definition nest (j : nat) : text :=
  opens j ++ lbrace :: [a_char; pipe; a_char] ++ rbrace :: closes j.

End Spintax.

(* ===================================================================== *)
(** * JavaScript values used by the backend                              *)
(* ===================================================================== *)

Module JS.

Local Open Scope string_scope.

(** Truthiness of a string value ([!text], [if (isPaused)]). *)
Definition truthy (s : string) : bool := negb (String.eqb s "").

(** Truthiness of a possibly [undefined]/[null] string. *)
Definition truthy_opt (o : option string) : bool :=
  match o with
  | Some s => truthy s
  | None => false
  end.

(** [a || b] on strings. *)
Definition or_else (o : option string) (d : string) : string :=
  match o with
  | Some s => if truthy s then s else d
  | None => d
  end.

(** [s.includes(sub)]. *)
Fixpoint includes (s sub : string) : bool :=
  String.prefix sub s
  || match s with
     | EmptyString => false
     | String _ r => includes r sub
     end.

(** [s.startsWith(p)]. *)
Definition startsWith (s p : string) : bool := String.prefix p s.

(** [s.split(sep)] for a one-character separator. *)
Fixpoint split (sep : ascii) (s : string) : list string :=
  match s with
  | EmptyString => [EmptyString]
  | String c r =>
      if Ascii.eqb c sep then EmptyString :: split sep r
      else match split sep r with
           | h :: t => String c h :: t
           | [] => [String c EmptyString]
           end
  end.

(** [s.toLowerCase()] on the ASCII letters. *)
Definition lower_char (c : ascii) : ascii :=
  let n := nat_of_ascii c in
  if (65 <=? n)%nat && (n <=? 90)%nat then ascii_of_nat (n + 32) else c.

Fixpoint toLowerCase (s : string) : string :=
  match s with
  | EmptyString => EmptyString
  | String c r => String (lower_char c) (toLowerCase r)
  end.

(** [recordArray.join('')]. *)
Definition join (l : list string) : string := fold_right String.append "" l.

(** An [Error] value; only its [message] is ever read. *)
Record error := Error { message : string }.

(** ** [parseInt(s)] without a radix, on ASCII input

    Leading white space is skipped, an optional sign is read, a [0x]
    prefix selects radix 16, and the longest prefix of digits is
    converted; [None] stands for [NaN].  Integers are exact ([Z]), which
    agrees with the double arithmetic below 2^53. *)

Definition is_space (c : ascii) : bool :=
  let n := nat_of_ascii c in
  (n =? 32)%nat || ((9 <=? n)%nat && (n <=? 13)%nat).

Fixpoint trimStart (s : string) : string :=
  match s with
  | String c r => if is_space c then trimStart r else s
  | EmptyString => s
  end.

Definition digit_value (radix : Z) (c : ascii) : option Z :=
  let n := Z.of_nat (nat_of_ascii c) in
  let v :=
    if (48 <=? n)%Z && (n <=? 57)%Z then Some (n - 48)%Z
    else if (97 <=? n)%Z && (n <=? 122)%Z then Some (n - 87)%Z
    else if (65 <=? n)%Z && (n <=? 90)%Z then Some (n - 55)%Z
    else None in
  match v with
  | Some d => if (d <? radix)%Z then Some d else None
  | None => None
  end.

Fixpoint parse_digits (radix acc : Z) (seen : bool) (s : string) : option Z :=
  match s with
  | EmptyString => if seen then Some acc else None
  | String c r =>
      match digit_value radix c with
      | Some d => parse_digits radix (acc * radix + d)%Z true r
      | None => if seen then Some acc else None
      end
  end.

Definition strip_hex_prefix (s : string) : option string :=
  match s with
  | String "0" (String "x" r) => Some r
  | String "0" (String "X" r) => Some r
  | _ => None
  end.

Definition parse_unsigned (s : string) : option Z :=
  match strip_hex_prefix s with
  | Some r => parse_digits 16 0 false r
  | None => parse_digits 10 0 false s
  end.

Definition parseInt (s : string) : option Z :=
  match trimStart s with
  | String "-" r => option_map Z.opp (parse_unsigned r)
  | String "+" r => parse_unsigned r
  | t => parse_unsigned t
  end.

(** [parseInt(s) || d]: [NaN] and [0] are falsy. *)
Definition parseInt_or (s : string) (d : Z) : Z :=
  match parseInt s with
  | Some z => if (z =? 0)%Z then d else z
  | None => d
  end.

(** The decimal rendering of a natural number, as [String(n)] gives it. *)
Definition decimal (n : nat) : string := NilEmpty.string_of_uint (Nat.to_uint n).

(** [buffer.toString('base64')]. *)
Definition base64_alphabet : string :=
  "ABCDEFGHIJKLMNOPQRSTUVWXYZabcdefghijklmnopqrstuvwxyz0123456789+/".

Definition base64_char (i : N) : ascii :=
  match String.get (N.to_nat i) base64_alphabet with
  | Some c => c
  | None => "="%char
  end.

Fixpoint base64 (bytes : list Byte.byte) : string :=
  match bytes with
  | [] => ""
  | [a] =>
      let n := (Byte.to_N a * 65536)%N in
      String (base64_char (n / 262144)) (String (base64_char ((n / 4096) mod 64)) "==")
  | [a; b] =>
      let n := (Byte.to_N a * 65536 + Byte.to_N b * 256)%N in
      String (base64_char (n / 262144)) (String (base64_char ((n / 4096) mod 64))
        (String (base64_char ((n / 64) mod 64)) "="))
  | a :: b :: c :: rest =>
      let n := (Byte.to_N a * 65536 + Byte.to_N b * 256 + Byte.to_N c)%N in
      String (base64_char (n / 262144)) (String (base64_char ((n / 4096) mod 64))
        (String (base64_char ((n / 64) mod 64)) (String (base64_char (n mod 64))
          (base64 rest))))
  end.

End JS.

(* ===================================================================== *)
(** * The shared Redis store and the telemetry stream ([queue.js])       *)
(* ===================================================================== *)

Module Telemetry.

(** The [type] argument of [emitLiveLog]: 'info', 'success', 'warning',
    'error' or 'timer'. *)
Inductive severity := SevInfo | SevSuccess | SevWarning | SevError | SevTimer.

(** The messages passed to [emitLiveLog], one constructor per call site
    of the worker; the arguments are the values interpolated into the
    template string. *)
Inductive log_message :=
  | LogSkip (senderEmail : string)
      (* [SKIP] <sender> is paused (rate limit). *)
  | LogStarting (recipientEmail invoiceNumber : string)
  | LogViaSender (senderEmail recipientDomain : string)
  | LogSubject (customizedSubject : string)
  | LogBody (customizedBody : string)
  | LogPayloadSize (bytes : Z)
  | LogPayloadWarning
  | LogGeneratingPdf
  | LogPdfCrash (cause : string)
  | LogSent (recipientEmail senderEmail : string)
  | LogRateLimited (senderEmail : string)
      (* [RATE LIMIT / BLOCKED] Pausing account <sender> for 1 hour. *)
  | LogStrictDelay (recipientDomain : string) (delay_ms : Z)
  | LogPausing (delay_ms : Z)
  | LogJobFailed (reason : string).
      (* Job failed FATALLY: <reason> *)

(** One entry of the [live_dispatch_logs] list.  The [id] and [time]
    fields of the source are wall-clock and random decorations that no
    code path reads back; they are left out. *)
Record logEntry := { jobId : string; message : log_message; type : severity }.

End Telemetry.

Module Redis.

Import Telemetry.

(** String keys hold a value and the instant (milliseconds) at which
    they expire; the telemetry list lives under its own key
    [live_dispatch_logs]. *)
Record redis := {
  strings : gmap string (string * Z);
  live_dispatch_logs : list logEntry
}.

Definition empty : redis := {| strings := ∅; live_dispatch_logs := [] |}.

(** [connection.get(key)] at instant [now]: expired keys read as [null]. *)
Definition get (r : redis) (now : Z) (key : string) : option string :=
  match strings r !! key with
  | Some (v, expires) => if (now <? expires)%Z then Some v else None
  | None => None
  end.

(** [connection.setex(key, seconds, value)] at instant [now]. *)
Definition setex (r : redis) (now : Z) (key : string) (seconds : Z)
    (value : string) : redis :=
  {| strings := <[key := (value, (now + seconds * 1000)%Z)]> (strings r);
     live_dispatch_logs := live_dispatch_logs r |}.

(** [rpush('live_dispatch_logs', e)] then [ltrim(..., -100, -1)]. *)
Definition rpush_trim (r : redis) (e : logEntry) : redis :=
  let l := live_dispatch_logs r ++ [e] in
  {| strings := strings r;
     live_dispatch_logs := drop (List.length l - 100) l |}.

(** [connection.del('live_dispatch_logs')]. *)
Definition del_logs (r : redis) : redis :=
  {| strings := strings r; live_dispatch_logs := [] |}.

(** [connection.lrange('live_dispatch_logs', 0, -1)]. *)
Definition lrange_all (r : redis) : list logEntry := live_dispatch_logs r.

End Redis.

(* ===================================================================== *)
(** * The delivery worker and its sender rotation ([queue.js])           *)
(* ===================================================================== *)

Module Worker.

Import Telemetry.

Local Open Scope string_scope.

Record Sender := {
  email : string;
  appPassword : string;
  host : option string;
  port : option string
}.

Record Recipient := {
  Name : option string;
  Email : string;
  Product_Name : option string
}.

Record InvoiceDetails := {
  itemQuantity : option string;
  itemPrice : option string;
  logoUrl : option string;
  productName : option string;
  productDescription : option string
}.

(** [job.data]; an absent field is [None]. *)
Record JobData := {
  recipient : Recipient;
  invoiceDetails : option InvoiceDetails;
  emailSubject : option string;
  emailBody : option string;
  senderPool : option (list Sender);
  deliveryMethod : option string;
  senderName : option string
}.

Record Job := { id : string; data : JobData }.

Record Attachment := {
  filename : string;
  content : list Byte.byte;
  contentType : string
}.

(** The transport configuration, without the constants that are the same
    for every sender (connection pooling, TLS options, timeouts). *)
Record TransportConfig := {
  transport_host : string;
  transport_port : Z;
  transport_secure : bool;
  auth_user : string;
  auth_pass : string
}.

(** The message handed to [transporter.sendMail].  The message id and
    the fixed headers are left out: nothing in the worker reads them. *)
Record MailOptions := {
  mail_from_name : string;
  mail_from_address : string;
  mail_to : string;
  mail_subject : string;
  mail_html : string;
  mail_attachments : list Attachment
}.

Record HtmlArgs := {
  html_recipientName : string;
  html_invoiceNumber : string;
  html_bodyContent : string;
  html_companyLogoUrl : option string;
  html_pdfUrl : string;
  html_trackingId : string;
  html_deliveryMethod : string
}.

Inductive render_result :=
  | Rendered (pdfBuffer : list Byte.byte)
  | RenderFailed (cause : string).

(** The collaborators of one job run: the [Math.random] stream, the
    identifiers drawn from [crypto.randomUUID], the headless renderer and
    the SMTP transport (both indexed by the loop iteration that calls
    them), and the time each blocking call takes. *)
Record Env := {
  random : nat -> nat;
  generateInvoiceId : string;
  trackingId : string;
  FRONTEND_BASE_URL : option string;
  renderPdf : nat -> render_result;
  sendMail : nat -> TransportConfig -> MailOptions -> option JS.error;
  render_ms : nat -> Z;
  send_ms : nat -> Z
}.

(** Everything the worker reads or writes outside its own locals: the
    Redis store, the clock, the position in the random stream, and the
    messages handed to the transport so far. *)
Record World := {
  store : Redis.redis;
  now : Z;
  draws : nat;
  outbox : list (TransportConfig * MailOptions)
}.

Definition with_store (w : World) (r : Redis.redis) : World :=
  {| store := r; now := now w; draws := draws w; outbox := outbox w |}.

Definition with_draws (w : World) (k : nat) : World :=
  {| store := store w; now := now w; draws := k; outbox := outbox w |}.

Definition elapse (w : World) (ms : Z) : World :=
  {| store := store w; now := (now w + ms)%Z; draws := draws w; outbox := outbox w |}.

Definition handed_over (w : World) (c : TransportConfig) (m : MailOptions) : World :=
  {| store := store w; now := now w; draws := draws w; outbox := outbox w ++ [(c, m)] |}.

(** [emitLiveLog(jobId, message, type)]: the entry is pushed on the
    telemetry list, which is trimmed to its last 100 entries.  The [id]
    of the entry is [Date.now() + Math.random()]: the entry of the model
    does not keep it, but the call takes one draw from the random
    stream.  The echo of the line on the terminal is not part of the
    model. *)
Definition emitLiveLog (jobId : string) (message : log_message) (type : severity)
    (w : World) : World :=
  with_draws
    (with_store w (Redis.rpush_trim (store w)
       {| Telemetry.jobId := jobId; Telemetry.message := message;
          Telemetry.type := type |}))
    (S (draws w)).

Definition paused_key (senderEmail : string) : string := "paused_sender:" ++ senderEmail.
Definition invoice_key (invoiceNumber : string) : string := "invoice_pdf:" ++ invoiceNumber.

(** [await connection.get(`paused_sender:${email}`)] read as a condition. *)
Definition isPaused (w : World) (senderEmail : string) : bool :=
  JS.truthy_opt (Redis.get (store w) (now w) (paused_key senderEmail)).

(** The keyword test of the [catch] branch on [err.message || '']. *)
Definition is_rate_limit (msg : string) : bool :=
  JS.includes msg "Rate Limit" || JS.includes msg "421" || JS.includes msg "450"
  || JS.includes msg "452" || JS.includes msg "550 5.4.5"
  || JS.includes msg "quota" || JS.includes msg "BadCredentials".

(** [parseInt(job.id) || 0]. *)
Definition startIndex (j : Job) : Z := JS.parseInt_or (id j) 0.

(** [(startIndex + i) % senderPool.length]; the remainder of JavaScript
    takes the sign of the dividend.  The sum is exact ([Z]), which
    agrees with the double arithmetic of the code as long as
    [startIndex + i] stays below 2^53 in absolute value. *)
Definition senderIndex (start : Z) (i n : nat) : Z :=
  Z.rem (start + Z.of_nat i) (Z.of_nat n).

(** [senderPool[senderIndex]]: [undefined] outside the array. *)
Definition pool_at (pool : list Sender) (idx : Z) : option Sender :=
  if (idx <? 0)%Z then None else nth_error pool (Z.to_nat idx).

(** [parseSpintax] on a possibly absent template, threading the random
    stream. *)
Definition spin (rnd : nat -> nat) (k : nat) (t : option string)
    : option string * nat :=
  match t with
  | None => (None, k)
  | Some s =>
      let r := Spintax.parseSpintax rnd k (list_ascii_of_string s) in
      (Some (string_of_list_ascii (Spintax.spun_text r)), Spintax.spun_next r)
  end.

Definition transportConfig (s : Sender) : TransportConfig :=
  let parsedPort :=
    match port s with
    | Some p => JS.parseInt_or p 465
    | None => 465%Z
    end in
  if JS.truthy_opt (host s) then
    {| transport_host := JS.or_else (host s) "";
       transport_port := parsedPort;
       transport_secure := (parsedPort =? 465)%Z;
       auth_user := email s; auth_pass := appPassword s |}
  else
    {| transport_host := "smtp.gmail.com";
       transport_port := 465;
       transport_secure := true;
       auth_user := email s; auth_pass := appPassword s |}.

(** The locals carried around the rotation loop. *)
Record Locals := {
  success : bool;
  lastError : option JS.error;
  selectedSender : option Sender;
  isFirstAttempt : bool
}.

Definition initial_locals : Locals :=
  {| success := false; lastError := None; selectedSender := None;
     isFirstAttempt := true |}.

(** How one iteration of the [for] loop ends. *)
Inductive control :=
  | Continue            (* [continue], or the end of the body *)
  | Break               (* [break] after a successful send *)
  | Throw (e : JS.error).

Definition strictDomains : list string :=
  ["yahoo.com"; "aol.com"; "verizon.net"; "ymail.com"].

Definition recipientDomain (r : Recipient) : string :=
  match nth_error (JS.split "@" (Email r)) 1 with
  | Some d => JS.or_else (Some (JS.toLowerCase d)) ""
  | None => ""
  end.

(** The value returned by a completed job. *)
Record JobReturn := { ret_invoiceNumber : string; ret_sender : string }.

Inductive outcome :=
  | Completed (v : JobReturn)
  | Failed (reason : JS.error).

Definition all_paused_error : JS.error :=
  JS.Error "All SMTP sender accounts are paused due to rate limits or invalid credentials.".

Definition no_pool_error : JS.error :=
  JS.Error "No sender pool provided in job data.".

Definition undefined_email_error : JS.error :=
  JS.Error "Cannot read properties of undefined (reading 'email')".

Definition render_error (cause : string) : JS.error :=
  JS.Error ("Puppeteer engine failed to build PDF. Root cause: " ++ cause).

Section Rotation.

(** [replaceTags] and [buildEmailHtml] only format the subject and the
    HTML of the outgoing message; the worker's control flow and its
    writes to the store do not read their result, so they are taken as
    parameters. *)
Variable replaceTags :
  option string -> Recipient -> string -> option string -> option string -> string.
Variable buildEmailHtml : HtmlArgs -> string.

Variable e : Env.
Variable j : Job.

(** The destructuring defaults of [job.data]. *)
Definition job_deliveryMethod : string :=
  match deliveryMethod (data j) with
  | Some m => m
  | None => "attachment"
  end.

Definition job_senderName : string :=
  match senderName (data j) with
  | Some n => n
  | None => "Invoice Dispatch"
  end.

Definition details_field (f : InvoiceDetails -> option string) : option string :=
  match invoiceDetails (data j) with
  | Some d => f d
  | None => None
  end.

(** Lines 231-268 of the loop body, for the candidate that was found not
    paused: it becomes [selectedSender], the start of the attempt is
    logged, subject and body are spun and personalised, the HTML is built
    and its size logged on the first attempt.  Returns the subject and
    the HTML with the new world and locals. *)
Definition compose (candidateSender : Sender) (w : World) (l : Locals)
    : string * string * World * Locals :=
  let r := recipient (data j) in
  let invoiceNumber := generateInvoiceId e in
  let l :=
    {| success := success l; lastError := lastError l;
       selectedSender := Some candidateSender;
       isFirstAttempt := isFirstAttempt l |} in
  let w := emitLiveLog (id j) (LogStarting (Email r) invoiceNumber) SevInfo w in
  let w := emitLiveLog (id j)
             (LogViaSender (email candidateSender) (recipientDomain r)) SevInfo w in
  let '(spunSubject, k) := spin (random e) (draws w) (emailSubject (data j)) in
  let '(spunBody, k) := spin (random e) k (emailBody (data j)) in
  let w := with_draws w k in
  let customizedSubject :=
    replaceTags spunSubject r invoiceNumber
      (details_field itemQuantity) (details_field itemPrice) in
  let customizedBody :=
    replaceTags spunBody r invoiceNumber
      (details_field itemQuantity) (details_field itemPrice) in
  let w := emitLiveLog (id j) (LogSubject customizedSubject) SevInfo w in
  let w := emitLiveLog (id j) (LogBody customizedBody) SevInfo w in
  let viewerUrl :=
    JS.or_else (FRONTEND_BASE_URL e) "http://localhost:3000"
    ++ "/invoice/" ++ invoiceNumber in
  let finalHtml :=
    buildEmailHtml
      {| html_recipientName := JS.or_else (Name r) "Valued Customer";
         html_invoiceNumber := invoiceNumber;
         html_bodyContent := customizedBody;
         html_companyLogoUrl := details_field logoUrl;
         html_pdfUrl := viewerUrl;
         html_trackingId := trackingId e;
         html_deliveryMethod := job_deliveryMethod |} in
  let payloadBytes := Z.of_nat (String.length finalHtml) in
  let w :=
    if isFirstAttempt l then
      let w := emitLiveLog (id j) (LogPayloadSize payloadBytes) SevInfo w in
      if (100 * 1024 <? payloadBytes)%Z
      then emitLiveLog (id j) LogPayloadWarning SevWarning w
      else w
    else w in
  let l :=
    {| success := success l; lastError := lastError l;
       selectedSender := selectedSender l; isFirstAttempt := false |} in
  let w := emitLiveLog (id j) LogGeneratingPdf SevInfo w in
  (customizedSubject, finalHtml, w, l).

(** Lines 399-466: the transport configuration and the message for the
    rendered document.  In attachment mode the bytes are attached;
    otherwise they are stored in Redis under the invoice number for 30
    days, before the send is attempted. *)
Definition outgoing (candidateSender : Sender) (customizedSubject finalHtml : string)
    (pdfBuffer : list Byte.byte) (w : World)
    : TransportConfig * MailOptions * World :=
  let invoiceNumber := generateInvoiceId e in
  let mailOptions attachments :=
    {| mail_from_name := job_senderName;
       mail_from_address := email candidateSender;
       mail_to := Email (recipient (data j));
       mail_subject := customizedSubject;
       mail_html := finalHtml;
       mail_attachments := attachments |} in
  if String.eqb job_deliveryMethod "attachment" then
    (transportConfig candidateSender,
     mailOptions
       [{| filename := "Invoice_" ++ invoiceNumber ++ ".pdf";
           content := pdfBuffer;
           contentType := "application/pdf" |}],
     w)
  else
    (transportConfig candidateSender,
     mailOptions [],
     with_store w
       (Redis.setex (store w) (now w) (invoice_key invoiceNumber)
          (86400 * 30) (JS.base64 pdfBuffer))).

(** Lines 468-487: the send and the classification of its failure. *)
Definition deliver (candidateSender : Sender) (i : nat) (config : TransportConfig)
    (mail : MailOptions) (w : World) (l : Locals) : control * World * Locals :=
  let w := handed_over w config mail in
  match sendMail e i config mail with
  | None =>
      let w := elapse w (send_ms e i) in
      let w := emitLiveLog (id j)
                 (LogSent (Email (recipient (data j))) (email candidateSender))
                 SevSuccess w in
      (Break, w,
       {| success := true; lastError := lastError l;
          selectedSender := selectedSender l;
          isFirstAttempt := isFirstAttempt l |})
  | Some err =>
      let w := elapse w (send_ms e i) in
      let l :=
        {| success := success l; lastError := Some err;
           selectedSender := selectedSender l;
           isFirstAttempt := isFirstAttempt l |} in
      let msg := JS.or_else (Some (JS.message err)) "" in
      if is_rate_limit msg then
        let w := emitLiveLog (id j)
                   (LogRateLimited (email candidateSender)) SevError w in
        let w := with_store w
                   (Redis.setex (store w) (now w)
                      (paused_key (email candidateSender)) 3600 "true") in
        (Continue, w, l)
      else (Throw err, w, l)
  end.

(** The body of the [for] loop for index [i] over [pool]. *)
Definition iteration (pool : list Sender) (i : nat) (w : World) (l : Locals)
    : control * World * Locals :=
  match pool_at pool (senderIndex (startIndex j) i (List.length pool)) with
  | None => (Throw undefined_email_error, w, l)
  | Some candidateSender =>
    if isPaused w (email candidateSender) then
      let w :=
        if (i =? List.length pool - 1)%nat && negb (success l)
        then emitLiveLog (id j) (LogSkip (email candidateSender)) SevWarning w
        else w in
      (Continue, w, l)
    else
      let '(customizedSubject, finalHtml, w, l) := compose candidateSender w l in
      match renderPdf e i with
      | RenderFailed cause =>
          let w := elapse w (render_ms e i) in
          let w := emitLiveLog (id j) (LogPdfCrash cause) SevError w in
          (Throw (render_error cause), w, l)
      | Rendered pdfBuffer =>
          let w := elapse w (render_ms e i) in
          let '(config, mail, w) :=
            outgoing candidateSender customizedSubject finalHtml pdfBuffer w in
          deliver candidateSender i config mail w l
      end
  end.

(** [for (let i = 0; i < senderPool.length; i++)], entered at index [i]
    with [remaining = senderPool.length - i] iterations left. *)
Fixpoint rotate (pool : list Sender) (remaining i : nat) (w : World) (l : Locals)
    : control * World * Locals :=
  match remaining with
  | 0 => (Continue, w, l)
  | S remaining' =>
      match iteration pool i w l with
      | (Continue, w', l') => rotate pool remaining' (S i) w' l'
      | stop => stop
      end
  end.

(** The random throttle delay and its telemetry event. *)
Definition throttle (w : World) : World :=
  let k := draws w in
  let randomDelay := (Z.of_nat (random e k) mod (20000 - 8000 + 1) + 8000)%Z in
  let domain := recipientDomain (recipient (data j)) in
  if existsb (String.eqb domain) strictDomains then
    let randomDelay := (Z.of_nat (random e (S k)) mod (45000 - 25000 + 1) + 25000)%Z in
    let w := with_draws w (S (S k)) in
    let w := emitLiveLog (id j) (LogStrictDelay domain randomDelay) SevWarning w in
    elapse w randomDelay
  else
    let w := with_draws w (S k) in
    let w := emitLiveLog (id j) (LogPausing randomDelay) SevTimer w in
    elapse w randomDelay.

(** The [try] block of the processor: the value it returns or the error
    it throws. *)
Definition attempt_job (w : World) : (JobReturn + JS.error) * World :=
  match senderPool (data j) with
  | None => (inr no_pool_error, w)
  | Some [] => (inr no_pool_error, w)
  | Some pool =>
      match rotate pool (List.length pool) 0 w initial_locals with
      | (Throw err, w, _) => (inr err, w)
      | (_, w, l) =>
          if negb (success l) then
            match lastError l with
            | Some err => (inr err, w)
            | None => (inr all_paused_error, w)
            end
          else
            match selectedSender l with
            | Some s =>
                (inl {| ret_invoiceNumber := generateInvoiceId e;
                        ret_sender := email s |}, throttle w)
            | None => (inr undefined_email_error, throttle w)
            end
      end
  end.

(** The processor passed to [new Worker('invoice-queue', ...)]: the
    [catch] block logs the failure and rethrows it, which BullMQ records
    as the job's failure reason. *)
Definition emailWorker (w : World) : outcome * World :=
  match attempt_job w with
  | (inl v, w') => (Completed v, w')
  | (inr err, w') =>
      (Failed err,
       emitLiveLog (JS.or_else (Some (id j)) "N/A")
         (LogJobFailed (JS.message err)) SevError w')
  end.

(** A run under a fixed clock: no time passes while the document is
    rendered or the message is sent. *)
Definition fixed_clock : Prop :=
  forall i, render_ms e i = 0%Z /\ send_ms e i = 0%Z.

(** The messages of [w'] that were not yet in the outbox of [w] have a
    sender other than [address]. *)
Definition no_mail_from (address : string) (w w' : World) : Prop :=
  forall c m, In (c, m) (outbox w') ->
    In (c, m) (outbox w) \/ mail_from_address m <> address.

(** Two worlds that differ at most in the telemetry list and in the
    position of the random stream. *)
Definition same_effects (w w' : World) : Prop :=
  Redis.strings (store w') = Redis.strings (store w) /\
  now w' = now w /\ outbox w' = outbox w.

(** A key of the string store is left as it was, or holds what one of
    the two [setex] calls of the loop body writes. *)
Definition written (w w' : World) (k : string) : Prop :=
  Redis.strings (store w') !! k = Redis.strings (store w) !! k
  \/ (k = invoice_key (generateInvoiceId e) /\
      String.eqb job_deliveryMethod "attachment" = false /\
      exists pdf t, Redis.strings (store w') !! k
                    = Some (JS.base64 pdf, (t + 86400 * 30 * 1000)%Z))
  \/ (exists s t, k = paused_key (email s) /\
      Redis.strings (store w') !! k = Some ("true", (t + 3600 * 1000)%Z)).

(** The state of a rotation that has had no success so far: either no
    send was attempted, or the last error is a rate-limit-shaped one
    whose sender holds a pause flag written for one hour. *)
Definition no_success_yet (w0 w : World) (l : Locals) : Prop :=
  success l = false /\
  (lastError l = None -> outbox w = outbox w0) /\
  (forall err, lastError l = Some err ->
     is_rate_limit (JS.message err) = true /\
     exists s m t,
       In (transportConfig s, m) (outbox w) /\ mail_from_address m = email s /\
       Redis.strings (store w) !! paused_key (email s)
       = Some ("true", (t + 3600 * 1000)%Z)).

(** The state of a rotation over [pool] that has had no success so far,
    told by its last error: either no send was attempted since [w0], or
    the last message handed to the transport since [w0] is the one whose
    send failed with the last error, a rate-limit-shaped one, and its
    sender holds a pause flag that expires one hour from now. *)
Definition last_send_paused (pool : list Sender) (w0 w : World) (l : Locals) : Prop :=
  success l = false /\
  match lastError l with
  | None => outbox w = outbox w0
  | Some err =>
      is_rate_limit (JS.message err) = true /\
      exists s m i earlier,
        In s pool /\
        outbox w = (outbox w0 ++ earlier ++ [(transportConfig s, m)])%list /\
        mail_from_address m = email s /\
        sendMail e i (transportConfig s) m = Some err /\
        Redis.strings (store w) !! paused_key (email s)
        = Some ("true", (now w + 3600 * 1000)%Z)
  end.

End Rotation.

End Worker.

(* ===================================================================== *)
(** * The pre-flight security gate ([segMiddleware.js])                  *)
(* ===================================================================== *)

Module Gate.

Local Open Scope string_scope.

(** A security flag [{type, reason, ...context}]. *)
Record flag := {
  type : string;
  domain : option string;
  reason : string
}.

(** What [dns.resolveTxt] answers: the records, or an error with its
    [code]. *)
Inductive dns_answer :=
  | Records (txt : list (list string))
  | DnsError (code : string).

(** The observable steps of the gate, in the order they happen. *)
Inductive event :=
  | CloakingScan (htmlBody : option string)
  | LinkScan (htmlBody : option string)
  | ResolveTxt (name : string)
  | ConsoleLog (line : string)
  | ConsoleWarn (line : string)
  | ConsoleError (line : string).

(** The part of [req.body] that the middleware destructures. *)
Record body := {
  emailBody : option string;
  senderPool : option (list Worker.Sender)
}.

(** How the middleware hands the request on. *)
Inductive verdict :=
  | Next                          (* [next()]: on to the dispatch handler *)
  | Status400 (flags : list flag) (* policy violation, payload rejected *)
  | Status500.                    (* analyzer failure *)

Section Gate.

(** The DOM queries of [scanHtmlDomForCloaking] and [scanLinkIntegrity]
    run inside the cheerio parser; their flags on a non-empty body are
    parameters.  The resolver is the network. *)
Variable cloaking_matches : string -> list flag.
Variable link_matches : string -> list flag.
Variable resolveTxt : string -> dns_answer.

Definition scanHtmlDomForCloaking (htmlBody : option string) : list flag :=
  match htmlBody with
  | Some b => if JS.truthy b then cloaking_matches b else []
  | None => []
  end.

Definition scanLinkIntegrity (htmlBody : option string) : list flag :=
  match htmlBody with
  | Some b => if JS.truthy b then link_matches b else []
  | None => []
  end.

Definition invalid_sender_flag : flag :=
  {| type := "Infrastructure Error"; domain := None;
     reason := "Invalid sender email format provided." |}.

Definition not_found (code : string) : bool :=
  String.eqb code "ENOTFOUND" || String.eqb code "ENODATA".

(** The SPF half of [verifyInfrastructure] for [domain]. *)
Definition check_spf (d : string) : list flag * list event :=
  match resolveTxt d with
  | Records raw =>
      let txtRecords := map JS.join raw in
      if existsb (fun r => JS.startsWith r "v=spf1") txtRecords
      then ([], [ResolveTxt d])
      else ([{| type := "Critical Delivery Risk (Infrastructure Hijacking)";
                domain := Some d;
                reason := "No valid SPF record (v=spf1) found for domain " ++ d
                  ++ ". Senders without SPF are automatically assumed to be spoofing or hijacking infrastructure and will be dropped by Yahoo/AOL." |}],
            [ResolveTxt d])
  | DnsError code =>
      if not_found code
      then ([{| type := "Critical Delivery Risk (SPF)"; domain := Some d;
                reason := "Failed to resolve TXT / SPF records for domain " ++ d
                  ++ " (" ++ code ++ ")." |}],
            [ResolveTxt d])
      else ([], [ResolveTxt d; ConsoleError ("[SEG] DNS SPF Lookup Error for " ++ d ++ ":")])
  end.

(** The DMARC half of [verifyInfrastructure] for [domain]. *)
Definition check_dmarc (d : string) : list flag * list event :=
  let dmarcDomain := "_dmarc." ++ d in
  match resolveTxt dmarcDomain with
  | Records raw =>
      let txtRecordsDmarc := map JS.join raw in
      if existsb (fun r => JS.startsWith r "v=DMARC1") txtRecordsDmarc
      then ([], [ResolveTxt dmarcDomain])
      else ([{| type := "Critical Delivery Risk (Infrastructure Hijacking)";
                domain := Some dmarcDomain;
                reason := "No valid DMARC record (v=DMARC1) found at " ++ dmarcDomain
                  ++ ". Major providers strictly mandate DMARC alignment." |}],
            [ResolveTxt dmarcDomain])
  | DnsError code =>
      if not_found code
      then ([{| type := "Critical Delivery Risk (DMARC)"; domain := Some dmarcDomain;
                reason := "Failed to resolve DMARC records. Major providers strictly mandate DMARC alignment." |}],
            [ResolveTxt dmarcDomain])
      else ([], [ResolveTxt dmarcDomain;
                 ConsoleError ("[SEG] DNS DMARC Lookup Error for " ++ d ++ ":")])
  end.

(** [verifyInfrastructure(emailAddress)]; [None] is a [null] or
    [undefined] address.  [split('@')[1]] always exists when the address
    includes an at sign. *)
Definition verifyInfrastructure (emailAddress : option string)
    : list flag * list event :=
  match emailAddress with
  | None => ([invalid_sender_flag], [])
  | Some a =>
      if negb (JS.truthy a) || negb (JS.includes a "@")
      then ([invalid_sender_flag], [])
      else
        let d := nth 1 (JS.split "@" a) "" in
        let '(spf, ev1) := check_spf d in
        let '(dmarc, ev2) := check_dmarc d in
        ((spf ++ dmarc)%list, (ev1 ++ ev2)%list)
  end.

(** [runPreFlightCheck(htmlBody, senderEmail)]. *)
Definition runPreFlightCheck (htmlBody senderEmail : option string)
    : list flag * list event :=
  let cloakingWarnings := scanHtmlDomForCloaking htmlBody in
  let linkWarnings := scanLinkIntegrity htmlBody in
  let '(infraWarnings, ev) := verifyInfrastructure senderEmail in
  ((cloakingWarnings ++ linkWarnings ++ infraWarnings)%list,
   ([CloakingScan htmlBody; LinkScan htmlBody] ++ ev)%list).

(** [senderPool[0].email] when the pool is a non-empty array. *)
Definition primarySenderEmail (b : body) : option string :=
  match senderPool b with
  | Some (s :: _) => Some (Worker.email s)
  | _ => None
  end.

(** [segMiddleware(req, res, next)].  [req_body = None] is a request
    whose [req.body] is [undefined], on which the destructuring throws
    and the [catch] block answers 500. *)
Definition segMiddleware (req_body : option body) : verdict * list event :=
  match req_body with
  | None => (Status500, [ConsoleError "[SEG] Middleware execution failure:"])
  | Some b =>
      if negb (JS.truthy_opt (emailBody b)) then (Next, [])
      else
        let primary := primarySenderEmail b in
        let ev0 :=
          if JS.truthy_opt primary then []
          else [ConsoleWarn "[SEG] No senderPool provided; skipping infrastructure verification."] in
        let '(securityFlags, ev) := runPreFlightCheck (emailBody b) primary in
        let ev :=
          (ev0 ++ [ConsoleLog "[SEG] Initiating Pre-Flight Security Scan..."] ++ ev)%list in
        if (0 <? List.length securityFlags)%nat
        then (Status400 securityFlags,
              (ev ++ [ConsoleWarn "[SEG] Payload REJECTED. Security flags triggered:"])%list)
        else (Next,
              (ev ++ [ConsoleLog "[SEG] Pre-Flight Scan Passed. Payload cleared for dispatch."])%list)
  end.

(** The checks among the events of a run. *)
Definition is_check (ev : event) : bool :=
  match ev with
  | CloakingScan _ | LinkScan _ | ResolveTxt _ => true
  | _ => false
  end.

(** An infrastructure flag: one of those [verifyInfrastructure] builds. *)
Definition is_infrastructure_flag (f : flag) : bool :=
  JS.startsWith (type f) "Infrastructure Error"
  || JS.startsWith (type f) "Critical Delivery Risk".

End Gate.

End Gate.

(* ===================================================================== *)
(** * The HTTP handlers over the queue ([index.js])                      *)
(* ===================================================================== *)

Module Api.

Local Open Scope string_scope.

(** A job record as BullMQ keeps it.  [locked] marks a job that a worker
    currently holds. *)
Record QueuedJob := {
  job : Worker.Job;
  timestamp : Z;
  processedOn : option Z;
  finishedOn : option Z;
  failedReason : option string;
  returnvalue : option Worker.JobReturn;
  locked : bool
}.

(** The state of [invoiceQueue] by job category, each oldest first, with
    the counter that numbers new jobs.  The operations below follow the
    documented behaviour of the BullMQ [Queue] class, which the
    repository uses as a library. *)
Record Queue := {
  counter : nat;
  wait : list QueuedJob;
  active : list QueuedJob;
  delayed : list QueuedJob;
  completed : list QueuedJob;
  failed : list QueuedJob;
  paused : bool
}.

Definition empty_queue : Queue :=
  {| counter := 0; wait := []; active := []; delayed := []; completed := [];
     failed := []; paused := false |}.

Inductive category := Wait | Active | Delayed | CompletedJobs | FailedJobs.

(** [invoiceQueue.add(name, data)] at instant [now]. *)
Definition add (q : Queue) (now : Z) (d : Worker.JobData) : Queue :=
  let n := S (counter q) in
  {| counter := n;
     wait := (wait q ++ [{| job := {| Worker.id := JS.decimal n; Worker.data := d |};
                            timestamp := now; processedOn := None;
                            finishedOn := None; failedReason := None;
                            returnvalue := None; locked := false |}])%list;
     active := active q; delayed := delayed q; completed := completed q;
     failed := failed q; paused := paused q |}.

(** [invoiceQueue.obliterate({ force: true })] when it goes through:
    every key of the queue is deleted. *)
Definition obliterate (q : Queue) : Queue := empty_queue.

Definition set_paused (q : Queue) (b : bool) : Queue :=
  {| counter := counter q; wait := wait q; active := active q;
     delayed := delayed q; completed := completed q; failed := failed q;
     paused := b |}.

(** The sweep of [clean(0, limit, type)] over one category: among the
    first [limit] jobs, those that no worker holds are removed; waiting
    jobs carry no lock. *)
Definition sweep (limit : Z) (waiting : bool) (l : list QueuedJob)
    : list QueuedJob :=
  (List.filter (fun x => negb waiting && locked x) (firstn (Z.to_nat limit) l)
   ++ skipn (Z.to_nat limit) l)%list.

Definition clean (limit : Z) (c : category) (q : Queue) : Queue :=
  match c with
  | Wait =>
      {| counter := counter q; wait := sweep limit true (wait q);
         active := active q; delayed := delayed q; completed := completed q;
         failed := failed q; paused := paused q |}
  | Active =>
      {| counter := counter q; wait := wait q;
         active := sweep limit false (active q); delayed := delayed q;
         completed := completed q; failed := failed q; paused := paused q |}
  | Delayed =>
      {| counter := counter q; wait := wait q; active := active q;
         delayed := sweep limit false (delayed q); completed := completed q;
         failed := failed q; paused := paused q |}
  | CompletedJobs =>
      {| counter := counter q; wait := wait q; active := active q;
         delayed := delayed q; completed := sweep limit false (completed q);
         failed := failed q; paused := paused q |}
  | FailedJobs =>
      {| counter := counter q; wait := wait q; active := active q;
         delayed := delayed q; completed := completed q;
         failed := sweep limit false (failed q); paused := paused q |}
  end.

(** [getJobs([type], start, end, true)]: positions [start..end] of the
    category, oldest first. *)
Definition getJobs (l : list QueuedJob) (first last : nat) : list QueuedJob :=
  firstn (S last - first) (skipn first l).

(** The server: the queue and the Redis connection it shares with the
    worker. *)
Record Server := { invoiceQueue : Queue; connection : Redis.redis }.

(** The body of a dispatch request. *)
Record DispatchBody := {
  csvData : option (list Worker.Recipient);
  req_invoiceDetails : option Worker.InvoiceDetails;
  req_emailSubject : option string;
  req_emailBody : option string;
  req_senderPool : option (list Worker.Sender);
  req_deliveryMethod : option string
}.

Inductive response :=
  | Ok200 (message : string)
  | Bad400 (error : string)
  | Rejected400 (flags : list Gate.flag)
  | Error500 (error : string).

Definition non_empty_array {A} (o : option (list A)) : bool :=
  match o with
  | Some (_ :: _) => true
  | _ => false
  end.

(** The handler of [POST /api/dispatch], after the middleware. *)
Definition dispatch (now : Z) (b : DispatchBody) (s : Server) : response * Server :=
  if negb (non_empty_array (csvData b)) then
    (Bad400 "No valid recipient data provided", s)
  else if negb (non_empty_array (req_senderPool b)) then
    (Bad400 "No sender pool provided", s)
  else
    let r := Redis.del_logs (connection s) in
    let q :=
      fold_left
        (fun q recipient =>
           add q now
             {| Worker.recipient := recipient;
                Worker.invoiceDetails := req_invoiceDetails b;
                Worker.emailSubject := req_emailSubject b;
                Worker.emailBody := req_emailBody b;
                Worker.senderPool := req_senderPool b;
                Worker.deliveryMethod := req_deliveryMethod b;
                Worker.senderName := None |})
        (match csvData b with Some l => l | None => [] end)
        (invoiceQueue s) in
    (Ok200 "Jobs Queued successfully", {| invoiceQueue := q; connection := r |}).

(** What the middleware reads of a dispatch body. *)
Definition gate_body (b : DispatchBody) : Gate.body :=
  {| Gate.emailBody := req_emailBody b; Gate.senderPool := req_senderPool b |}.

(** The route [app.post('/api/dispatch', apiLimiter, segMiddleware,
    handler)]: the handler runs only when the middleware calls [next()].
    The per-address rate limiter in front of the middleware is not part
    of this model. *)
Definition post_dispatch (cloaking_matches link_matches : string -> list Gate.flag)
    (resolveTxt : string -> Gate.dns_answer) (now : Z)
    (req_body : option DispatchBody) (s : Server)
    : response * Server * list Gate.event :=
  match Gate.segMiddleware cloaking_matches link_matches resolveTxt
          (option_map gate_body req_body), req_body with
  | (Gate.Next, ev), Some b => (dispatch now b s, ev)
  | (Gate.Status400 flags, ev), _ => (Rejected400 flags, s, ev)
  | (_, ev), _ => (Error500 "SEG Analyzer Failure", s, ev)
  end.

(** The handler of [DELETE /api/dispatch/clear].  [obliterate_ok] tells
    whether [obliterate] goes through; when it throws, the [catch] block
    pauses the queue, sweeps the five categories and resumes. *)
Definition clear (obliterate_ok : bool) (s : Server) : response * Server :=
  let q :=
    if obliterate_ok then obliterate (invoiceQueue s)
    else
      let q := set_paused (invoiceQueue s) true in
      let q := clean 100000 Wait q in
      let q := clean 100000 Active q in
      let q := clean 100000 Delayed q in
      let q := clean 100000 CompletedJobs q in
      let q := clean 100000 FailedJobs q in
      set_paused q false in
  (Ok200 "Queue and logs cleared",
   {| invoiceQueue := q; connection := connection s |}).

Record Counts := {
  waiting_count : nat;
  active_count : nat;
  completed_count : nat;
  failed_count : nat
}.

Record LogLine := {
  log_timestamp : Z;
  log_failed : bool;
  log_email : string;
  log_message : string
}.

(** [a.finishedOn || a.processedOn || a.timestamp]. *)
Definition job_time (x : QueuedJob) : Z :=
  match finishedOn x with
  | Some t => if (t =? 0)%Z then
                match processedOn x with
                | Some p => if (p =? 0)%Z then timestamp x else p
                | None => timestamp x
                end
              else t
  | None =>
      match processedOn x with
      | Some p => if (p =? 0)%Z then timestamp x else p
      | None => timestamp x
      end
  end.

(** [sort((a, b) => timeB - timeA)]: newest first, stable. *)
Fixpoint insert_newest (x : QueuedJob) (l : list QueuedJob) : list QueuedJob :=
  match l with
  | [] => [x]
  | y :: r =>
      if (job_time y <=? job_time x)%Z then x :: l else y :: insert_newest x r
  end.

Definition sort_newest (l : list QueuedJob) : list QueuedJob :=
  fold_right insert_newest [] l.

Definition log_line (x : QueuedJob) : LogLine :=
  let isFailed := JS.truthy_opt (failedReason x) in
  let mail := JS.or_else (Some (Worker.Email (Worker.recipient (Worker.data (job x))))) "Unknown" in
  let invoiceNumber :=
    JS.or_else (option_map Worker.ret_invoiceNumber (returnvalue x)) "-" in
  {| log_timestamp := job_time x;
     log_failed := isFailed;
     log_email := mail;
     log_message :=
       if isFailed
       then "Failed to send to " ++ mail ++ ": " ++ JS.or_else (failedReason x) ""
       else "Invoice " ++ invoiceNumber ++ " sent to " ++ mail |}.

(** The answer of [GET /api/dispatch-status].  The revenue total is a
    floating-point sum over the completed jobs and is not part of this
    model. *)
Record Status := {
  counts : Counts;
  logs : list LogLine;
  liveLogs : list Telemetry.logEntry
}.

Definition status (s : Server) : Status :=
  let q := invoiceQueue s in
  let completedJobs := getJobs (completed q) 0 20 in
  let failedJobs := getJobs (failed q) 0 20 in
  let allJobs := firstn 20 (sort_newest (completedJobs ++ failedJobs)) in
  {| counts :=
       {| waiting_count := List.length (wait q);
          active_count := List.length (active q);
          completed_count := List.length (completed q);
          failed_count := List.length (failed q) |};
     logs := map log_line allJobs;
     liveLogs := Redis.lrange_all (connection s) |}.

(** When the sweep of the fallback path removes everything: no category
    exceeds the limit and no worker holds a job. *)
Definition sweepable (q : Queue) : Prop :=
  (Z.of_nat (List.length (wait q)) <= 100000 /\
   Z.of_nat (List.length (active q)) <= 100000 /\
   Z.of_nat (List.length (completed q)) <= 100000 /\
   Z.of_nat (List.length (failed q)) <= 100000)%Z /\
  forallb (fun x => negb (locked x)) (active q ++ completed q ++ failed q) = true.

Definition zero_counts : Counts :=
  {| waiting_count := 0; active_count := 0; completed_count := 0;
     failed_count := 0 |}.

(** The four categories that the status query reads are empty. *)
Definition drained (q : Queue) : Prop :=
  wait q = [] /\ active q = [] /\ completed q = [] /\ failed q = [].

End Api.

(* ===================================================================== *)
(** * Example data: one batch, two senders, one recipient                *)
(* ===================================================================== *)

Module Examples.

Import Worker.

Local Open Scope string_scope.

(** Stand-ins for the two formatting functions: the subject is the spun
    template and the HTML is the spun body. *)
Definition plain_replaceTags (t : option string) (r : Recipient) (n : string)
    (q p : option string) : string := JS.or_else t "".

Definition plain_buildEmailHtml (a : HtmlArgs) : string := html_bodyContent a.

Definition alice : Sender :=
  {| email := "alice@example.com"; appPassword := "app-password";
     host := None; port := None |}.

Definition bob : Sender :=
  {| email := "bob@example.com"; appPassword := "app-password";
     host := Some "smtp.example.com"; port := Some "587" |}.

Definition carol : Recipient :=
  {| Name := Some "Carol"; Email := "carol@example.org"; Product_Name := None |}.

Definition sample_job (jobId : string) (pool : list Sender)
    (method : option string) : Job :=
  {| id := jobId;
     data := {| recipient := carol; invoiceDetails := None;
                emailSubject := Some "{Hi|Hello} {{Name}}";
                emailBody := Some "<p>Your invoice</p>";
                senderPool := Some pool; deliveryMethod := method;
                senderName := None |} |}.

Definition pdf_bytes : list Byte.byte := [Byte.x25; Byte.x50; Byte.x44; Byte.x46].

(** An environment whose renderer always succeeds and whose transport
    answers every send with [answer]. *)
Definition env_answering (answer : option JS.error) : Env :=
  {| random := fun _ => 0;
     generateInvoiceId := "INV-1A2B3C4D";
     trackingId := "0b7e1c9a";
     FRONTEND_BASE_URL := None;
     renderPdf := fun _ => Rendered pdf_bytes;
     sendMail := fun _ _ _ => answer;
     render_ms := fun _ => 1500%Z;
     send_ms := fun _ => 800%Z |}.

Definition rate_limited : JS.error := JS.Error "421 4.7.0 Try again later".
Definition refused : JS.error := JS.Error "connect ECONNREFUSED 203.0.113.5:465".

Definition fresh_world : World :=
  {| store := Redis.empty; now := 1000%Z; draws := 0; outbox := [] |}.

(** The world in which alice was paused at instant 0. *)
Definition alice_paused : World :=
  {| store := Redis.setex Redis.empty 0 (paused_key (email alice)) 3600 "true";
     now := 1000%Z; draws := 0; outbox := [] |}.

Definition run (answer : option JS.error) (jobId : string) (pool : list Sender)
    (method : option string) (w : World) : outcome * World :=
  emailWorker plain_replaceTags plain_buildEmailHtml (env_answering answer)
    (sample_job jobId pool method) w.

(** A resolver for which every name is unknown. *)
Definition no_dns (name : string) : Gate.dns_answer := Gate.DnsError "ENOTFOUND".

(** A server with an empty queue and one telemetry event on record. *)
Definition one_event : Telemetry.logEntry :=
  {| Telemetry.jobId := "1"; Telemetry.message := Telemetry.LogGeneratingPdf;
     Telemetry.type := Telemetry.SevInfo |}.

Definition quiet_server : Api.Server :=
  {| Api.invoiceQueue := Api.empty_queue;
     Api.connection := Redis.rpush_trim Redis.empty one_event |}.

End Examples.

(* ===================================================================== *)
(** * The invoice route ([index.js], [GET /api/invoice/:id]) *)
(* ===================================================================== *)

Module Fetch.

Local Open Scope string_scope.

(** The answers of [GET /api/invoice/:id]. *)
Inductive invoice_response :=
  | InvoiceFound (pdfBase64 : string)
  | InvoiceNotFound404 (error : string).

(** The handler of [GET /api/invoice/:id] at instant [now]: the text
    stored under [invoice_pdf:<id>], or 404 when the key is absent,
    expired or holds the empty string. *)
Definition get_invoice (now : Z) (invoiceId : string) (s : Api.Server)
    : invoice_response :=
  let pdfBase64 := Redis.get (Api.connection s) now (Worker.invoice_key invoiceId) in
  if negb (JS.truthy_opt pdfBase64) then InvoiceNotFound404 "Invoice not found or expired"
  else InvoiceFound (default "" pdfBase64).

End Fetch.

(* ===================================================================== *)
(** * The preview route ([index.js], [POST /api/preview]) *)
(* ===================================================================== *)

Module Preview.

Local Open Scope string_scope.

(** Two characters are the same under the [i] flag when they agree up to
    the case of ASCII letters. *)
Definition same_letter (a b : ascii) : bool :=
  Ascii.eqb (JS.lower_char a) (JS.lower_char b).

(** Whether the literal [pat] matches at the start of [s]. *)
Fixpoint matches_here (pat s : string) : bool :=
  match pat, s with
  | EmptyString, _ => true
  | String p pat', String c s' => same_letter p c && matches_here pat' s'
  | String _ _, EmptyString => false
  end.

(** The replacement text of one match, for a pattern without capture
    groups: [$$] gives a dollar sign, [$&] the matched text, [$`] the
    text before the match and [$'] the text after it; any other dollar
    sign stands for itself. *)
Fixpoint expand (replacement matched before after : string) : string :=
  match replacement with
  | EmptyString => EmptyString
  | String d r =>
      if Ascii.eqb d "$" then
        match r with
        | String c r' =>
            if Ascii.eqb c "$" then String "$" (expand r' matched before after)
            else if Ascii.eqb c "&" then matched ++ expand r' matched before after
            else if Ascii.eqb c "`" then before ++ expand r' matched before after
            else if Ascii.eqb c "'" then after ++ expand r' matched before after
            else String d (expand r matched before after)
        | EmptyString => String d EmptyString
        end
      else String d (expand r matched before after)
  end.

(** [text.replace(/pat/gi, replacement)] for a literal pattern: the
    matches are found from left to right and do not overlap.  [before]
    is the text already scanned and [skip] the number of characters left
    of the match being stepped over. *)
Fixpoint replace_from (pat replacement before : string) (skip : nat) (s : string)
    : string :=
  match s with
  | EmptyString => EmptyString
  | String c rest =>
      match skip with
      | S k => replace_from pat replacement (before ++ String c "") k rest
      | O =>
          if matches_here pat s then
            expand replacement (substring 0 (String.length pat) s) before
              (substring (String.length pat) (String.length s) s)
            ++ replace_from pat replacement (before ++ String c "")
                 (String.length pat - 1) rest
          else String c (replace_from pat replacement (before ++ String c "") 0 rest)
      end
  end.

Definition replace_all (pat replacement s : string) : string :=
  replace_from pat replacement "" 0 s.

(** The [replaceTags] closure of the preview handler. *)
Definition replaceTags (recipient : Worker.Recipient) (invoiceNumber : string)
    (text : option string) : string :=
  if negb (JS.truthy_opt text) then ""
  else
    let result := default "" text in
    let result := replace_all "{{Name}}" (JS.or_else (Worker.Name recipient) "") result in
    let result :=
      replace_all "{{Email}}" (JS.or_else (Some (Worker.Email recipient)) "") result in
    let result := replace_all "{{Invoice_Number}}" invoiceNumber result in
    result.

(** What the handler reads of the request body; [invoiceDetails] is
    taken from the body and never used. *)
Record PreviewBody := {
  csvData : option (list Worker.Recipient);
  emailSubject : option string;
  emailBody : option string
}.

Record PreviewItem := {
  name : option string;
  email : string;
  subject : string;
  body : string;
  invoiceNumber : string
}.

Inductive preview_response :=
  | PreviewOk (previews : list PreviewItem)
  | PreviewBad400 (error : string).

(** [Date.now()] and [Math.random()] as the handler reads them for the
    row at each index. *)
Record Clock := {
  date_now : nat -> N;
  random : nat -> N
}.

Definition decimalN (n : N) : string := NilEmpty.string_of_uint (N.to_uint n).

(** [`INV-${Date.now()}-${Math.floor(Math.random() * 1000)}`]. *)
Definition preview_invoice_number (k : Clock) (i : nat) : string :=
  "INV-" ++ decimalN (date_now k i) ++ "-" ++ decimalN (random k i mod 1000).

(** The handler of [POST /api/preview]; the rows of [csvData] are
    objects.  The per-address rate limiter in front of the handler is
    not part of this model. *)
Definition preview (k : Clock) (b : PreviewBody) : preview_response :=
  if negb (Api.non_empty_array (csvData b)) then PreviewBad400 "No CSV data provided"
  else
    let previewRows := firstn 3 (default [] (csvData b)) in
    PreviewOk
      (imap (fun i recipient =>
               let invoiceNumber := preview_invoice_number k i in
               {| name := Worker.Name recipient;
                  email := Worker.Email recipient;
                  subject := replaceTags recipient invoiceNumber (emailSubject b);
                  body := replaceTags recipient invoiceNumber (emailBody b);
                  invoiceNumber := invoiceNumber |})
            previewRows).

End Preview.

(* ===================================================================== *)
(** * Further example data *)
(* ===================================================================== *)

Module MoreExamples.

Import Worker Examples.

Local Open Scope string_scope.

(** An environment whose renderer crashes on every call. *)
Definition env_render_crash : Env :=
  {| random := fun _ => 0;
     generateInvoiceId := "INV-1A2B3C4D";
     trackingId := "0b7e1c9a";
     FRONTEND_BASE_URL := None;
     renderPdf := fun _ => RenderFailed "Protocol error: Target closed";
     sendMail := fun _ _ _ => None;
     render_ms := fun _ => 1500%Z;
     send_ms := fun _ => 800%Z |}.

End MoreExamples.

Module RouteExamples.

Import Worker Examples.

Local Open Scope string_scope.

(** Scanners that find nothing. *)
Definition no_matches (htmlBody : string) : list Gate.flag := [].

(** A request body with one sender and a plain message. *)
Definition plain_body : Gate.body :=
  {| Gate.emailBody := Some "<p>Your invoice</p>"; Gate.senderPool := Some [alice] |}.

(** A resolver that knows the domain of the example senders, with an
    SPF and a DMARC record, and no other name. *)
Definition verified_dns (name : string) : Gate.dns_answer :=
  if String.eqb name "example.com"
  then Gate.Records [["v=spf1 include:_spf.example.com ~all"]]
  else if String.eqb name "_dmarc.example.com"
  then Gate.Records [["v=DMARC1; p=quarantine"]]
  else Gate.DnsError "ENOTFOUND".

Definition dave : Recipient :=
  {| Name := Some "Dave"; Email := "dave@example.org"; Product_Name := None |}.

Definition erin : Recipient :=
  {| Name := None; Email := "erin@yahoo.com"; Product_Name := None |}.

(** A dispatch request for three recipients through two senders. *)
Definition three_row_request : Api.DispatchBody :=
  {| Api.csvData := Some [carol; dave; erin];
     Api.req_invoiceDetails := None;
     Api.req_emailSubject := Some "{Hi|Hello} {{Name}}";
     Api.req_emailBody := Some "<p>Your invoice</p>";
     Api.req_senderPool := Some [alice; bob];
     Api.req_deliveryMethod := Some "link" |}.

(** A server in the middle of a batch: four jobs numbered so far, the
    fourth still waiting, the third completed, and one telemetry event
    on record. *)
Definition busy_server : Api.Server :=
  {| Api.invoiceQueue :=
       {| Api.counter := 4;
          Api.wait :=
            [{| Api.job := sample_job "4" [alice] None; Api.timestamp := 4000;
                Api.processedOn := None; Api.finishedOn := None;
                Api.failedReason := None; Api.returnvalue := None;
                Api.locked := false |}];
          Api.active := [];
          Api.delayed := [];
          Api.completed :=
            [{| Api.job := sample_job "3" [alice] None; Api.timestamp := 3000;
                Api.processedOn := Some 3100%Z; Api.finishedOn := Some 3900%Z;
                Api.failedReason := None;
                Api.returnvalue :=
                  Some {| ret_invoiceNumber := "INV-1A2B3C4D";
                          ret_sender := "alice@example.com" |};
                Api.locked := false |}];
          Api.failed := [];
          Api.paused := false |};
     Api.connection := Redis.rpush_trim Redis.empty one_event |}.

End RouteExamples.

(* ===================================================================== *)
(** * Properties of the spintax parser                                   *)
(* ===================================================================== *)

Section SpintaxFacts.

Import Spintax.

Lemma char_cases (c : ascii) :
  (c = lbrace /\ is_lbrace c = true) \/
  (c = rbrace /\ is_lbrace c = false /\ is_rbrace c = true) \/
  (is_lbrace c = false /\ is_rbrace c = false).
Proof.
  unfold is_lbrace, is_rbrace.
  destruct (Ascii.eqb_spec c lbrace) as [->|H1]; [left; done|].
  destruct (Ascii.eqb_spec c rbrace) as [->|H2]; [right; left; done|].
  right; right; done.
Qed.

Ltac by_char c :=
  let H := fresh "Hc" in
  destruct (char_cases c) as [[-> H]|[[-> [H ?]]|[H ?]]].

Lemma has_pipe_app a b : has_pipe (a ++ b) = has_pipe a || has_pipe b.
Proof. apply existsb_app. Qed.

Lemma brace_free_app a b : brace_free (a ++ b) = brace_free a && brace_free b.
Proof. apply forallb_app. Qed.

Lemma count_open_app a b : count_open (a ++ b) = count_open a + count_open b.
Proof. induction a as [|c a IH]; simpl; [done|]. rewrite IH. lia. Qed.

Lemma count_open_brace_free s : brace_free s = true -> count_open s = 0.
Proof.
  induction s as [|c s IH]; simpl; [done|].
  unfold non_brace. intros H. apply andb_true_iff in H as [H1 H2].
  apply negb_true_iff, orb_false_iff in H1 as [-> _]. simpl. auto.
Qed.

(** every option of a brace-free run is brace-free *)
Lemma split_pipe_brace_free run :
  brace_free run = true -> Forall (fun o => brace_free o = true) (split_pipe run).
Proof.
  induction run as [|c r IH]; simpl; intros H.
  - repeat constructor.
  - apply andb_true_iff in H as [H1 H2]. specialize (IH H2).
    destruct (is_pipe c).
    + constructor; [done|done].
    + destruct (split_pipe r) as [|h t]; [repeat constructor; simpl; by rewrite H1|].
      inversion IH; subst. constructor; [simpl; by rewrite H1|done].
Qed.

Lemma choose_brace_free rnd k run :
  brace_free run = true -> brace_free (choose rnd k (split_pipe run)) = true.
Proof.
  intros H. pose proof (split_pipe_brace_free run H) as HF.
  unfold choose.
  destruct (nth_in_or_default (rnd k mod List.length (split_pipe run)) (split_pipe run) [])
    as [Hin| ->]; [|done].
  rewrite Forall_forall in HF. apply HF. by apply list_elem_of_In.
Qed.

Lemma pending_ok_snoc run c :
  brace_free run = true -> is_lbrace c = false -> is_rbrace c = false ->
  brace_free (run ++ [c]) = true.
Proof.
  intros H H1 H2. rewrite brace_free_app, H. simpl. unfold non_brace.
  by rewrite H1, H2.
Qed.

Lemma replace_from_count rnd s : forall k pending,
  pending_ok pending ->
  count_open (fst (replace_from rnd k pending s))
    + (if test_from pending s then 1 else 0)
  <= count_open (flush pending) + count_open s.
Proof.
  induction s as [|c rest IH]; intros k pending Hok.
  - simpl. lia.
  - simpl. by_char c; rewrite Hc; try rewrite H.
    + specialize (IH k (Some []) eq_refl).
      destruct (replace_from rnd k (Some []) rest) as [out k'] eqn:E.
      simpl in *. rewrite count_open_app. lia.
    + destruct pending as [run|].
      * destruct (has_pipe run) eqn:Hp.
        -- specialize (IH (S k) None I).
           destruct (replace_from rnd (S k) None rest) as [out k'] eqn:E.
           simpl in *. rewrite count_open_app.
           rewrite (count_open_brace_free _ (choose_brace_free rnd k run Hok)).
           lia.
        -- specialize (IH k None I).
           destruct (replace_from rnd k None rest) as [out k'] eqn:E.
           simpl in *. rewrite count_open_app. simpl. lia.
      * specialize (IH k None I).
        destruct (replace_from rnd k None rest) as [out k'] eqn:E.
        simpl in *. lia.
    + destruct pending as [run|].
      * specialize (IH k (Some (run ++ [c])) (pending_ok_snoc _ _ Hok Hc H)).
        simpl in *. rewrite count_open_app in IH. simpl in IH. rewrite Hc in IH.
        lia.
      * specialize (IH k None I).
        destruct (replace_from rnd k None rest) as [out k'] eqn:E.
        simpl in *. rewrite Hc. lia.
Qed.

Lemma replace_pass_decreases rnd k s :
  spintax_test s = true ->
  count_open (fst (replace_pass rnd k s)) < count_open s.
Proof.
  intros Ht. pose proof (replace_from_count rnd s k None I) as H.
  unfold spintax_test in Ht. rewrite Ht in H. unfold replace_pass. simpl in H. lia.
Qed.

Lemma spin_loop_terminates rnd : forall fuel k passes s,
  count_open s <= fuel ->
  exists r, spin_loop fuel rnd k passes s = Some r /\
            spintax_test (spun_text r) = false /\
            passes <= spun_passes r <= passes + count_open s.
Proof.
  induction fuel as [|fuel IH]; intros k passes s Hle.
  - simpl. destruct (spintax_test s) eqn:Ht.
    + pose proof (replace_pass_decreases rnd k s Ht). lia.
    + eexists; split; [done|]. simpl. split; [done|lia].
  - simpl. destruct (spintax_test s) eqn:Ht.
    + pose proof (replace_pass_decreases rnd k s Ht) as Hd.
      destruct (replace_pass rnd k s) as [s' k'] eqn:E. simpl in Hd.
      destruct (IH k' (S passes) s') as (r & Hr & Hn & Hp); [lia|].
      exists r. split; [done|]. split; [done|lia].
    + eexists; split; [done|]. simpl. split; [done|lia].
Qed.

Lemma spin_loop_fuel_mono rnd : forall fuel fuel' k passes s r,
  spin_loop fuel rnd k passes s = Some r -> fuel <= fuel' ->
  spin_loop fuel' rnd k passes s = Some r.
Proof.
  induction fuel as [|fuel IH]; intros fuel' k passes s r H Hle.
  - simpl in H. destruct fuel'; simpl; destruct (spintax_test s); done.
  - destruct fuel' as [|fuel']; [lia|]. simpl in *.
    destruct (spintax_test s); [|done].
    destruct (replace_pass rnd k s) as [s' k'].
    apply (IH fuel'); [done|lia].
Qed.

Lemma parseSpintax_fuel_enough rnd k t fuel :
  count_open t <= fuel ->
  parseSpintax_fuel fuel rnd k t = Some (parseSpintax rnd k t).
Proof.
  intros Hle. unfold parseSpintax.
  destruct t as [|c t]; [done|].
  unfold parseSpintax_fuel.
  destruct (spin_loop_terminates rnd (count_open (c :: t)) k 0 (c :: t)) as (r & Hr & _); [done|].
  rewrite Hr. by apply (spin_loop_fuel_mono rnd _ fuel) in Hr.
Qed.

Lemma non_brace_inv c : non_brace c = true -> is_lbrace c = false /\ is_rbrace c = false.
Proof. unfold non_brace. intros H. by apply negb_true_iff, orb_false_iff in H. Qed.

Lemma test_from_run run : forall r post,
  brace_free run = true ->
  test_from (Some r) (run ++ rbrace :: post)
  = if has_pipe (r ++ run) then true else test_from None post.
Proof.
  induction run as [|c run IH]; intros r post Hbf.
  - simpl. by rewrite app_nil_r.
  - simpl in Hbf. apply andb_true_iff in Hbf as [Hc Hbf].
    apply non_brace_inv in Hc as [H1 H2]. simpl. rewrite H1, H2.
    rewrite IH by done. by rewrite <- app_assoc.
Qed.

Lemma test_from_span s : forall pending,
  spintax_span s -> test_from pending s = true.
Proof.
  intros pending (pre & run & post & -> & Hbf & Hp). revert pending.
  induction pre as [|c pre IH]; intros pending.
  - simpl. replace (is_lbrace lbrace) with true by done.
    rewrite test_from_run by done. simpl. by rewrite Hp.
  - simpl. by_char c; rewrite Hc; try rewrite H; auto.
    + destruct pending as [r|]; [destruct (has_pipe r)|]; auto.
    + destruct pending; auto.
Qed.

Lemma test_from_complete s : forall pending,
  pending_ok pending ->
  test_from pending s = true ->
  spintax_span s \/
  exists r run post, pending = Some r /\ s = run ++ rbrace :: post /\
                     brace_free run = true /\ has_pipe (r ++ run) = true.
Proof.
  induction s as [|c rest IH]; intros pending Hok Ht; [done|].
  simpl in Ht. by_char c; rewrite Hc in Ht; try rewrite H in Ht.
  - destruct (IH (Some []) eq_refl Ht) as [(pre & run & post & -> & ? & ?)|(r & run & post & Hr & -> & ? & ?)].
    + left. exists (lbrace :: pre), run, post. done.
    + left. injection Hr as <-. exists [], run, post. done.
  - destruct pending as [r|].
    + destruct (has_pipe r) eqn:Hp.
      * right. exists r, [], rest. rewrite app_nil_r. done.
      * destruct (IH None I Ht) as [(pre & run & post & -> & ? & ?)|(? & ? & ? & ? & _)]; [|done].
        left. by exists (rbrace :: pre), run, post.
    + destruct (IH None I Ht) as [(pre & run & post & -> & ? & ?)|(? & ? & ? & ? & _)]; [|done].
      left. by exists (rbrace :: pre), run, post.
  - destruct pending as [r|].
    + destruct (IH (Some (r ++ [c])) (pending_ok_snoc _ _ Hok Hc H) Ht)
        as [(pre & run & post & -> & ? & ?)|(r' & run & post & Hr & -> & Hb & Hp)].
      * left. by exists (c :: pre), run, post.
      * right. injection Hr as <-. exists r, (c :: run), post.
        split; [done|]. split; [done|]. split.
        -- simpl. unfold non_brace. by rewrite Hc, H.
        -- by rewrite <- app_assoc in Hp.
    + destruct (IH None I Ht) as [(pre & run & post & -> & ? & ?)|(? & ? & ? & ? & _)]; [|done].
      left. by exists (c :: pre), run, post.
Qed.

(** the scanner decides exactly the pattern of [spintaxRegex] *)
Lemma spintax_test_spec s : spintax_test s = true <-> spintax_span s.
Proof.
  split.
  - intros H. destruct (test_from_complete s None I H) as [?|(? & ? & ? & ? & _)]; done.
  - apply test_from_span.
Qed.

(** a pipe-free stretch up to a closing brace is copied verbatim *)
Lemma replace_from_pipe_free rnd w : forall k pending post,
  has_pipe w = false -> pending_pipe_free pending ->
  replace_from rnd k pending (w ++ rbrace :: post)
  = (flush pending ++ w ++ rbrace :: fst (replace_from rnd k None post),
     snd (replace_from rnd k None post)).
Proof.
  induction w as [|c w IH]; intros k pending post Hw Hp.
  - simpl. replace (is_lbrace rbrace) with false by done.
    replace (is_rbrace rbrace) with true by done.
    destruct (replace_from rnd k None post) as [out k'].
    destruct pending as [run|]; simpl in *; [by rewrite Hp|done].
  - simpl in Hw. apply orb_false_iff in Hw as [Hc Hw]. simpl.
    by_char c; rewrite Hc0; try rewrite H.
    + rewrite (IH k (Some []) post Hw eq_refl).
      simpl. done.
    + destruct pending as [run|]; simpl in *.
      * rewrite Hp. rewrite (IH k None post Hw I). simpl. done.
      * rewrite (IH k None post Hw I). simpl. done.
    + destruct pending as [run|]; simpl in *.
      * rewrite (IH k (Some (run ++ [c])) post Hw).
        -- simpl. by rewrite <- app_assoc.
        -- simpl. rewrite has_pipe_app, Hp. simpl. by rewrite Hc.
      * rewrite (IH k None post Hw I). simpl. done.
Qed.

Lemma replace_from_keeps_span rnd w pre : forall k pending post,
  has_pipe w = false ->
  contains_span w (fst (replace_from rnd k pending (pre ++ lbrace :: w ++ rbrace :: post))).
Proof.
  induction pre as [|c pre IH]; intros k pending post Hw.
  - simpl. replace (is_lbrace lbrace) with true by done.
    rewrite (replace_from_pipe_free rnd w k (Some []) post Hw eq_refl). simpl.
    eexists (flush pending), _. reflexivity.
  - simpl. by_char c; rewrite Hc; try rewrite H.
    + destruct (IH k (Some []) post Hw) as (p1 & p2 & E).
      destruct (replace_from rnd k (Some []) _) as [out k']. simpl in *. subst out.
      exists (flush pending ++ p1), p2. by rewrite <- app_assoc.
    + destruct pending as [run|]; [destruct (has_pipe run)|].
      * destruct (IH (S k) None post Hw) as (p1 & p2 & E).
        destruct (replace_from rnd (S k) None _) as [out k']. simpl in *. subst out.
        exists (choose rnd k (split_pipe run) ++ p1), p2. by rewrite <- app_assoc.
      * destruct (IH k None post Hw) as (p1 & p2 & E).
        destruct (replace_from rnd k None _) as [out k']. simpl in *. subst out.
        exists (lbrace :: run ++ rbrace :: p1), p2. simpl. by rewrite <- app_assoc.
      * destruct (IH k None post Hw) as (p1 & p2 & E).
        destruct (replace_from rnd k None _) as [out k']. simpl in *. subst out.
        by exists (rbrace :: p1), p2.
    + destruct pending as [run|].
      * apply IH; done.
      * destruct (IH k None post Hw) as (p1 & p2 & E).
        destruct (replace_from rnd k None _) as [out k']. simpl in *. subst out.
        by exists (c :: p1), p2.
Qed.

Lemma replace_pass_keeps_span rnd k w s :
  has_pipe w = false -> contains_span w s ->
  contains_span w (fst (replace_pass rnd k s)).
Proof. intros Hw (pre & post & ->). by apply replace_from_keeps_span. Qed.

Lemma spin_loop_keeps_span rnd w : forall fuel k passes s r,
  has_pipe w = false -> contains_span w s ->
  spin_loop fuel rnd k passes s = Some r ->
  contains_span w (spun_text r).
Proof.
  induction fuel as [|fuel IH]; intros k passes s r Hw Hs H; simpl in H;
    destruct (spintax_test s); try done.
  - by injection H as <-.
  - pose proof (replace_pass_keeps_span rnd k w s Hw Hs) as Hk.
    destruct (replace_pass rnd k s) as [s' k']. by apply (IH k' (S passes) s').
  - by injection H as <-.
Qed.

(** ** One pass as the leftmost-match replacement of the pattern *)

Lemma replace_from_run rnd run : forall k r post,
  brace_free run = true ->
  replace_from rnd k (Some r) (run ++ rbrace :: post)
  = if has_pipe (r ++ run)
    then (choose rnd k (split_pipe (r ++ run)) ++ fst (replace_from rnd (S k) None post),
          snd (replace_from rnd (S k) None post))
    else (lbrace :: (r ++ run) ++ rbrace :: fst (replace_from rnd k None post),
          snd (replace_from rnd k None post)).
Proof.
  induction run as [|c run IH]; intros k r post Hbf.
  - simpl. replace (is_lbrace rbrace) with false by done.
    replace (is_rbrace rbrace) with true by done. rewrite app_nil_r.
    destruct (has_pipe r).
    + by destruct (replace_from rnd (S k) None post).
    + by destruct (replace_from rnd k None post).
  - simpl in Hbf. apply andb_true_iff in Hbf as [Hc Hbf].
    apply non_brace_inv in Hc as [H1 H2]. simpl. rewrite H1, H2.
    rewrite IH by done. by rewrite <- !app_assoc.
Qed.

Lemma replace_from_prefix rnd pre : forall k pending rest,
  test_from pending pre = false ->
  replace_from rnd k pending (pre ++ lbrace :: rest)
  = (flush pending ++ pre ++ fst (replace_from rnd k (Some []) rest),
     snd (replace_from rnd k (Some []) rest)).
Proof.
  induction pre as [|c pre IH]; intros k pending rest Ht.
  - simpl. replace (is_lbrace lbrace) with true by done.
    by destruct (replace_from rnd k (Some []) rest).
  - simpl in *. by_char c; rewrite Hc in *; try rewrite H in *.
    + rewrite (IH k (Some []) rest Ht). simpl. done.
    + destruct pending as [run|]; [destruct (has_pipe run); [done|]|];
        rewrite (IH k None rest Ht); simpl; by rewrite <- ?app_assoc.
    + destruct pending as [run|].
      * rewrite (IH k (Some (run ++ [c])) rest Ht). simpl. by rewrite <- app_assoc.
      * rewrite (IH k None rest Ht). simpl. done.
Qed.

Lemma replace_from_nomatch rnd s : forall k pending,
  test_from pending s = false ->
  replace_from rnd k pending s = (flush pending ++ s, k).
Proof.
  induction s as [|c s IH]; intros k pending Ht.
  - simpl. by rewrite app_nil_r.
  - simpl in *. by_char c; rewrite Hc in *; try rewrite H in *.
    + rewrite (IH k (Some []) Ht). done.
    + destruct pending as [run|]; [destruct (has_pipe run); [done|]|];
        rewrite (IH k None Ht); simpl; by rewrite <- ?app_assoc.
    + destruct pending as [run|].
      * rewrite (IH k (Some (run ++ [c])) Ht). simpl. by rewrite <- app_assoc.
      * rewrite (IH k None Ht). done.
Qed.

(** text without a match is returned unchanged and draws nothing *)
Lemma replace_pass_nomatch rnd k s :
  spintax_test s = false -> replace_pass rnd k s = (s, k).
Proof. intros H. unfold replace_pass. by rewrite replace_from_nomatch. Qed.

(** the leftmost match is replaced by the option drawn for it and the
    pass resumes right after its closing brace *)
Lemma replace_pass_leftmost rnd k pre run post :
  spintax_test pre = false -> brace_free run = true -> has_pipe run = true ->
  replace_pass rnd k (pre ++ lbrace :: run ++ rbrace :: post)
  = (pre ++ choose rnd k (split_pipe run) ++ fst (replace_pass rnd (S k) post),
     snd (replace_pass rnd (S k) post)).
Proof.
  intros Ht Hbf Hp. unfold replace_pass.
  rewrite replace_from_prefix by done.
  rewrite replace_from_run by done. simpl. by rewrite Hp.
Qed.

(** ** Nested spans need one pass per nesting level *)

Lemma test_from_no_close s : forall pending,
  forallb (fun c => negb (is_rbrace c)) s = true -> test_from pending s = false.
Proof.
  induction s as [|c s IH]; intros pending H; [done|].
  simpl in *. apply andb_true_iff in H as [H1 H2]. apply negb_true_iff in H1.
  rewrite H1. destruct (is_lbrace c); [auto|]. destruct pending; auto.
Qed.

Lemma opens_no_close j : forallb (fun c => negb (is_rbrace c)) (opens j) = true.
Proof. induction j as [|j IH]; [done|]. simpl. rewrite forallb_app, IH. done. Qed.

Lemma test_from_closes j : test_from None (closes j) = false.
Proof.
  induction j as [|j IH]; [done|]. exact IH.
Qed.

Lemma choose_same rnd k (o : text) : choose rnd k [o; o] = o.
Proof.
  unfold choose. change (List.length [o; o]) with 2.
  pose proof (Nat.mod_upper_bound (rnd k) 2 ltac:(lia)) as H.
  destruct (rnd k mod 2) as [|[|n]]; [done|done|lia].
Qed.

Lemma replace_pass_nest rnd k j :
  replace_pass rnd k (nest j) = (opens j ++ a_char :: closes j, S k).
Proof.
  unfold nest. rewrite replace_pass_leftmost; try done.
  - rewrite replace_pass_nomatch by apply test_from_closes. simpl.
    by rewrite choose_same.
  - apply test_from_no_close, opens_no_close.
Qed.

Lemma nest_unfold j : opens (S j) ++ a_char :: closes (S j) = nest j.
Proof. unfold nest. simpl. by rewrite <- app_assoc. Qed.

Lemma spintax_test_nest j : spintax_test (nest j) = true.
Proof.
  apply spintax_test_spec. exists (opens j), [a_char; pipe; a_char], (closes j). done.
Qed.

Lemma spin_loop_step fuel rnd k passes s :
  spintax_test s = true ->
  spin_loop (S fuel) rnd k passes s
  = spin_loop fuel rnd (snd (replace_pass rnd k s)) (S passes) (fst (replace_pass rnd k s)).
Proof. intros H. simpl. rewrite H. by destruct (replace_pass rnd k s). Qed.

Lemma spin_loop_done fuel rnd k passes s :
  spintax_test s = false ->
  spin_loop fuel rnd k passes s
  = Some {| spun_text := s; spun_next := k; spun_passes := passes |}.
Proof. intros H. destruct fuel; simpl; by rewrite H. Qed.

Lemma spin_loop_nest rnd : forall j fuel k passes,
  j < fuel ->
  spin_loop fuel rnd k passes (nest j)
  = Some {| spun_text := [a_char]; spun_next := k + S j; spun_passes := passes + S j |}.
Proof.
  induction j as [|j IH]; intros fuel k passes Hlt;
    (destruct fuel as [|fuel]; [lia|]);
    rewrite spin_loop_step by apply spintax_test_nest;
    rewrite replace_pass_nest; cbn [fst snd].
  - rewrite spin_loop_done by done. do 2 f_equal; lia.
  - rewrite nest_unfold. rewrite IH by lia. do 2 f_equal; lia.
Qed.

Lemma parseSpintax_nest rnd k j :
  spun_passes (parseSpintax rnd k (nest j)) = S j.
Proof.
  pose proof (spin_loop_nest rnd j (S j + count_open (nest j)) k 0 ltac:(lia)) as H.
  pose proof (parseSpintax_fuel_enough rnd k (nest j) (S j + count_open (nest j)) ltac:(lia)) as E.
  assert (parseSpintax_fuel (S j + count_open (nest j)) rnd k (nest j)
          = spin_loop (S j + count_open (nest j)) rnd k 0 (nest j)) as E2.
  { unfold parseSpintax_fuel, nest. by destruct (opens j). }
  rewrite E2, H in E. by injection E as <-.
Qed.

(** Four nested levels take four passes, whatever is drawn. *)
Example parseSpintax_nested_three rnd k :
  spun_passes (parseSpintax rnd k (txt "{a|{a|{a|{a|a}}}}")) = 4.
Proof. exact (parseSpintax_nest rnd k 3). Qed.

Lemma parseSpintax_resolved rnd k t :
  spintax_test (spun_text (parseSpintax rnd k t)) = false /\
  spun_passes (parseSpintax rnd k t) <= count_open t.
Proof.
  pose proof (parseSpintax_fuel_enough rnd k t (count_open t) (le_n _)) as E.
  destruct t as [|c t]; [split; [reflexivity|apply le_n]|].
  destruct (spin_loop_terminates rnd (count_open (c :: t)) k 0 (c :: t) (le_n _))
    as (r & Hr & Hn & Hp).
  unfold parseSpintax_fuel in E. rewrite Hr in E. injection E as <-.
  split; [done|lia].
Qed.

(** C4, as the code has it.  The loop rescans after every substitution
    pass until the pattern no longer matches; it carries no iteration
    cap, and it needs none: every pass that finds a match removes an
    opening brace, so the loop ends after at most as many passes as the
    input has opening braces, for every input and every random draw. *)
Theorem parseSpintax_terminates (rnd : nat -> nat) (k : nat) (t : text) (fuel : nat) :
  count_open t <= fuel ->
  parseSpintax_fuel fuel rnd k t = Some (parseSpintax rnd k t) /\
  spintax_test (spun_text (parseSpintax rnd k t)) = false /\
  spun_passes (parseSpintax rnd k t) <= count_open t.
Proof.
  intros Hle. split; [by apply parseSpintax_fuel_enough|].
  apply parseSpintax_resolved.
Qed.

Lemma parseSpintax_terminates_witness :
  parseSpintax_fuel 2 (fun _ => 1) 0 (txt "{Dear|Hi {there|you}}")
  = Some (parseSpintax (fun _ => 1) 0 (txt "{Dear|Hi {there|you}}")) /\
  spintax_test (spun_text (parseSpintax (fun _ => 1) 0 (txt "{Dear|Hi {there|you}}"))) = false /\
  spun_passes (parseSpintax (fun _ => 1) 0 (txt "{Dear|Hi {there|you}}"))
  <= count_open (txt "{Dear|Hi {there|you}}").
Proof.
  apply (parseSpintax_terminates (fun _ => 1) 0 (txt "{Dear|Hi {there|you}}") 2).
  vm_compute. lia.
Defined.

(** No number of passes bounds the loop for every input. *)
Lemma parseSpintax_has_no_pass_cap :
  ~ exists cap : nat, forall rnd k t, spun_passes (parseSpintax rnd k t) <= cap.
Proof.
  intros (cap & H). specialize (H (fun _ => 0) 0 (nest cap)).
  rewrite parseSpintax_nest in H. lia.
Qed.

Lemma parseSpintax_keeps_span rnd k w t :
  has_pipe w = false -> contains_span w t ->
  contains_span w (spun_text (parseSpintax rnd k t)).
Proof.
  intros Hw Hs.
  pose proof (parseSpintax_fuel_enough rnd k t (count_open t) (le_n _)) as E.
  destruct t as [|c t]; [exact Hs|].
  by apply (spin_loop_keeps_span rnd w _ _ _ _ _ Hw Hs E).
Qed.

(** C5, as the code has it.  For every input text the output holds no
    span that the pattern matches, that is, no brace pair whose contents
    are free of braces and include a pipe; and every brace-delimited span
    of the input whose contents hold no pipe is still there, character
    for character. *)
Theorem spintax_output_resolved_and_placeholders_kept
    (rnd : nat -> nat) (k : nat) (t : text) :
  ~ spintax_span (spun_text (parseSpintax rnd k t)) /\
  forall w : text,
    has_pipe w = false ->
    contains_span w t ->
    contains_span w (spun_text (parseSpintax rnd k t)).
Proof.
  split; [|intros w Hw Hs; by apply parseSpintax_keeps_span].
  intros Hspan. apply spintax_test_spec in Hspan.
  destruct (parseSpintax_resolved rnd k t) as (Hn & _).
  congruence.
Qed.

Lemma spintax_output_resolved_and_placeholders_kept_witness :
  ~ spintax_span (spun_text (parseSpintax (fun _ => 1) 0 (txt "{Hello|Hi} {{Name}}"))) /\
  contains_span (txt "{Name}")
    (spun_text (parseSpintax (fun _ => 1) 0 (txt "{Hello|Hi} {{Name}}"))).
Proof.
  destruct (spintax_output_resolved_and_placeholders_kept
              (fun _ => 1) 0 (txt "{Hello|Hi} {{Name}}")) as [H1 H2].
  split; [exact H1|]. apply H2.
  - reflexivity.
  - exists (txt "{Hello|Hi} "), []. reflexivity.
Defined.

(** A template whose options hold a placeholder is returned as it came,
    with the brace pair around the pipe still in it. *)
Lemma parseSpintax_leaves_span_around_placeholder :
  spun_text (parseSpintax (fun _ => 0) 0 (txt "{Hi {{Name}}|Hello}"))
  = txt "{Hi {{Name}}|Hello}" /\
  pipe_brace_pair (spun_text (parseSpintax (fun _ => 0) 0 (txt "{Hi {{Name}}|Hello}"))).
Proof.
  split; [reflexivity|].
  exists [], (txt "Hi {{Name}}|Hello"), []. split; [reflexivity|]. split; reflexivity.
Qed.

End SpintaxFacts.

(* ===================================================================== *)
(** * Properties of the worker and its rotation                          *)
(* ===================================================================== *)

Section WorkerFacts.

Import Worker.

Local Open Scope string_scope.

Lemma parse_digits_uint d : forall acc seen,
  JS.parse_digits 10 (Z.of_nat acc) seen (NilEmpty.string_of_uint d)
  = match d with
    | Nil => if seen then Some (Z.of_nat acc) else None
    | _ => Some (Z.of_nat (Nat.of_uint_acc d acc))
    end.
Proof.
  induction d as [|d IH|d IH|d IH|d IH|d IH|d IH|d IH|d IH|d IH|d IH];
    intros acc seen; [done|..];
    cbn [NilEmpty.string_of_uint JS.parse_digits Nat.of_uint_acc];
    match goal with
    | |- context [JS.digit_value 10 ?c] =>
        let v := eval vm_compute in (JS.digit_value 10 c) in
        change (JS.digit_value 10 c) with v
    end; cbv iota beta;
    match goal with
    | |- JS.parse_digits 10 ?z true _ = _ =>
        match goal with
        | |- context [Nat.of_uint_acc d ?a] =>
            replace z with (Z.of_nat a)
              by (rewrite ?Nat2Z.inj_succ, Nat.tail_mul_spec; lia)
        end
    end;
    rewrite IH; destruct d; reflexivity.
Qed.

Lemma to_uint_not_nil n : Nat.to_uint n <> Nil.
Proof.
  intros H. pose proof (DecimalNat.Unsigned.of_to n) as E. rewrite H in E.
  simpl in E. subst n. discriminate H.
Qed.

Lemma parseInt_digits d :
  d <> Nil ->
  JS.parseInt (NilEmpty.string_of_uint d)
  = JS.parse_digits 10 0 false (NilEmpty.string_of_uint d).
Proof.
  intros H. destruct d as [|d|d|d|d|d|d|d|d|d|d]; [done|..];
    destruct d; reflexivity.
Qed.

Lemma parseInt_decimal n : JS.parseInt (JS.decimal n) = Some (Z.of_nat n).
Proof.
  unfold JS.decimal.
  rewrite parseInt_digits by apply to_uint_not_nil.
  change 0%Z with (Z.of_nat 0). rewrite (parse_digits_uint (Nat.to_uint n) 0 false).
  pose proof (to_uint_not_nil n) as H.
  pose proof (DecimalNat.Unsigned.of_to n) as E. unfold Nat.of_uint in E.
  destruct (Nat.to_uint n); [done|..]; by rewrite E.
Qed.

Lemma parseInt_or_decimal n : JS.parseInt_or (JS.decimal n) 0 = Z.of_nat n.
Proof.
  unfold JS.parseInt_or. rewrite parseInt_decimal.
  destruct (Z.eqb_spec (Z.of_nat n) 0); lia.
Qed.

Lemma count_in_seq (f : nat -> Z) v : forall len start,
  (forall x, (start <= x < start + len)%nat -> f x = Z.of_nat x) ->
  List.length (List.filter (fun x => (f x =? Z.of_nat v)%Z) (seq start len))
  = if ((start <=? v) && (v <? start + len))%nat then 1 else 0.
Proof.
  induction len as [|len IH]; intros start Hf.
  - simpl. destruct (Nat.leb_spec start v), (Nat.ltb_spec v (start + 0)); simpl; lia.
  - cbn [seq List.filter]. rewrite (Hf start) by lia.
    destruct (Z.eqb_spec (Z.of_nat start) (Z.of_nat v)); cbn [List.length];
      rewrite IH by (intros; apply Hf; lia);
      destruct (Nat.leb_spec start v), (Nat.ltb_spec v (start + S len)),
        (Nat.leb_spec (S start) v), (Nat.ltb_spec v (S start + len)); simpl; lia.
Qed.

Lemma pool_at_nat (pool : list Sender) (k : nat) :
  pool_at pool (Z.of_nat k) = nth_error pool k.
Proof.
  unfold pool_at. destruct (Z.ltb_spec (Z.of_nat k) 0); [lia|].
  by rewrite Nat2Z.id.
Qed.

Lemma numbered_job_start (d : JobData) (k n : nat) :
  (k < n)%nat ->
  senderIndex (startIndex {| id := JS.decimal k; data := d |}) 0 n = Z.of_nat k.
Proof.
  intros H. unfold startIndex, senderIndex. cbn [id]. rewrite parseInt_or_decimal.
  rewrite Z.add_0_r. apply Z.rem_small. lia.
Qed.

(** C6. In a pool of [n] senders the jobs numbered 0 to n-1 start their
    rotation at the offsets 0 to n-1, in this order: the index that the
    worker computes from the job id for its first iteration,
    [(parseInt(job.id) || 0) % n], is the number of the job.  So every
    offset below [n] is the start of exactly one of these jobs, no other
    offset is, and the first candidate that the loop examines for job
    [k] is the sender at position [k] of the pool.  A JavaScript array
    holds fewer than 2^32 elements; below that bound the exact
    arithmetic of [startIndex] and [senderIndex] is the arithmetic of
    the code. *)
Theorem rotation_start_visits_each_sender_once (pool : list Sender) (d : JobData) :
  (Z.of_nat (List.length pool) < 2 ^ 32)%Z ->
  let n := List.length pool in
  let numbered := fun jobIndex : nat => {| id := JS.decimal jobIndex; data := d |} in
  map (fun jobIndex => senderIndex (startIndex (numbered jobIndex)) 0 n) (seq 0 n)
  = map Z.of_nat (seq 0 n) /\
  (forall v : nat,
     List.length
       (List.filter
          (fun jobIndex => (senderIndex (startIndex (numbered jobIndex)) 0 n =? Z.of_nat v)%Z)
          (seq 0 n))
     = if (v <? n)%nat then 1 else 0) /\
  forall k : nat,
    (k < n)%nat ->
    pool_at pool (senderIndex (startIndex (numbered k)) 0 n) = nth_error pool k.
Proof.
  intros _. cbn zeta. split; [|split].
  - apply map_ext_in. intros x Hx. apply in_seq in Hx.
    apply numbered_job_start. lia.
  - intros v. rewrite (count_in_seq _ v (List.length pool) 0).
    + done.
    + intros x Hx. apply numbered_job_start. lia.
  - intros k Hk. rewrite numbered_job_start by done. apply pool_at_nat.
Qed.

Lemma or_else_some_self s : JS.or_else (Some s) "" = s.
Proof.
  unfold JS.or_else, JS.truthy. destruct (String.eqb_spec s ""); simpl; congruence.
Qed.

Lemma truthy_nonempty v : v <> "" -> JS.truthy v = true.
Proof. unfold JS.truthy. intros H. by destruct (String.eqb_spec v ""). Qed.

Section RotationFacts.

Variable replaceTags :
  option string -> Recipient -> string -> option string -> option string -> string.
Variable buildEmailHtml : HtmlArgs -> string.
Variable e : Env.
Variable j : Job.

Local Abbreviation compose := (compose replaceTags buildEmailHtml e j).
Local Abbreviation outgoing := (outgoing e j).
Local Abbreviation deliver := (deliver e j).
Local Abbreviation iteration := (iteration replaceTags buildEmailHtml e j).
Local Abbreviation rotate := (rotate replaceTags buildEmailHtml e j).
Local Abbreviation attempt_job := (attempt_job replaceTags buildEmailHtml e j).
Local Abbreviation written := (written e j).
Local Abbreviation fixed_clock := (fixed_clock e).
Local Abbreviation emailWorker := (emailWorker replaceTags buildEmailHtml e j).
Local Abbreviation last_send_paused := (last_send_paused e).

Lemma same_effects_refl w : same_effects w w.
Proof. done. Qed.

Lemma emitLiveLog_same jobId m t w : same_effects w (emitLiveLog jobId m t w).
Proof. done. Qed.

Lemma compose_same cand w l :
  same_effects w (compose cand w l).1.2.
Proof.
  unfold Worker.compose.
  destruct (spin (random e) _ (emailSubject (data j))) as [s1 k1].
  destruct (spin (random e) k1 (emailBody (data j))) as [s2 k2].
  cbn [fst snd].
  destruct (isFirstAttempt _); [destruct (_ <? _)%Z|]; done.
Qed.

Lemma compose_locals cand w l :
  let l' := (compose cand w l).2 in
  success l' = success l /\ lastError l' = lastError l /\
  selectedSender l' = Some cand.
Proof.
  unfold Worker.compose.
  destruct (spin (random e) _ (emailSubject (data j))) as [s1 k1].
  destruct (spin (random e) k1 (emailBody (data j))) as [s2 k2].
  done.
Qed.

Lemma outgoing_world cand subj html pdf w :
  let '(c, m, w') := outgoing cand subj html pdf w in
  c = transportConfig cand /\ mail_from_address m = email cand /\
  now w' = now w /\ outbox w' = outbox w /\
  if String.eqb (job_deliveryMethod j) "attachment"
  then w' = w /\
       mail_attachments m
       = [{| filename := "Invoice_" ++ generateInvoiceId e ++ ".pdf";
             content := pdf; contentType := "application/pdf" |}]
  else Redis.strings (store w')
       = <[invoice_key (generateInvoiceId e)
           := (JS.base64 pdf, (now w + 86400 * 30 * 1000)%Z)]>
           (Redis.strings (store w)) /\
       mail_attachments m = [].
Proof.
  unfold Worker.outgoing.
  destruct (String.eqb (job_deliveryMethod j) "attachment"); simpl; done.
Qed.

Lemma deliver_sent cand i c m w l :
  sendMail e i c m = None ->
  deliver cand i c m w l
  = (Break,
     emitLiveLog (id j) (Telemetry.LogSent (Email (recipient (data j))) (email cand))
       Telemetry.SevSuccess (elapse (handed_over w c m) (send_ms e i)),
     {| success := true; lastError := lastError l;
        selectedSender := selectedSender l; isFirstAttempt := isFirstAttempt l |}).
Proof. intros H. unfold Worker.deliver. by rewrite H. Qed.

Lemma deliver_rate_limited cand i c m w l err :
  sendMail e i c m = Some err -> is_rate_limit (JS.message err) = true ->
  deliver cand i c m w l
  = (Continue,
     with_store
       (emitLiveLog (id j) (Telemetry.LogRateLimited (email cand)) Telemetry.SevError
          (elapse (handed_over w c m) (send_ms e i)))
       (Redis.setex
          (store (emitLiveLog (id j) (Telemetry.LogRateLimited (email cand))
                    Telemetry.SevError (elapse (handed_over w c m) (send_ms e i))))
          (now w + send_ms e i) (paused_key (email cand)) 3600 "true"),
     {| success := success l; lastError := Some err;
        selectedSender := selectedSender l; isFirstAttempt := isFirstAttempt l |}).
Proof.
  intros H Hr. unfold Worker.deliver. rewrite H, or_else_some_self, Hr. done.
Qed.

Lemma deliver_fatal cand i c m w l err :
  sendMail e i c m = Some err -> is_rate_limit (JS.message err) = false ->
  deliver cand i c m w l
  = (Throw err, elapse (handed_over w c m) (send_ms e i),
     {| success := success l; lastError := Some err;
        selectedSender := selectedSender l; isFirstAttempt := isFirstAttempt l |}).
Proof.
  intros H Hr. unfold Worker.deliver. rewrite H, or_else_some_self, Hr. done.
Qed.

(** The loop body on a paused candidate. *)
Lemma iteration_paused pool i w l cand :
  pool_at pool (senderIndex (startIndex j) i (List.length pool)) = Some cand ->
  isPaused w (email cand) = true ->
  iteration pool i w l
  = (Continue,
     (if (i =? List.length pool - 1)%nat && negb (success l)
      then emitLiveLog (id j) (Telemetry.LogSkip (email cand)) Telemetry.SevWarning w
      else w), l).
Proof. intros H1 H2. unfold Worker.iteration. by rewrite H1, H2. Qed.

(** The loop body on a candidate that is not paused and whose document
    renders: it is exactly the send of the composed message. *)
Lemma iteration_attempt pool i w l cand pdf :
  pool_at pool (senderIndex (startIndex j) i (List.length pool)) = Some cand ->
  isPaused w (email cand) = false ->
  renderPdf e i = Rendered pdf ->
  iteration pool i w l
  = let '(subj, html, w1, l1) := compose cand w l in
    let '(c, m, w2) := outgoing cand subj html pdf (elapse w1 (render_ms e i)) in
    deliver cand i c m w2 l1.
Proof.
  intros H1 H2 H3. unfold Worker.iteration. rewrite H1, H2.
  destruct (compose cand w l) as [[[subj html] w1] l1]. by rewrite H3.
Qed.

Lemma rotate_step pool r i w l :
  rotate pool (S r) i w l
  = match iteration pool i w l with
    | (Continue, w', l') => rotate pool r (S i) w' l'
    | stop => stop
    end.
Proof. done. Qed.

Lemma pool_at_nonempty pool idx cand : pool_at pool idx = Some cand -> pool <> [].
Proof.
  unfold pool_at. intros H ->. destruct (idx <? 0)%Z; [done|].
  by destruct (Z.to_nat idx).
Qed.

Lemma emailWorker_thrown pool w0 err w' l' :
  senderPool (data j) = Some pool -> pool <> [] ->
  rotate pool (List.length pool) 0 w0 initial_locals = (Throw err, w', l') ->
  emailWorker w0
  = (Failed err,
     emitLiveLog (JS.or_else (Some (id j)) "N/A")
       (Telemetry.LogJobFailed (JS.message err)) Telemetry.SevError w').
Proof.
  intros Hp Hne Hr. unfold Worker.emailWorker, Worker.attempt_job.
  rewrite Hp. destruct pool as [|s pool]; [done|]. by rewrite Hr.
Qed.

Lemma keys_differ a b : paused_key a <> invoice_key b.
Proof. unfold paused_key, invoice_key. simpl. discriminate. Qed.

Lemma written_refl w k : written w w k.
Proof. by left. Qed.

Lemma written_same w w' k :
  Redis.strings (store w') = Redis.strings (store w) -> written w w' k.
Proof. intros H. left. by rewrite H. Qed.

Lemma written_trans w1 w2 w3 k :
  written w1 w2 k -> written w2 w3 k -> written w1 w3 k.
Proof.
  intros H12 [H23|[H23|H23]].
  - destruct H12 as [H|[(?&?&pdf&t&H)|(s&t&?&H)]].
    + left. congruence.
    + right; left. repeat split; try done. exists pdf, t. congruence.
    + right; right. exists s, t. split; [done|congruence].
  - right; left. done.
  - right; right. done.
Qed.

(** What an attempt on a candidate that is not paused does before the
    send: the candidate is selected, nothing has been handed to the
    transport yet, and the document went either into the message or into
    the store. *)
Lemma iteration_prepared pool i w l cand pdf :
  pool_at pool (senderIndex (startIndex j) i (List.length pool)) = Some cand ->
  isPaused w (email cand) = false ->
  renderPdf e i = Rendered pdf ->
  exists m w2 l1,
    iteration pool i w l = deliver cand i (transportConfig cand) m w2 l1 /\
    mail_from_address m = email cand /\
    outbox w2 = outbox w /\ now w2 = (now w + render_ms e i)%Z /\
    success l1 = success l /\ lastError l1 = lastError l /\
    selectedSender l1 = Some cand /\
    if String.eqb (job_deliveryMethod j) "attachment"
    then Redis.strings (store w2) = Redis.strings (store w) /\
         mail_attachments m
         = [{| filename := "Invoice_" ++ generateInvoiceId e ++ ".pdf";
               content := pdf; contentType := "application/pdf" |}]
    else Redis.strings (store w2)
         = <[invoice_key (generateInvoiceId e)
             := (JS.base64 pdf, (now w + render_ms e i + 86400 * 30 * 1000)%Z)]>
             (Redis.strings (store w)) /\
         mail_attachments m = [].
Proof.
  intros Hc Hp Hr.
  pose proof (iteration_attempt pool i w l cand pdf Hc Hp Hr) as Hit.
  pose proof (compose_same cand w l) as (Hs1 & Hn1 & Hb1).
  pose proof (compose_locals cand w l) as (Hl1 & Hl2 & Hl3).
  destruct (compose cand w l) as [[[subj html] w1] l1]. cbn [fst snd] in *.
  pose proof (outgoing_world cand subj html pdf (elapse w1 (render_ms e i))) as Hout.
  destruct (outgoing cand subj html pdf (elapse w1 (render_ms e i))) as [[c m] w2].
  destruct Hout as (-> & Hfrom & Hnow & Hbox & Hmode).
  exists m, w2, l1. split; [done|]. split; [done|].
  split; [by rewrite Hbox|]. split; [rewrite Hnow; simpl; by rewrite Hn1|].
  do 3 (split; [done|]).
  destruct (String.eqb (job_deliveryMethod j) "attachment").
  - destruct Hmode as [-> ?]. done.
  - destruct Hmode as [-> ?]. simpl. by rewrite Hs1, Hn1.
Qed.

(** The three ways a send ends. *)
Lemma deliver_cases cand i c m w l :
  (sendMail e i c m = None /\
   exists w' l', deliver cand i c m w l = (Break, w', l') /\ success l' = true /\
     Redis.strings (store w') = Redis.strings (store w) /\
     outbox w' = (outbox w ++ [(c, m)])%list /\
     now w' = (now w + send_ms e i)%Z)
  \/ (exists err, sendMail e i c m = Some err /\
      is_rate_limit (JS.message err) = true /\
      exists w' l', deliver cand i c m w l = (Continue, w', l') /\
        success l' = success l /\ lastError l' = Some err /\
        now w' = (now w + send_ms e i)%Z /\
        outbox w' = (outbox w ++ [(c, m)])%list /\
        Redis.strings (store w')
        = <[paused_key (email cand) := ("true", (now w' + 3600 * 1000)%Z)]>
            (Redis.strings (store w)))
  \/ (exists err, sendMail e i c m = Some err /\
      is_rate_limit (JS.message err) = false /\
      exists w' l', deliver cand i c m w l = (Throw err, w', l') /\
        lastError l' = Some err /\
        Redis.strings (store w') = Redis.strings (store w) /\
        outbox w' = (outbox w ++ [(c, m)])%list /\
        now w' = (now w + send_ms e i)%Z).
Proof.
  destruct (sendMail e i c m) as [err|] eqn:Hs.
  - destruct (is_rate_limit (JS.message err)) eqn:Hrl.
    + right; left. exists err. split; [done|]. split; [done|].
      rewrite (deliver_rate_limited cand i c m w l err Hs Hrl).
      eexists _, _. split; [done|]. simpl. done.
    + right; right. exists err. split; [done|]. split; [done|].
      rewrite (deliver_fatal cand i c m w l err Hs Hrl).
      eexists _, _. split; [done|]. simpl. done.
  - left. split; [done|]. rewrite (deliver_sent cand i c m w l Hs).
    eexists _, _. split; [done|]. simpl. done.
Qed.

(** Every way the loop body can end. *)
Lemma iteration_cases pool i w l :
  (pool_at pool (senderIndex (startIndex j) i (List.length pool)) = None /\
   iteration pool i w l = (Throw undefined_email_error, w, l))
  \/ (exists cand w',
      pool_at pool (senderIndex (startIndex j) i (List.length pool)) = Some cand /\
      isPaused w (email cand) = true /\
      iteration pool i w l = (Continue, w', l) /\ same_effects w w')
  \/ (exists cand cause w' l',
      pool_at pool (senderIndex (startIndex j) i (List.length pool)) = Some cand /\
      isPaused w (email cand) = false /\
      renderPdf e i = RenderFailed cause /\
      iteration pool i w l = (Throw (render_error cause), w', l') /\
      Redis.strings (store w') = Redis.strings (store w) /\
      outbox w' = outbox w /\
      now w' = (now w + render_ms e i)%Z)
  \/ (exists cand pdf,
      pool_at pool (senderIndex (startIndex j) i (List.length pool)) = Some cand /\
      isPaused w (email cand) = false /\
      renderPdf e i = Rendered pdf).
Proof.
  destruct (pool_at pool (senderIndex (startIndex j) i (List.length pool))) as [cand|] eqn:Hc.
  - destruct (isPaused w (email cand)) eqn:Hp.
    + right; left. eexists cand, _. do 2 (split; [done|]).
      split; [by apply iteration_paused|].
      destruct (_ && _); [apply emitLiveLog_same | apply same_effects_refl].
    + destruct (renderPdf e i) as [pdf|cause] eqn:Hr.
      * right; right; right. by exists cand, pdf.
      * right; right; left. unfold Worker.iteration. rewrite Hc, Hp.
        pose proof (compose_same cand w l) as (Hs1 & Hn1 & Hb1).
        destruct (compose cand w l) as [[[subj html] w1] l1]. cbn [fst snd] in *.
        rewrite Hr. eexists cand, cause, _, _. do 4 (split; [done|]). simpl.
        by rewrite Hn1.
  - left. split; [done|]. unfold Worker.iteration. by rewrite Hc.
Qed.

Lemma iteration_written pool i w l c w' l' k :
  iteration pool i w l = (c, w', l') -> written w w' k.
Proof.
  intros Hit.
  destruct (iteration_cases pool i w l)
    as [(_ & H)|[(cand & w1 & _ & _ & H & Hs & _)|[(cand & cause & w1 & l1 & _ & _ & _ & H & Hs & _)
       |(cand & pdf & Hc & Hp & Hr)]]].
  - rewrite H in Hit. injection Hit as _ <- _. apply written_refl.
  - rewrite H in Hit. injection Hit as _ <- _. by apply written_same.
  - rewrite H in Hit. injection Hit as _ <- _. by apply written_same.
  - destruct (iteration_prepared pool i w l cand pdf Hc Hp Hr)
      as (m & w2 & l1 & Hd & _ & _ & _ & _ & _ & _ & Hmode).
    rewrite Hd in Hit.
    apply (written_trans w w2 w').
    + destruct (String.eqb (job_deliveryMethod j) "attachment") eqn:Hm.
      * destruct Hmode as [Hs _]. by apply written_same.
      * destruct Hmode as [Hs _].
        destruct (decide (k = invoice_key (generateInvoiceId e))) as [->|Hne].
        -- right; left. do 2 (split; [done|]). eexists _, _.
           rewrite Hs, lookup_insert_eq. done.
        -- left. rewrite Hs. by rewrite lookup_insert_ne.
    + destruct (deliver_cases cand i (transportConfig cand) m w2 l1)
        as [(_ & w3 & l3 & H & _ & Hs & _)|[(err & _ & _ & w3 & l3 & H & _ & _ & _ & _ & Hs)
           |(err & _ & _ & w3 & l3 & H & _ & Hs & _)]];
        rewrite H in Hit; injection Hit as _ <- _.
      * by apply written_same.
      * destruct (decide (k = paused_key (email cand))) as [->|Hne].
        -- right; right. eexists cand, _. split; [done|].
           rewrite Hs, lookup_insert_eq. done.
        -- left. rewrite Hs. by rewrite lookup_insert_ne.
      * by apply written_same.
Qed.

Lemma rotate_written pool : forall remaining i w l c w' l' k,
  rotate pool remaining i w l = (c, w', l') -> written w w' k.
Proof.
  induction remaining as [|r IH]; intros i w l c w' l' k H.
  - injection H as _ <- _. apply written_refl.
  - rewrite rotate_step in H.
    destruct (iteration pool i w l) as [[c1 w1] l1] eqn:Hit.
    pose proof (iteration_written pool i w l c1 w1 l1 k Hit) as H1.
    destruct c1.
    + apply (written_trans w w1 w'); [done|]. by apply (IH (S i) w1 l1 c w' l').
    + by injection H as _ <- _.
    + by injection H as _ <- _.
Qed.

Lemma throttle_same w : Redis.strings (store (throttle e j w)) = Redis.strings (store w).
Proof. unfold throttle. by destruct (existsb _ _). Qed.

Lemma emailWorker_written w k : written w (emailWorker w).2 k.
Proof.
  unfold Worker.emailWorker, Worker.attempt_job.
  destruct (senderPool (data j)) as [[|s pool]|]; try by apply written_same.
  destruct (rotate (s :: pool) (List.length (s :: pool)) 0 w initial_locals)
    as [[c w'] l'] eqn:Hr.
  pose proof (rotate_written _ _ _ _ _ _ _ _ k Hr) as Hw.
  assert (forall w1 w2, Redis.strings (store w2) = Redis.strings (store w1) ->
                        written w w1 k -> written w w2 k) as Hext.
  { intros w1 w2 E H1. apply (written_trans w w1 w2); [done|by apply written_same]. }
  destruct c.
  - destruct (negb (success l')); [destruct (lastError l')|destruct (selectedSender l')];
      simpl; try (eapply Hext; [|exact Hw]; simpl; try done; by rewrite throttle_same).
  - destruct (negb (success l')); [destruct (lastError l')|destruct (selectedSender l')];
      simpl; try (eapply Hext; [|exact Hw]; simpl; try done; by rewrite throttle_same).
  - simpl. eapply Hext; [|exact Hw]. done.
Qed.

Lemma iteration_no_success w0 pool i w l w' l' :
  iteration pool i w l = (Continue, w', l') ->
  no_success_yet w0 w l -> no_success_yet w0 w' l'.
Proof.
  intros Hit (Hs & Hnone & Hsome).
  destruct (iteration_cases pool i w l)
    as [(_ & H)|[(cand & w1 & _ & _ & H & Hsame)|[(cand & cause & w1 & l1 & _ & _ & _ & H & _)
       |(cand & pdf & Hc & Hp & Hr)]]]; try (rewrite H in Hit; done).
  - rewrite H in Hit. injection Hit as <- <-.
    destruct Hsame as (E1 & E2 & E3). split; [done|]. split.
    + intros Hn. rewrite E3. auto.
    + intros err He. destruct (Hsome err He) as (Hrl & s & m & t & Hin & Hf & Hk).
      split; [done|]. exists s, m, t. by rewrite E3, E1.
  - destruct (iteration_prepared pool i w l cand pdf Hc Hp Hr)
      as (m & w2 & l1 & Hd & Hfrom & Hbox & _ & Hs1 & _ & _ & _).
    rewrite Hd in Hit.
    destruct (deliver_cases cand i (transportConfig cand) m w2 l1)
      as [(_ & w3 & l3 & H & _)|[(err & _ & Hrl & w3 & l3 & H & Hs3 & Hl3 & _ & Hb3 & Hst)
         |(err & _ & _ & w3 & l3 & H & _)]];
      rewrite H in Hit; try done.
    injection Hit as <- <-. split; [congruence|]. split; [congruence|].
    intros err' He. rewrite Hl3 in He. injection He as <-. split; [done|].
    exists cand, m, (now w3). split; [|split; [done|]].
    + rewrite Hb3. apply in_or_app. right. by left.
    + rewrite Hst. by rewrite lookup_insert_eq.
Qed.

Lemma rotate_no_success w0 pool : forall remaining i w l w' l',
  rotate pool remaining i w l = (Continue, w', l') ->
  no_success_yet w0 w l -> no_success_yet w0 w' l'.
Proof.
  induction remaining as [|r IH]; intros i w l w' l' H Hinv.
  - by injection H as <- <-.
  - rewrite rotate_step in H.
    destruct (iteration pool i w l) as [[c1 w1] l1] eqn:Hit.
    destruct c1; try done.
    apply (IH (S i) w1 l1 w' l' H). by apply (iteration_no_success w0 pool i w l).
Qed.

Lemma isPaused_same w w' a :
  Redis.strings (store w') !! paused_key a = Redis.strings (store w) !! paused_key a ->
  now w' = now w -> isPaused w' a = isPaused w a.
Proof. intros H1 H2. unfold isPaused, Redis.get. by rewrite H1, H2. Qed.

(** Under a fixed clock one iteration keeps a set pause flag set and
    hands nothing to the transport in the name of its sender. *)
Lemma iteration_keeps_pause pool i w l c w' l' a :
  fixed_clock -> isPaused w a = true ->
  iteration pool i w l = (c, w', l') ->
  isPaused w' a = true /\ no_mail_from a w w'.
Proof.
  intros Hclock Ha Hit. destruct (Hclock i) as [Hrender Hsend].
  destruct (iteration_cases pool i w l)
    as [(_ & H)|[(cand & w1 & _ & _ & H & Hs & Hn & Hb)
       |[(cand & cause & w1 & l1 & _ & _ & _ & H & Hs & Hb & Hn)
       |(cand & pdf & Hc & Hp & Hr)]]].
  - rewrite H in Hit. injection Hit as _ <- _. split; [done|]. intros ???. by left.
  - rewrite H in Hit. injection Hit as _ <- _. split.
    + rewrite <- Ha. apply isPaused_same; [by rewrite Hs|done].
    + intros ?? Hin. left. by rewrite <- Hb.
  - rewrite H in Hit. injection Hit as _ <- _. split.
    + rewrite <- Ha. apply isPaused_same; [by rewrite Hs|lia].
    + intros ?? Hin. left. by rewrite <- Hb.
  - assert (email cand <> a) as Hne by (intros <-; congruence).
    destruct (iteration_prepared pool i w l cand pdf Hc Hp Hr)
      as (m & w2 & l1 & Hd & Hfrom & Hbox & Hnow & _ & _ & _ & Hmode).
    rewrite Hd in Hit.
    assert (isPaused w2 a = true) as Ha2.
    { rewrite <- Ha. apply isPaused_same; [|lia].
      destruct (String.eqb (job_deliveryMethod j) "attachment");
        destruct Hmode as [-> _]; [done|].
      rewrite lookup_insert_ne; [done|]. intros E. symmetry in E.
      by apply keys_differ in E. }
    assert (forall w3, outbox w3 = (outbox w2 ++ [(transportConfig cand, m)])%list ->
                       no_mail_from a w w3) as Hmail.
    { intros w3 E c0 m0 Hin. rewrite E, Hbox in Hin.
      apply in_app_or in Hin as [Hin|[Hin|[]]]; [by left|].
      injection Hin as <- <-. right. congruence. }
    destruct (deliver_cases cand i (transportConfig cand) m w2 l1)
      as [(_ & w3 & l3 & H & _ & Hst & Hb & Hn)
         |[(err & _ & _ & w3 & l3 & H & _ & _ & Hn & Hb & Hst)
          |(err & _ & _ & w3 & l3 & H & _ & Hst & Hb & Hn)]];
      rewrite H in Hit; injection Hit as _ <- _; (split; [|by apply Hmail]).
    + rewrite <- Ha2. apply isPaused_same; [by rewrite Hst|lia].
    + rewrite <- Ha2. apply isPaused_same; [|lia].
      rewrite Hst, lookup_insert_ne; [done|].
      unfold paused_key. intros E. apply Hne. by simplify_eq.
    + rewrite <- Ha2. apply isPaused_same; [by rewrite Hst|lia].
Qed.

Lemma rotate_keeps_pause pool a : forall remaining i w l c w' l',
  fixed_clock -> isPaused w a = true ->
  rotate pool remaining i w l = (c, w', l') ->
  isPaused w' a = true /\ no_mail_from a w w'.
Proof.
  induction remaining as [|r IH]; intros i w l c w' l' Hclock Ha H.
  - injection H as _ <- _. split; [done|]. intros ???. by left.
  - rewrite rotate_step in H.
    destruct (iteration pool i w l) as [[c1 w1] l1] eqn:Hit.
    destruct (iteration_keeps_pause pool i w l c1 w1 l1 a Hclock Ha Hit) as [Ha1 Hm1].
    destruct c1; try (by injection H as _ <- _).
    destruct (IH (S i) w1 l1 c w' l' Hclock Ha1 H) as [Ha' Hm'].
    split; [done|]. intros c0 m0 Hin.
    destruct (Hm' c0 m0 Hin) as [Hin1|?]; [by apply Hm1|by right].
Qed.

(** Given a fixed clock, a sender whose pause flag is set when a job
    starts receives no send attempt from that job. *)
Lemma paused_sender_gets_no_mail w a :
  fixed_clock -> isPaused w a = true -> no_mail_from a w (emailWorker w).2.
Proof.
  intros Hclock Ha. unfold Worker.emailWorker, Worker.attempt_job.
  destruct (senderPool (data j)) as [[|s pool]|]; try (intros ???; by left).
  destruct (rotate (s :: pool) (List.length (s :: pool)) 0 w initial_locals)
    as [[c w'] l'] eqn:Hr.
  destruct (rotate_keeps_pause _ a _ _ _ _ _ _ _ Hclock Ha Hr) as [_ Hm].
  assert (forall w2, outbox w2 = outbox w' -> no_mail_from a w w2) as Hext.
  { intros w2 E c0 m0 Hin. rewrite E in Hin. by apply Hm. }
  assert (forall w1, outbox (throttle e j w1) = outbox w1) as Hth.
  { intros w1. unfold throttle. by destruct (existsb _ _). }
  destruct c;
    [destruct (negb (success l')); [destruct (lastError l')|destruct (selectedSender l')]
    |destruct (negb (success l')); [destruct (lastError l')|destruct (selectedSender l')]
    |]; apply Hext; simpl; by rewrite ?Hth.
Qed.

Lemma get_fresh_flag w k v :
  Redis.strings (store w) !! k = Some (v, (now w + 3600 * 1000)%Z) ->
  Redis.get (store w) (now w) k = Some v.
Proof.
  intros H. unfold Redis.get. rewrite H.
  destruct (Z.ltb_spec (now w) (now w + 3600 * 1000)); [done|lia].
Qed.

(** C1. A candidate whose pause flag is set in the shared store when the
    rotation loop examines it is not selected: the iteration hands
    nothing to the transport, leaves the selected sender and the store
    as they were, and the loop goes on with the next index of the
    rotation.  Given a fixed clock, the rest of the loop hands nothing to
    the transport in that sender's name either. *)
Theorem paused_sender_is_skipped pool r i w l cand v :
  pool_at pool (senderIndex (startIndex j) i (List.length pool)) = Some cand ->
  Redis.get (store w) (now w) (paused_key (email cand)) = Some v ->
  v <> "" ->
  exists w',
    iteration pool i w l = (Continue, w', l) /\
    same_effects w w' /\
    rotate pool (S r) i w l = rotate pool r (S i) w' l /\
    (fixed_clock -> no_mail_from (email cand) w (rotate pool (S r) i w l).1.2).
Proof.
  intros Hc Hg Hv.
  assert (isPaused w (email cand) = true) as Hp.
  { unfold isPaused. rewrite Hg. by apply truthy_nonempty. }
  eexists. split; [by apply iteration_paused|]. split; [|split].
  - destruct (_ && _); [apply emitLiveLog_same | apply same_effects_refl].
  - rewrite rotate_step, (iteration_paused _ _ _ _ _ Hc Hp). done.
  - intros Hclock.
    destruct (rotate pool (S r) i w l) as [[c w''] l''] eqn:Hrot.
    by destruct (rotate_keeps_pause pool (email cand) _ _ _ _ _ _ _ Hclock Hp Hrot).
Qed.

(** The keyword test of the [catch] branch, keyword by keyword. *)
Lemma is_rate_limit_keywords (msg : string) :
  is_rate_limit msg = true <->
  exists keyword,
    In keyword ["Rate Limit"; "421"; "450"; "452"; "550 5.4.5"; "quota"; "BadCredentials"] /\
    JS.includes msg keyword = true.
Proof.
  unfold is_rate_limit. rewrite !orb_true_iff. split.
  - intros [[[[[[H|H]|H]|H]|H]|H]|H]; eexists; (split; [|exact H]); simpl; tauto.
  - intros (kw & Hin & H). simpl in Hin.
    destruct Hin as [<-|[<-|[<-|[<-|[<-|[<-|[<-|[]]]]]]]]; tauto.
Qed.

(** C2. A send that fails with an error whose text holds one of the
    keywords [Rate Limit], [421], [450], [452], [550 5.4.5], [quota] or
    [BadCredentials] (the rate-limit, greylist, quota and bad-credential
    signatures) pauses the selected sender for 3600 seconds, counted from
    the failed send, and the loop goes on with the next candidate.  An
    error whose text holds none of them leaves the loop at once, and the
    job fails with that very error, nothing further being handed to the
    transport.  Either way the error is recorded as the last error and
    the message was handed to the transport once. *)
Theorem transport_error_classification pool r i w l cand pdf err :
  pool_at pool (senderIndex (startIndex j) i (List.length pool)) = Some cand ->
  isPaused w (email cand) = false ->
  renderPdf e i = Rendered pdf ->
  (forall c m, sendMail e i c m = Some err) ->
  let signature :=
    exists keyword,
      In keyword ["Rate Limit"; "421"; "450"; "452"; "550 5.4.5"; "quota"; "BadCredentials"] /\
      JS.includes (JS.message err) keyword = true in
  exists w' l' m,
    lastError l' = Some err /\
    outbox w' = (outbox w ++ [(transportConfig cand, m)])%list /\
    mail_from_address m = email cand /\
    (signature ->
     iteration pool i w l = (Continue, w', l') /\
     Redis.strings (store w') !! paused_key (email cand)
       = Some ("true", (now w' + 3600 * 1000)%Z) /\
     (forall T, Redis.get (store w') T (paused_key (email cand))
                = if (T <? now w' + 3600 * 1000)%Z then Some "true" else None) /\
     isPaused w' (email cand) = true /\
     rotate pool (S r) i w l = rotate pool r (S i) w' l') /\
    (~ signature ->
     iteration pool i w l = (Throw err, w', l') /\
     rotate pool (S r) i w l = (Throw err, w', l') /\
     (forall a, Redis.strings (store w') !! paused_key a
                = Redis.strings (store w) !! paused_key a) /\
     forall w0,
       senderPool (data j) = Some pool ->
       rotate pool (List.length pool) 0 w0 initial_locals
         = rotate pool (S r) i w l ->
       emailWorker w0
       = (Failed err,
          emitLiveLog (JS.or_else (Some (id j)) "N/A")
            (Telemetry.LogJobFailed (JS.message err)) Telemetry.SevError w') /\
       outbox (emailWorker w0).2 = (outbox w ++ [(transportConfig cand, m)])%list).
Proof.
  intros Hc Hp Hr Hs. cbn zeta.
  destruct (iteration_prepared pool i w l cand pdf Hc Hp Hr)
    as (m & w2 & l1 & Hd & Hfrom & Hbox & _ & _ & _ & _ & Hmode).
  assert (forall a, Redis.strings (store w2) !! paused_key a
                    = Redis.strings (store w) !! paused_key a) as Hkeep.
  { intros a. destruct (String.eqb (job_deliveryMethod j) "attachment");
      destruct Hmode as [-> _]; [done|].
    rewrite lookup_insert_ne; [done|]. intros E. symmetry in E. by apply keys_differ in E. }
  destruct (deliver_cases cand i (transportConfig cand) m w2 l1)
    as [(Hnone & _)|[(err' & Hsome & Hrl & w3 & l3 & H & _ & Hl3 & _ & Hb3 & Hst)
       |(err' & Hsome & Hrl & w3 & l3 & H & Hl3 & Hst & Hb3 & _)]];
    rewrite Hs in *; try done; injection Hsome as <-;
    exists w3, l3, m; rewrite Hd, H, Hb3, Hbox; do 3 (split; [done|]).
  - split; [|intros Hno; exfalso; apply Hno; by apply is_rate_limit_keywords].
    intros _.
    assert (Redis.strings (store w3) !! paused_key (email cand)
            = Some ("true", (now w3 + 3600 * 1000)%Z)) as Hk
      by (by rewrite Hst, lookup_insert_eq).
    split; [done|]. split; [done|]. split; [|split].
    + intros T. unfold Redis.get. by rewrite Hk.
    + unfold isPaused, Redis.get. rewrite Hk.
      destruct (Z.ltb_spec (now w3) (now w3 + 3600 * 1000)); [done|lia].
    + by rewrite rotate_step, Hd, H.
  - split.
    { intros Hsig. apply is_rate_limit_keywords in Hsig. congruence. }
    intros _. split; [done|]. split; [by rewrite rotate_step, Hd, H|].
    split; [intros a; by rewrite Hst|].
    intros w0 Hpool Hreach. rewrite rotate_step, Hd, H in Hreach.
    rewrite (emailWorker_thrown pool w0 err _ _ Hpool (pool_at_nonempty _ _ _ Hc) Hreach).
    split; [done|]. simpl. by rewrite Hb3, Hbox.
Qed.

Lemma emailWorker_fell_through pool w w' l' :
  senderPool (data j) = Some pool -> pool <> [] ->
  rotate pool (List.length pool) 0 w initial_locals = (Continue, w', l') ->
  success l' = false ->
  emailWorker w
  = (Failed (default all_paused_error (lastError l')),
     emitLiveLog (JS.or_else (Some (id j)) "N/A")
       (Telemetry.LogJobFailed (JS.message (default all_paused_error (lastError l'))))
       Telemetry.SevError w').
Proof.
  intros Hp Hne Hr Hs. unfold Worker.emailWorker, Worker.attempt_job.
  rewrite Hp. destruct pool as [|s pool]; [done|]. rewrite Hr, Hs. simpl.
  by destruct (lastError l').
Qed.

Lemma pool_at_sole s start : pool_at [s] (senderIndex start 0 1) = Some s.
Proof.
  unfold senderIndex, pool_at. change (Z.of_nat 1) with 1%Z.
  rewrite Z.rem_1_r. done.
Qed.

Lemma iteration_last_send w0 pool i w l w' l' :
  iteration pool i w l = (Continue, w', l') ->
  last_send_paused pool w0 w l -> last_send_paused pool w0 w' l'.
Proof.
  intros Hit (Hs & Hlast).
  destruct (iteration_cases pool i w l)
    as [(_ & H)|[(cand & w1 & _ & _ & H & (E1 & E2 & E3))
       |[(cand & cause & w1 & l1 & _ & _ & _ & H & _)
       |(cand & pdf & Hc & Hp & Hr)]]]; try congruence.
  - rewrite H in Hit. injection Hit as <- <-. split; [done|].
    destruct (lastError l) as [err|]; [|congruence].
    destruct Hlast as (Hrl & s & m & k & earlier & Hin & Hbox & Hfrom & Hsend & Hflag).
    split; [done|]. exists s, m, k, earlier. rewrite E1, E2, E3. done.
  - destruct (iteration_prepared pool i w l cand pdf Hc Hp Hr)
      as (m & w2 & l1 & Hd & Hfrom & Hbox & _ & Hs1 & _).
    rewrite Hd in Hit.
    destruct (deliver_cases cand i (transportConfig cand) m w2 l1)
      as [(_ & w3 & l3 & H & _)
         |[(err & Hsome & Hrl & w3 & l3 & H & Hs3 & Hl3 & _ & Hb3 & Hst)
          |(err & _ & _ & w3 & l3 & H & _)]];
      rewrite H in Hit; try done.
    injection Hit as <- <-. split; [by rewrite Hs3, Hs1|]. rewrite Hl3.
    split; [done|].
    assert (exists earlier, outbox w = (outbox w0 ++ earlier)%list) as (earlier & Hw).
    { destruct (lastError l) as [err0|].
      - destruct Hlast as (_ & s & m0 & k & earlier & _ & Hw & _).
        exists (earlier ++ [(transportConfig s, m0)])%list. done.
      - exists []. by rewrite app_nil_r. }
    exists cand, m, i, earlier. split.
    { unfold pool_at in Hc. destruct (_ <? _)%Z; [done|]. by apply nth_error_In in Hc. }
    split; [by rewrite Hb3, Hbox, Hw, app_assoc|]. do 2 (split; [done|]).
    by rewrite Hst, lookup_insert_eq.
Qed.

Lemma rotate_last_send w0 pool : forall remaining i w l w' l',
  rotate pool remaining i w l = (Continue, w', l') ->
  last_send_paused pool w0 w l -> last_send_paused pool w0 w' l'.
Proof.
  induction remaining as [|r IH]; intros i w l w' l' H Hinv.
  - by injection H as <- <-.
  - rewrite rotate_step in H.
    destruct (iteration pool i w l) as [[c1 w1] l1] eqn:Hit.
    destruct c1; [|done|done].
    apply (IH (S i) w1 l1 w' l' H). by apply (iteration_last_send w0 pool i w l).
Qed.

(** C3, as the code has it.  A rotation that ends without a successful
    send fails the job.  When no send was attempted, because every
    candidate was found paused, the reason is the distinct error "All
    SMTP sender accounts are paused".  When a send was attempted, the
    reason is the last transport error, which holds one of the
    rate-limit keywords; the sender that produced it is a sender of the
    pool, its message is the last one that the job handed to the
    transport, and at the end of the job it holds a pause flag that
    expires 3600 seconds after that send.  In particular a sole sender
    that answers every send with such an error fails the job with that
    error, and its pause flag is set. *)
Theorem rotation_without_success_fails pool w :
  senderPool (data j) = Some pool ->
  pool <> [] ->
  let signature := fun msg : string =>
    exists keyword,
      In keyword ["Rate Limit"; "421"; "450"; "452"; "550 5.4.5"; "quota"; "BadCredentials"] /\
      JS.includes msg keyword = true in
  (forall w' l',
     rotate pool (List.length pool) 0 w initial_locals = (Continue, w', l') ->
     exists reason,
       emailWorker w
       = (Failed reason,
          emitLiveLog (JS.or_else (Some (id j)) "N/A")
            (Telemetry.LogJobFailed (JS.message reason)) Telemetry.SevError w') /\
       ((lastError l' = None /\ reason = all_paused_error /\
         outbox (emailWorker w).2 = outbox w)
        \/ (lastError l' = Some reason /\
            signature (JS.message reason) /\
            exists s m i earlier,
              In s pool /\
              outbox (emailWorker w).2
              = (outbox w ++ earlier ++ [(transportConfig s, m)])%list /\
              mail_from_address m = email s /\
              sendMail e i (transportConfig s) m = Some reason /\
              Redis.strings (store (emailWorker w).2) !! paused_key (email s)
              = Some ("true", (now (emailWorker w).2 + 3600 * 1000)%Z) /\
              isPaused (emailWorker w).2 (email s) = true)))
  /\
  (forall s pdf err,
     pool = [s] ->
     isPaused w (email s) = false ->
     renderPdf e 0 = Rendered pdf ->
     (forall c m, sendMail e 0 c m = Some err) ->
     signature (JS.message err) ->
     exists w',
       emailWorker w = (Failed err, w') /\
       Redis.get (store w') (now w') (paused_key (email s)) = Some "true").
Proof.
  intros Hpool Hne. cbn zeta. split.
  - intros w' l' Hr.
    assert (last_send_paused pool w w initial_locals) as Hinit by done.
    destruct (rotate_last_send w pool _ _ _ _ _ _ Hr Hinit) as (Hs & Hlast).
    exists (default all_paused_error (lastError l')).
    rewrite (emailWorker_fell_through pool w w' l' Hpool Hne Hr Hs).
    split; [done|]. cbn [snd].
    destruct (lastError l') as [err|] eqn:He; cbn [default from_option id].
    + right. destruct Hlast as (Hrl & s & m & i & earlier & Hin & Hbox & Hfrom & Hsend & Hflag).
      split; [done|]. split; [by apply is_rate_limit_keywords|].
      exists s, m, i, earlier. do 4 (split; [done|]). split; [exact Hflag|].
      unfold isPaused, Redis.get. cbn [store now emitLiveLog with_draws with_store].
      change (Redis.strings (Redis.rpush_trim (store w') _)) with (Redis.strings (store w')).
      rewrite Hflag.
      destruct (Z.ltb_spec (now w') (now w' + 3600 * 1000)); [done|lia].
    + left. auto.
  - intros s pdf err -> Hp Hr Hs Hrl. apply is_rate_limit_keywords in Hrl.
    pose proof (pool_at_sole s (startIndex j)) as Hc.
    destruct (iteration_prepared [s] 0 w initial_locals s pdf Hc Hp Hr)
      as (m & w2 & l1 & Hd & _ & _ & _ & Hs1 & _).
    destruct (deliver_cases s 0 (transportConfig s) m w2 l1)
      as [(Hnone & _)|[(err' & Hsome & _ & w3 & l3 & H & Hs3 & Hl3 & _ & _ & Hst)
         |(err' & Hsome & Hrl' & _)]];
      rewrite Hs in *; try done; injection Hsome as <-; [|congruence].
    assert (rotate [s] (List.length [s]) 0 w initial_locals = (Continue, w3, l3)) as Hrot.
    { change (List.length [s]) with 1. by rewrite rotate_step, Hd, H. }
    rewrite (emailWorker_fell_through [s] w w3 l3 Hpool Hne Hrot)
      by (by rewrite Hs3, Hs1).
    rewrite Hl3. simpl. eexists. split; [done|].
    unfold Redis.get. simpl. rewrite Hst, lookup_insert_eq.
    destruct (Z.ltb_spec (now w3) (now w3 + 3600 * 1000)); [done|lia].
Qed.

(** C9, as the code has it.  On every attempt whose document renders,
    the document goes one of two ways before the send and whatever the
    send answers: in attachment mode it is attached to the message handed
    to the transport and no [invoice_pdf:] key changes; in any other mode
    (link) the message has no attachment and the base64 text of the
    document is stored under [invoice_pdf:<invoice number>] with an
    expiry 30 days after the rendering.  A job in attachment mode leaves
    every [invoice_pdf:] key as it found it. *)
Theorem document_persistence pool i w l cand pdf :
  pool_at pool (senderIndex (startIndex j) i (List.length pool)) = Some cand ->
  isPaused w (email cand) = false ->
  renderPdf e i = Rendered pdf ->
  (exists c w' l' m,
     iteration pool i w l = (c, w', l') /\
     outbox w' = (outbox w ++ [(transportConfig cand, m)])%list /\
     if String.eqb (job_deliveryMethod j) "attachment" then
       mail_attachments m
       = [{| filename := "Invoice_" ++ generateInvoiceId e ++ ".pdf";
             content := pdf; contentType := "application/pdf" |}] /\
       forall n, Redis.strings (store w') !! invoice_key n
                 = Redis.strings (store w) !! invoice_key n
     else
       mail_attachments m = [] /\
       Redis.strings (store w') !! invoice_key (generateInvoiceId e)
       = Some (JS.base64 pdf,
               (now w + render_ms e i + 86400 * 30 * 1000)%Z))
  /\
  (String.eqb (job_deliveryMethod j) "attachment" = true ->
   forall w0 n,
     Redis.strings (store (emailWorker w0).2) !! invoice_key n
     = Redis.strings (store w0) !! invoice_key n).
Proof.
  intros Hc Hp Hr. split.
  - destruct (iteration_prepared pool i w l cand pdf Hc Hp Hr)
      as (m & w2 & l1 & Hd & _ & Hbox & _ & _ & _ & _ & Hmode).
    assert (exists c w' l',
              deliver cand i (transportConfig cand) m w2 l1 = (c, w', l') /\
              outbox w' = (outbox w2 ++ [(transportConfig cand, m)])%list /\
              forall n, Redis.strings (store w') !! invoice_key n
                        = Redis.strings (store w2) !! invoice_key n)
      as (c & w' & l' & H & Hb & Hk).
    { destruct (deliver_cases cand i (transportConfig cand) m w2 l1)
        as [(_ & w3 & l3 & H & _ & Hst & Hb & _)|[(err & _ & _ & w3 & l3 & H & _ & _ & _ & Hb & Hst)
           |(err & _ & _ & w3 & l3 & H & _ & Hst & Hb & _)]];
        eexists _, w3, l3; (split; [exact H|]); (split; [exact Hb|]); intros n;
        rewrite Hst; [done| |done].
      rewrite lookup_insert_ne; [done|]. apply keys_differ. }
    exists c, w', l', m. rewrite Hd. split; [done|]. split; [by rewrite Hb, Hbox|].
    destruct (String.eqb (job_deliveryMethod j) "attachment").
    + destruct Hmode as [Hst Hat]. split; [done|]. intros n. by rewrite Hk, Hst.
    + destruct Hmode as [Hst Hat]. split; [done|].
      by rewrite Hk, Hst, lookup_insert_eq.
  - intros Hm w0 n.
    destruct (emailWorker_written w0 (invoice_key n)) as [E|[(_ & E & _)|(s & t & E & _)]].
    + done.
    + congruence.
    + symmetry in E. by apply keys_differ in E.
Qed.

End RotationFacts.

Import Examples.

Lemma rotation_start_visits_each_sender_once_witness :
  let n := List.length [alice; bob] in
  let numbered := fun jobIndex : nat =>
    {| id := JS.decimal jobIndex; data := data (sample_job "0" [alice; bob] None) |} in
  map (fun jobIndex => senderIndex (startIndex (numbered jobIndex)) 0 n) (seq 0 n)
  = map Z.of_nat (seq 0 n) /\
  (forall v : nat,
     List.length
       (List.filter
          (fun jobIndex => (senderIndex (startIndex (numbered jobIndex)) 0 n =? Z.of_nat v)%Z)
          (seq 0 n))
     = if (v <? n)%nat then 1 else 0) /\
  forall k : nat,
    (k < n)%nat ->
    pool_at [alice; bob] (senderIndex (startIndex (numbered k)) 0 n)
    = nth_error [alice; bob] k.
Proof.
  refine (rotation_start_visits_each_sender_once [alice; bob]
            (data (sample_job "0" [alice; bob] None)) _).
  reflexivity.
Defined.

Lemma paused_sender_is_skipped_witness :
  exists w',
    iteration plain_replaceTags plain_buildEmailHtml (env_answering None)
      (sample_job "1" [alice; bob] None) [alice; bob] 1 alice_paused initial_locals
    = (Continue, w', initial_locals) /\
    same_effects alice_paused w'.
Proof.
  destruct (paused_sender_is_skipped plain_replaceTags plain_buildEmailHtml
              (env_answering None) (sample_job "1" [alice; bob] None)
              [alice; bob] 0 1 alice_paused initial_locals alice "true")
    as (w' & H1 & H2 & _).
  - reflexivity.
  - reflexivity.
  - discriminate.
  - exists w'. exact (conj H1 H2).
Defined.

Lemma transport_error_classification_witness :
  (exists w' l' m,
     iteration plain_replaceTags plain_buildEmailHtml (env_answering (Some rate_limited))
       (sample_job "2" [alice; bob] None) [alice; bob] 0 fresh_world initial_locals
     = (Continue, w', l') /\
     lastError l' = Some rate_limited /\
     outbox w' = [(transportConfig alice, m)] /\
     Redis.strings (store w') !! paused_key (email alice)
     = Some ("true", (now w' + 3600 * 1000)%Z) /\
     isPaused w' (email alice) = true) /\
  (exists w' l' m,
     iteration plain_replaceTags plain_buildEmailHtml (env_answering (Some refused))
       (sample_job "2" [alice; bob] None) [alice; bob] 0 fresh_world initial_locals
     = (Throw refused, w', l') /\
     lastError l' = Some refused /\
     outbox w' = [(transportConfig alice, m)] /\
     mail_from_address m = email alice /\
     Redis.strings (store w') !! paused_key (email alice) = None).
Proof.
  split.
  - destruct (transport_error_classification plain_replaceTags plain_buildEmailHtml
                (env_answering (Some rate_limited)) (sample_job "2" [alice; bob] None)
                [alice; bob] 1 0 fresh_world initial_locals alice pdf_bytes rate_limited
                eq_refl eq_refl eq_refl (fun _ _ => eq_refl))
      as (w' & l' & m & H1 & H2 & _ & Hpause & _).
    destruct Hpause as (Hit & Hflag & _ & Hp & _).
    { exists "421". split; [simpl; tauto|reflexivity]. }
    exists w', l', m. exact (conj Hit (conj H1 (conj H2 (conj Hflag Hp)))).
  - destruct (transport_error_classification plain_replaceTags plain_buildEmailHtml
                (env_answering (Some refused)) (sample_job "2" [alice; bob] None)
                [alice; bob] 1 0 fresh_world initial_locals alice pdf_bytes refused
                eq_refl eq_refl eq_refl (fun _ _ => eq_refl))
      as (w' & l' & m & H1 & H2 & H3 & _ & Hthrow).
    destruct Hthrow as (Hit & _ & Hkeep & _).
    { intros (kw & Hin & Hinc). simpl in Hin.
      destruct Hin as [<-|[<-|[<-|[<-|[<-|[<-|[<-|[]]]]]]]]; discriminate Hinc. }
    exists w', l', m. rewrite (Hkeep (email alice)).
    exact (conj Hit (conj H1 (conj H2 (conj H3 eq_refl)))).
Defined.

(** A sole sender answering with a rate-limit error: the job fails with
    that transport error, not with the pool-exhaustion error. *)
Lemma sole_sender_fails_with_transport_error :
  (run (Some rate_limited) "1" [alice] None fresh_world).1 = Failed rate_limited /\
  rate_limited <> all_paused_error /\
  JS.includes (JS.message rate_limited) "paused" = false /\
  Redis.get (store (run (Some rate_limited) "1" [alice] None fresh_world).2)
    (now (run (Some rate_limited) "1" [alice] None fresh_world).2)
    (paused_key (email alice)) = Some "true".
Proof. split; [reflexivity|]. split; [discriminate|]. split; reflexivity. Qed.

Lemma rotation_without_success_fails_witness :
  (exists s m i earlier,
     (run (Some rate_limited) "1" [alice; bob] None fresh_world).1 = Failed rate_limited /\
     In s [alice; bob] /\
     outbox (run (Some rate_limited) "1" [alice; bob] None fresh_world).2
     = (outbox fresh_world ++ earlier ++ [(transportConfig s, m)])%list /\
     sendMail (env_answering (Some rate_limited)) i (transportConfig s) m = Some rate_limited /\
     isPaused (run (Some rate_limited) "1" [alice; bob] None fresh_world).2 (email s) = true) /\
  (exists w',
     run (Some rate_limited) "1" [alice] None fresh_world = (Failed rate_limited, w') /\
     Redis.get (store w') (now w') (paused_key (email alice)) = Some "true").
Proof.
  split.
  - destruct (rotation_without_success_fails plain_replaceTags plain_buildEmailHtml
                (env_answering (Some rate_limited)) (sample_job "1" [alice; bob] None)
                [alice; bob] fresh_world eq_refl ltac:(discriminate)) as [Hgeneral _].
    destruct (Hgeneral
                (rotate plain_replaceTags plain_buildEmailHtml
                   (env_answering (Some rate_limited)) (sample_job "1" [alice; bob] None)
                   [alice; bob] 2 0 fresh_world initial_locals).1.2
                (rotate plain_replaceTags plain_buildEmailHtml
                   (env_answering (Some rate_limited)) (sample_job "1" [alice; bob] None)
                   [alice; bob] 2 0 fresh_world initial_locals).2)
      as (reason & Hrun & [(Hnone & _)|(Hlast & _ & s & m & i & earlier & Hin & Hbox & _ & Hsend & _ & Hp)]).
    + vm_compute. reflexivity.
    + vm_compute in Hnone. discriminate Hnone.
    + vm_compute in Hlast. injection Hlast as <-.
      exists s, m, i, earlier. split; [vm_compute; reflexivity|]. exact (conj Hin (conj Hbox (conj Hsend Hp))).
  - apply (proj2 (rotation_without_success_fails plain_replaceTags plain_buildEmailHtml
                    (env_answering (Some rate_limited)) (sample_job "1" [alice] None)
                    [alice] fresh_world eq_refl ltac:(discriminate))
             alice pdf_bytes rate_limited); try reflexivity.
    exists "421". split; [simpl; tauto|reflexivity].
Defined.

(** Link mode and a transport that refuses the connection: the job
    fails, and the document is in the store all the same. *)
Lemma link_document_persisted_although_send_failed :
  (run (Some refused) "1" [alice] (Some "link") fresh_world).1 = Failed refused /\
  Redis.get (store (run (Some refused) "1" [alice] (Some "link") fresh_world).2)
    (now (run (Some refused) "1" [alice] (Some "link") fresh_world).2)
    (invoice_key "INV-1A2B3C4D") = Some (JS.base64 pdf_bytes).
Proof. split; reflexivity. Qed.

Lemma document_persistence_witness :
  exists c w' l' m,
    iteration plain_replaceTags plain_buildEmailHtml (env_answering None)
      (sample_job "1" [alice] (Some "link")) [alice] 0 fresh_world initial_locals
    = (c, w', l') /\
    outbox w' = [(transportConfig alice, m)] /\
    mail_attachments m = [] /\
    Redis.strings (store w') !! invoice_key "INV-1A2B3C4D"
    = Some (JS.base64 pdf_bytes, (1000 + 1500 + 86400 * 30 * 1000)%Z).
Proof.
  exact (proj1 (document_persistence plain_replaceTags plain_buildEmailHtml
                  (env_answering None) (sample_job "1" [alice] (Some "link"))
                  [alice] 0 fresh_world initial_locals alice pdf_bytes
                  eq_refl eq_refl eq_refl)).
Defined.

End WorkerFacts.

(* ===================================================================== *)
(** * Properties of the gate and of the handlers                         *)
(* ===================================================================== *)

Section HandlerFacts.

Local Open Scope string_scope.

Section GateFacts.
Import Gate.

Variable cloaking_matches : string -> list flag.
Variable link_matches : string -> list flag.
Variable resolveTxt : string -> dns_answer.

Local Abbreviation segMiddleware := (segMiddleware cloaking_matches link_matches resolveTxt).
Local Abbreviation runPreFlightCheck := (runPreFlightCheck cloaking_matches link_matches resolveTxt).
Local Abbreviation verifyInfrastructure := (verifyInfrastructure resolveTxt).

Lemma verifyInfrastructure_no_sender (a : option string) :
  JS.truthy_opt a = false ->
  verifyInfrastructure a = ([invalid_sender_flag], []).
Proof.
  destruct a as [s|]; [|done]. simpl. unfold Gate.verifyInfrastructure.
  intros ->. done.
Qed.

(** Without a usable primary sender the gate still calls
    [verifyInfrastructure], whose answer is the invalid-sender flag: a
    request with a body to scan is rejected for that reason alone. *)
Lemma segMiddleware_without_sender (b : body) :
  JS.truthy_opt (emailBody b) = true ->
  JS.truthy_opt (primarySenderEmail b) = false ->
  exists flags ev,
    segMiddleware (Some b) = (Status400 flags, ev) /\
    In invalid_sender_flag flags /\
    In (ConsoleWarn "[SEG] No senderPool provided; skipping infrastructure verification.") ev.
Proof.
  intros Hb Hs. unfold Gate.segMiddleware, Gate.runPreFlightCheck.
  rewrite Hb, Hs. simpl negb. cbv iota.
  rewrite (verifyInfrastructure_no_sender _ Hs).
  set (flags := (scanHtmlDomForCloaking cloaking_matches (emailBody b)
                 ++ scanLinkIntegrity link_matches (emailBody b)
                 ++ [invalid_sender_flag])%list).
  assert (In invalid_sender_flag flags) as Hin.
  { unfold flags. apply in_or_app. right. apply in_or_app. right. by left. }
  destruct flags as [|f fl] eqn:E; [done|].
  simpl. eexists _, _. split; [done|]. split; [done|]. by left.
Qed.

(** C10. A request whose [emailBody] is empty or missing passes the gate
    at once: [next()] is called and neither scan nor any DNS lookup nor
    any log line happens. *)
Theorem empty_body_bypasses_gate (b : body) :
  JS.truthy_opt (emailBody b) = false ->
  segMiddleware (Some b) = (Next, []) /\
  (forall ev, In ev (segMiddleware (Some b)).2 -> is_check ev = false) /\
  forall now d s,
    Api.gate_body d = b ->
    Api.post_dispatch cloaking_matches link_matches resolveTxt now (Some d) s
    = (Api.dispatch now d s, []).
Proof.
  intros H.
  assert (segMiddleware (Some b) = (Next, [])) as E
    by (unfold Gate.segMiddleware; by rewrite H).
  split; [done|]. split; [rewrite E; intros ev []|].
  intros now d s <-. unfold Api.post_dispatch. simpl option_map. by rewrite E.
Qed.

End GateFacts.

(** C7, on the code.  A dispatch body with a harmless HTML text and an
    empty sender pool: the gate announces that it skips the
    infrastructure verification, runs it all the same on a [null]
    address, and rejects the request with the invalid-sender flag as the
    only flag. *)
Theorem absent_sender_raises_infrastructure_flag (resolveTxt : string -> Gate.dns_answer) :
  Gate.segMiddleware (fun _ => []) (fun _ => []) resolveTxt
    (Some {| Gate.emailBody := Some "<p>Hello</p>"; Gate.senderPool := Some [] |})
  = (Gate.Status400 [Gate.invalid_sender_flag],
     [Gate.ConsoleWarn "[SEG] No senderPool provided; skipping infrastructure verification.";
      Gate.ConsoleLog "[SEG] Initiating Pre-Flight Security Scan...";
      Gate.CloakingScan (Some "<p>Hello</p>");
      Gate.LinkScan (Some "<p>Hello</p>");
      Gate.ConsoleWarn "[SEG] Payload REJECTED. Security flags triggered:"])
  /\ Gate.is_infrastructure_flag Gate.invalid_sender_flag = true.
Proof. split; reflexivity. Qed.

Section ApiFacts.
Import Api.

Lemma sweep_all limit waiting l :
  (Z.of_nat (List.length l) <= limit)%Z ->
  (waiting = true \/ forallb (fun x => negb (locked x)) l = true) ->
  sweep limit waiting l = [].
Proof.
  intros Hlen Hl. unfold sweep.
  rewrite firstn_all2 by lia. rewrite skipn_all2 by lia. rewrite app_nil_r.
  destruct Hl as [->|Hl].
  - simpl. induction l as [|x l IH]; [done|]. simpl in *. apply IH. lia.
  - induction l as [|x l IH]; [done|]. simpl in *.
    apply andb_true_iff in Hl as [Hx Hl]. apply negb_true_iff in Hx.
    rewrite Hx, andb_false_r. apply IH; [lia|done].
Qed.

Lemma sweep_nil limit waiting : sweep limit waiting [] = [].
Proof. unfold sweep. by rewrite firstn_nil, skipn_nil. Qed.

Lemma clear_drains ok s :
  ok = true \/ sweepable (invoiceQueue s) ->
  drained (invoiceQueue (clear ok s).2).
Proof.
  intros H. unfold clear. destruct ok; [done|].
  destruct H as [H|((Hw & Ha & Hc & Hf) & Hl)]; [done|].
  rewrite !forallb_app in Hl. apply andb_true_iff in Hl as [Hla Hl].
  apply andb_true_iff in Hl as [Hlc Hlf].
  unfold drained. simpl.
  rewrite !sweep_all; auto.
Qed.

Lemma clear_keeps_drained ok s :
  drained (invoiceQueue s) -> drained (invoiceQueue (clear ok s).2).
Proof.
  intros (Hw & Ha & Hc & Hf). unfold clear. destruct ok; [done|].
  unfold drained. simpl. rewrite Hw, Ha, Hc, Hf, !sweep_nil. done.
Qed.

Lemma status_drained s :
  drained (invoiceQueue s) ->
  status s = {| counts := zero_counts; logs := [];
                liveLogs := Redis.live_dispatch_logs (connection s) |}.
Proof.
  intros (Hw & Ha & Hc & Hf). unfold status. rewrite Hw, Ha, Hc, Hf. done.
Qed.

(** C8, on the code.  The clear handler answers "Queue and logs
    cleared" and leaves the telemetry list as it was: on either path
    (obliterate, or pause, sweep and resume) it only calls operations of
    the queue and never deletes [live_dispatch_logs], so the status
    query after a clear reports the telemetry events that were there
    before it.  On a server with one telemetry event on record the
    status query after the clear still reports that event. *)
Theorem clear_keeps_telemetry (obliterate_ok : bool) (s : Server) :
  (clear obliterate_ok s).1 = Ok200 "Queue and logs cleared" /\
  connection (clear obliterate_ok s).2 = connection s /\
  liveLogs (status (clear obliterate_ok s).2) = liveLogs (status s) /\
  liveLogs (status (clear obliterate_ok Examples.quiet_server).2) = [Examples.one_event].
Proof. by destruct obliterate_ok. Qed.

End ApiFacts.

Lemma empty_body_bypasses_gate_witness :
  Gate.segMiddleware (fun _ => []) (fun _ => []) Examples.no_dns
    (Some {| Gate.emailBody := Some ""; Gate.senderPool := None |}) = (Gate.Next, []).
Proof.
  apply (empty_body_bypasses_gate (fun _ => []) (fun _ => []) Examples.no_dns
           {| Gate.emailBody := Some ""; Gate.senderPool := None |}).
  reflexivity.
Defined.

End HandlerFacts.

(* ===================================================================== *)
(** * More on the template engine *)
(* ===================================================================== *)

Section SpintaxMoreFacts.
Import Spintax.

Lemma split_pipe_not_nil s : split_pipe s <> [].
Proof.
  destruct s as [|c s]; simpl; [done|].
  destruct (is_pipe c); [done|]. by destruct (split_pipe s).
Qed.

Lemma choose_in rnd k (options : list text) :
  options <> [] -> In (choose rnd k options) options.
Proof.
  intros Hne. unfold choose. apply nth_In.
  apply Nat.mod_upper_bound. by destruct options.
Qed.

Lemma brace_free_no_test s : forall pending,
  brace_free s = true -> test_from pending s = false.
Proof.
  induction s as [|c s IH]; intros pending H; [done|].
  simpl in H. apply andb_true_iff in H as [Hc Hs].
  apply non_brace_inv in Hc as [H1 H2]. simpl. rewrite H1, H2.
  destruct pending; by apply IH.
Qed.

Lemma parseSpintax_unfold rnd k t :
  t <> [] ->
  spin_loop (count_open t) rnd k 0 t = Some (parseSpintax rnd k t).
Proof.
  intros Hne. pose proof (parseSpintax_fuel_enough rnd k t (count_open t) (le_n _)) as E.
  by destruct t.
Qed.

(** X1. A text in which the pattern finds no span comes back as it went
    in: no pass is run and no random number is drawn. *)
Theorem parseSpintax_without_span (rnd : nat -> nat) (k : nat) (t : text) :
  ~ spintax_span t ->
  parseSpintax rnd k t = {| spun_text := t; spun_next := k; spun_passes := 0 |}.
Proof.
  intros Hno.
  assert (spintax_test t = false) as Ht.
  { destruct (spintax_test t) eqn:E; [|done]. by apply spintax_test_spec in E. }
  destruct t as [|c t]; [done|].
  pose proof (parseSpintax_unfold rnd k (c :: t) ltac:(done)) as E.
  rewrite spin_loop_done in E by done. by injection E as <-.
Qed.

Lemma parseSpintax_without_span_witness :
  parseSpintax (fun _ => 7) 3 (txt "Dear {{Name}}, pay {Invoice_Number} | thanks")
  = {| spun_text := txt "Dear {{Name}}, pay {Invoice_Number} | thanks";
       spun_next := 3; spun_passes := 0 |}.
Proof.
  refine (parseSpintax_without_span (fun _ => 7) 3
            (txt "Dear {{Name}}, pay {Invoice_Number} | thanks") _).
  intros H. apply (proj2 (spintax_test_spec _)) in H. vm_compute in H. discriminate H.
Defined.

Lemma spin_loop_more_fuel rnd fuel k passes s r extra :
  spin_loop fuel rnd k passes s = Some r ->
  spin_loop (fuel + extra) rnd k passes s = Some r.
Proof. intros H. apply (spin_loop_fuel_mono rnd fuel); [done|lia]. Qed.

Lemma parseSpintax_by_loop rnd k t fuel r :
  t <> [] -> spin_loop fuel rnd k 0 t = Some r -> parseSpintax rnd k t = r.
Proof.
  intros Hne H.
  pose proof (parseSpintax_unfold rnd k t Hne) as E.
  apply (spin_loop_more_fuel _ _ _ _ _ _ (count_open t)) in H.
  apply (spin_loop_more_fuel _ _ _ _ _ _ fuel) in E.
  rewrite Nat.add_comm in E. congruence.
Qed.

Lemma parseSpintax_flat rnd k pre run post :
  brace_free pre = true -> brace_free run = true -> brace_free post = true ->
  has_pipe run = true ->
  parseSpintax rnd k (pre ++ lbrace :: run ++ rbrace :: post)
  = {| spun_text := pre ++ choose rnd k (split_pipe run) ++ post;
       spun_next := S k; spun_passes := 1 |}.
Proof.
  intros Hpre Hrun Hpost Hp.
  apply (parseSpintax_by_loop rnd k _ 1); [by destruct pre|].
  rewrite spin_loop_step.
  2:{ apply spintax_test_spec. by exists pre, run, post. }
  rewrite replace_pass_leftmost; [|by apply brace_free_no_test|done|done].
  rewrite replace_pass_nomatch by (by apply brace_free_no_test).
  cbn [fst snd]. apply spin_loop_done.
  apply brace_free_no_test. rewrite !brace_free_app, Hpre, Hpost.
  by rewrite (choose_brace_free rnd k run Hrun).
Qed.

(** X2. A span without inner braces, in a text that has no other brace,
    is replaced in one pass by one of its pipe-separated options, chosen
    by one random draw; the text around it is kept. *)
Theorem parseSpintax_flat_span (rnd : nat -> nat) (k : nat) (pre run post : text) :
  brace_free pre = true -> brace_free run = true -> brace_free post = true ->
  has_pipe run = true ->
  parseSpintax rnd k (pre ++ lbrace :: run ++ rbrace :: post)
  = {| spun_text := pre ++ choose rnd k (split_pipe run) ++ post;
       spun_next := S k; spun_passes := 1 |} /\
  In (choose rnd k (split_pipe run)) (split_pipe run).
Proof.
  intros Hpre Hrun Hpost Hp. split; [by apply parseSpintax_flat|].
  apply choose_in, split_pipe_not_nil.
Qed.

Lemma parseSpintax_flat_span_witness :
  parseSpintax (fun _ => 1) 0
    (txt "Hi, " ++ lbrace :: txt "thanks|cheers|regards" ++ rbrace :: txt " to you")
  = {| spun_text := txt "Hi, " ++ choose (fun _ => 1) 0 (split_pipe (txt "thanks|cheers|regards"))
                    ++ txt " to you";
       spun_next := 1; spun_passes := 1 |} /\
  In (choose (fun _ => 1) 0 (split_pipe (txt "thanks|cheers|regards")))
     (split_pipe (txt "thanks|cheers|regards")).
Proof.
  exact (parseSpintax_flat_span (fun _ => 1) 0 (txt "Hi, ") (txt "thanks|cheers|regards")
           (txt " to you") eq_refl eq_refl eq_refl eq_refl).
Defined.

(** X3. Every option of a flat span can come out: for each of them there
    is a draw that selects it. *)
Theorem parseSpintax_every_option_reachable (k : nat) (pre run post option : text) :
  brace_free pre = true -> brace_free run = true -> brace_free post = true ->
  has_pipe run = true ->
  In option (split_pipe run) ->
  exists rnd,
    spun_text (parseSpintax rnd k (pre ++ lbrace :: run ++ rbrace :: post))
    = pre ++ option ++ post.
Proof.
  intros Hpre Hrun Hpost Hp Hin.
  apply (In_nth _ _ []) in Hin as (n & Hn & <-).
  exists (fun _ => n). rewrite parseSpintax_flat by done. simpl.
  unfold choose. by rewrite Nat.mod_small.
Qed.

Lemma parseSpintax_every_option_reachable_witness :
  exists rnd,
    spun_text (parseSpintax rnd 0
                 (txt "Hi, " ++ lbrace :: txt "thanks|cheers|regards" ++ rbrace :: txt "!"))
    = txt "Hi, " ++ txt "regards" ++ txt "!".
Proof.
  refine (parseSpintax_every_option_reachable 0 (txt "Hi, ") (txt "thanks|cheers|regards")
            (txt "!") (txt "regards") eq_refl eq_refl eq_refl eq_refl _).
  right. right. left. reflexivity.
Defined.


Lemma split_pipe_shorter s :
  Forall (fun o => List.length o <= List.length s) (split_pipe s) /\
  (has_pipe s = true -> Forall (fun o => List.length o < List.length s) (split_pipe s)).
Proof.
  induction s as [|c s [IH1 IH2]]; simpl.
  - split; [by repeat constructor|done].
  - destruct (is_pipe c) eqn:Hc; simpl.
    + split; [constructor; [simpl; lia|]|intros _; constructor; [simpl; lia|]];
        (eapply Forall_impl; [exact IH1|]); simpl; intros; lia.
    + pose proof (split_pipe_not_nil s) as Hne.
      destruct (split_pipe s) as [|h t]; [done|].
      inversion IH1; subst. split.
      * constructor; [simpl; lia|]. eapply Forall_impl; [eassumption|]. simpl; intros; lia.
      * intros Hp. specialize (IH2 Hp). inversion IH2; subst.
        constructor; [simpl; lia|]. eapply Forall_impl; [eassumption|]. simpl; intros; lia.
Qed.

Lemma choose_shorter rnd k run :
  has_pipe run = true ->
  List.length (choose rnd k (split_pipe run)) < List.length run.
Proof.
  intros Hp. destruct (split_pipe_shorter run) as [_ H]. specialize (H Hp).
  rewrite Forall_forall in H. apply H. apply list_elem_of_In.
  apply choose_in, split_pipe_not_nil.
Qed.

Ltac split_char c :=
  let H := fresh "Hc" in
  destruct (char_cases c) as [[-> H]|[[-> [H ?]]|[H ?]]].

Lemma replace_from_length rnd s : forall k pending,
  List.length (fst (replace_from rnd k pending s))
    + (if test_from pending s then 3 else 0)
  <= List.length (flush pending) + List.length s.
Proof.
  induction s as [|c rest IH]; intros k pending.
  - simpl. lia.
  - simpl. split_char c; rewrite Hc; try rewrite H.
    + specialize (IH k (Some [])).
      destruct (replace_from rnd k (Some []) rest) as [out k'].
      simpl in *. rewrite length_app. lia.
    + destruct pending as [run|].
      * destruct (has_pipe run) eqn:Hp.
        -- specialize (IH (S k) None).
           destruct (replace_from rnd (S k) None rest) as [out k'].
           pose proof (choose_shorter rnd k run Hp).
           simpl in *. rewrite length_app.
           destruct (test_from None rest); lia.
        -- specialize (IH k None).
           destruct (replace_from rnd k None rest) as [out k'].
           simpl in *. rewrite length_app. simpl. lia.
      * specialize (IH k None).
        destruct (replace_from rnd k None rest) as [out k'].
        simpl in *. lia.
    + destruct pending as [run|].
      * specialize (IH k (Some (run ++ [c]))).
        simpl in *. rewrite length_app in IH. simpl in IH. lia.
      * specialize (IH k None).
        destruct (replace_from rnd k None rest) as [out k'].
        simpl in *. lia.
Qed.

Lemma spin_loop_length rnd : forall fuel k passes s r,
  spin_loop fuel rnd k passes s = Some r ->
  List.length (spun_text r) + 3 * spun_passes r <= List.length s + 3 * passes.
Proof.
  induction fuel as [|fuel IH]; intros k passes s r H; simpl in H;
    destruct (spintax_test s) eqn:Ht; try done.
  - injection H as <-. simpl. lia.
  - pose proof (replace_from_length rnd s k None) as Hl.
    unfold spintax_test in Ht. rewrite Ht in Hl.
    unfold replace_pass in H.
    destruct (replace_from rnd k None s) as [s' k']. simpl in Hl.
    apply IH in H. lia.
  - injection H as <-. simpl. lia.
Qed.

(** X4. Spintax resolution only ever shortens a text: every pass takes at
    least three characters away (the two braces and a pipe), so the
    length of the output plus three times the number of passes is at
    most the length of the input. *)
Theorem parseSpintax_shrinks (rnd : nat -> nat) (k : nat) (t : text) :
  List.length (spun_text (parseSpintax rnd k t)) + 3 * spun_passes (parseSpintax rnd k t)
  <= List.length t.
Proof.
  destruct t as [|c t]; [simpl; lia|].
  pose proof (parseSpintax_unfold rnd k (c :: t) ltac:(done)) as E.
  apply spin_loop_length in E. lia.
Qed.

End SpintaxMoreFacts.

(* ===================================================================== *)
(** * More on the worker: telemetry, rotation, throttle *)
(* ===================================================================== *)

Section TelemetryFacts.
Import Worker.

(** X5. The telemetry list is a window on the last 100 events: after
    [emitLiveLog] the new entry is the last one, the list holds one entry
    more than before but never more than 100, what was dropped was dropped
    from the old end, and no string key is touched. *)
Theorem emitLiveLog_keeps_last_hundred (jobId : string) (m : Telemetry.log_message)
    (t : Telemetry.severity) (w : World) :
  let entry := {| Telemetry.jobId := jobId; Telemetry.message := m; Telemetry.type := t |} in
  let before := Redis.live_dispatch_logs (store w) in
  let after := Redis.live_dispatch_logs (store (emitLiveLog jobId m t w)) in
  List.length after = Nat.min 100 (S (List.length before)) /\
  last after = Some entry /\
  (exists dropped, before ++ [entry] = dropped ++ after) /\
  Redis.strings (store (emitLiveLog jobId m t w)) = Redis.strings (store w).
Proof.
  unfold emitLiveLog, with_draws, with_store, Redis.rpush_trim.
  cbn [store Redis.live_dispatch_logs Redis.strings].
  set (entry := {| Telemetry.jobId := jobId; Telemetry.message := m; Telemetry.type := t |}).
  set (l := Redis.live_dispatch_logs (store w) ++ [entry]).
  assert (List.length l = S (List.length (Redis.live_dispatch_logs (store w)))) as Hl
    by (unfold l; rewrite length_app; simpl; lia).
  split; [rewrite length_drop; lia|]. split; [|split; [|done]].
  - assert (last l = Some entry) as Hlast by apply last_snoc.
    rewrite <- (take_drop (List.length l - 100) l) in Hlast.
    rewrite last_app in Hlast.
    destruct (last (drop (List.length l - 100) l)) as [y|] eqn:Hd; [done|].
    apply last_None in Hd. apply (f_equal List.length) in Hd.
    rewrite length_drop in Hd. simpl in Hd. lia.
  - exists (take (List.length l - 100) l). by rewrite take_drop.
Qed.

End TelemetryFacts.

Section RotationMoreFacts.
Import Worker.
Local Open Scope string_scope.

Variable replaceTags :
  option string -> Recipient -> string -> option string -> option string -> string.
Variable buildEmailHtml : HtmlArgs -> string.
Variable e : Env.
Variable j : Job.

Local Abbreviation iteration := (iteration replaceTags buildEmailHtml e j).
Local Abbreviation rotate := (rotate replaceTags buildEmailHtml e j).
Local Abbreviation emailWorker := (emailWorker replaceTags buildEmailHtml e j).
Local Abbreviation deliver := (deliver e j).
Local Abbreviation attempt_job := (attempt_job replaceTags buildEmailHtml e j).

Lemma rem_nonneg_mod start i n :
  (0 <= start)%Z -> (0 < n)%nat ->
  senderIndex start i n = ((start + Z.of_nat i) mod Z.of_nat n)%Z.
Proof. intros H1 H2. unfold senderIndex. apply Z.rem_mod_nonneg; lia. Qed.

Lemma senderIndex_range start i n :
  (0 <= start)%Z -> (0 < n)%nat ->
  (0 <= senderIndex start i n < Z.of_nat n)%Z.
Proof. intros H1 H2. rewrite rem_nonneg_mod by done. apply Z.mod_pos_bound. lia. Qed.

Lemma senderIndex_inj start n i i' :
  (0 <= start)%Z -> (i < n)%nat -> (i' < n)%nat ->
  senderIndex start i n = senderIndex start i' n -> i = i'.
Proof.
  intros Hs Hi Hi' E. rewrite !rem_nonneg_mod in E by lia.
  assert (forall a b : nat, (a <= b)%nat -> (b < n)%nat ->
            ((start + Z.of_nat a) mod Z.of_nat n = (start + Z.of_nat b) mod Z.of_nat n)%Z ->
            a = b) as Hord.
  { intros a b Hab Hb Hm.
    assert (((Z.of_nat b - Z.of_nat a) mod Z.of_nat n = 0)%Z) as Hz.
    { replace (Z.of_nat b - Z.of_nat a)%Z
        with ((start + Z.of_nat b) - (start + Z.of_nat a))%Z by lia.
      rewrite Zminus_mod, Hm, Z.sub_diag. apply Z.mod_0_l. lia. }
    rewrite Z.mod_small in Hz by lia. lia. }
  destruct (Nat.le_ge_cases i i'); [by apply Hord|symmetry; by apply Hord].
Qed.

(** X6. Within one job the rotation examines every position of the
    pool exactly once: for a start offset that is not negative, the
    indexes [(start + i) % n] for [i] from 0 to [n - 1] are a permutation
    of the positions 0 to [n - 1], and every index names a sender of the
    pool.  The start offset is taken below 2^53 - n, where the sums
    [start + i] are exact in the double arithmetic of the code too. *)
Theorem rotation_examines_each_sender_once (pool : list Sender) (start : Z) :
  (0 <= start)%Z -> (start + Z.of_nat (List.length pool) <= 2 ^ 53)%Z -> pool <> [] ->
  Permutation
    (map (fun i => senderIndex start i (List.length pool)) (seq 0 (List.length pool)))
    (map Z.of_nat (seq 0 (List.length pool))) /\
  forall i, exists s,
    pool_at pool (senderIndex start i (List.length pool)) = Some s /\ In s pool.
Proof.
  intros Hs _ Hne.
  assert (0 < List.length pool)%nat as Hn by (destruct pool; [done|simpl; lia]).
  split.
  - apply NoDup_Permutation_bis.
    + apply Finite.Injective_map_NoDup_in; [|apply seq_NoDup].
      intros x y Hx Hy E. apply in_seq in Hx, Hy.
      apply (senderIndex_inj start (List.length pool)); [done|lia|lia|done].
    + by rewrite !length_map.
    + intros z Hz. apply in_map_iff in Hz as (i & <- & _).
      pose proof (senderIndex_range start i (List.length pool) Hs Hn) as Hr.
      apply in_map_iff. exists (Z.to_nat (senderIndex start i (List.length pool))).
      split; [lia|]. apply in_seq. lia.
  - intros i.
    pose proof (senderIndex_range start i (List.length pool) Hs Hn) as Hr.
    unfold pool_at. destruct (Z.ltb_spec (senderIndex start i (List.length pool)) 0); [lia|].
    destruct (nth_error pool (Z.to_nat (senderIndex start i (List.length pool)))) as [s|] eqn:E.
    + exists s. split; [done|]. by apply nth_error_In in E.
    + apply nth_error_None in E. lia.
Qed.


(** What one iteration adds to the outbox: nothing or one message. *)
Lemma iteration_outbox pool i w l c w' l' :
  iteration pool i w l = (c, w', l') ->
  outbox w' = outbox w \/
  exists s m, pool_at pool (senderIndex (startIndex j) i (List.length pool)) = Some s /\
              mail_from_address m = email s /\
              outbox w' = (outbox w ++ [(transportConfig s, m)])%list.
Proof.
  intros Hit.
  destruct (iteration_cases replaceTags buildEmailHtml e j pool i w l)
    as [(_ & H)|[(cand & w1 & _ & _ & H & _ & _ & Hb)
       |[(cand & cause & w1 & l1 & _ & _ & _ & H & _ & Hb & _)
       |(cand & pdf & Hc & Hp & Hr)]]];
    try (rewrite H in Hit; injection Hit as _ <- _; by left).
  destruct (iteration_prepared replaceTags buildEmailHtml e j pool i w l cand pdf Hc Hp Hr)
    as (m & w2 & l1 & Hd & Hfrom & Hbox & _).
  rewrite Hd in Hit. right. exists cand, m. do 2 (split; [done|]).
  destruct (deliver_cases e j cand i (transportConfig cand) m w2 l1)
    as [(_ & w3 & l3 & H & _ & _ & Hb & _)
       |[(err & _ & _ & w3 & l3 & H & _ & _ & _ & Hb & _)
        |(err & _ & _ & w3 & l3 & H & _ & _ & Hb & _)]];
    rewrite H in Hit; injection Hit as _ <- _; by rewrite Hb, Hbox.
Qed.

Lemma rotate_outbox pool : forall remaining i w l c w' l',
  rotate pool remaining i w l = (c, w', l') ->
  exists sent, outbox w' = (outbox w ++ sent)%list /\
               (List.length sent <= remaining)%nat /\
               forall cm, In cm sent ->
                 exists s, In s pool /\ cm.1 = transportConfig s /\
                           mail_from_address cm.2 = email s.
Proof.
  induction remaining as [|r IH]; intros i w l c w' l' H.
  - injection H as _ <- _. exists []. rewrite app_nil_r. split; [done|]. split; [done|]. by intros ? [].
  - rewrite rotate_step in H.
    destruct (iteration pool i w l) as [[c1 w1] l1] eqn:Hit.
    assert (exists sent1, outbox w1 = (outbox w ++ sent1)%list /\
              (List.length sent1 <= 1)%nat /\
              forall cm, In cm sent1 ->
                exists s, In s pool /\ cm.1 = transportConfig s /\
                          mail_from_address cm.2 = email s) as (sent1 & E1 & L1 & P1).
    { destruct (iteration_outbox pool i w l c1 w1 l1 Hit) as [E|(s & m & Hc & Hf & E)].
      - exists []. rewrite app_nil_r. split; [done|]. split; [simpl; lia|]. by intros ? [].
      - exists [(transportConfig s, m)]. split; [done|]. split; [done|].
        intros cm [<-|[]]. exists s. split; [|done].
        unfold pool_at in Hc. destruct (_ <? _)%Z; [done|]. by apply nth_error_In in Hc. }
    destruct c1.
    + destruct (IH (S i) w1 l1 c w' l' H) as (sent & E & L & P).
      exists (sent1 ++ sent)%list. split; [by rewrite E, E1, app_assoc|].
      split; [rewrite length_app; lia|].
      intros cm Hin. apply in_app_or in Hin as [?|?]; auto.
    + injection H as _ <- _. exists sent1. split; [done|]. split; [lia|done].
    + injection H as _ <- _. exists sent1. split; [done|]. split; [lia|done].
Qed.

Lemma throttle_outbox w : outbox (throttle e j w) = outbox w.
Proof. unfold throttle. by destruct (existsb _ _). Qed.

(** X7. A job only appends to what the transport has seen, hands it at
    most as many messages as the pool has senders, and each of them goes
    out with the transport configuration and the From address of one
    sender of the pool. *)
Theorem job_attempts_bounded_by_pool (w : World) :
  exists sent,
    outbox (emailWorker w).2 = (outbox w ++ sent)%list /\
    (List.length sent <= List.length (default [] (senderPool (data j))))%nat /\
    forall cm, In cm sent ->
      exists s, In s (default [] (senderPool (data j))) /\
                cm.1 = transportConfig s /\ mail_from_address cm.2 = email s.
Proof.
  unfold Worker.emailWorker, Worker.attempt_job.
  destruct (senderPool (data j)) as [[|s pool]|];
    try (exists []; rewrite app_nil_r; split; [done|]; split; [simpl; lia|]; by intros ? []).
  destruct (rotate (s :: pool) (List.length (s :: pool)) 0 w initial_locals)
    as [[c w'] l'] eqn:Hr.
  destruct (rotate_outbox _ _ _ _ _ _ _ _ Hr) as (sent & E & L & P).
  exists sent. split; [|by split].
  destruct c;
    [destruct (negb (success l')); [destruct (lastError l')|destruct (selectedSender l')]
    |destruct (negb (success l')); [destruct (lastError l')|destruct (selectedSender l')]
    |]; simpl; by rewrite ?throttle_outbox.
Qed.


(** X8. A document that fails to render ends the job at once: the
    iteration throws the render error out of the loop, without a message
    to the transport and without a change to the string store, and the
    job whose loop reaches that iteration fails with that error instead of
    trying the next sender. *)
Theorem render_failure_is_fatal pool r i w l cand cause :
  pool_at pool (senderIndex (startIndex j) i (List.length pool)) = Some cand ->
  isPaused w (email cand) = false ->
  renderPdf e i = RenderFailed cause ->
  exists w' l',
    rotate pool (S r) i w l = (Throw (render_error cause), w', l') /\
    outbox w' = outbox w /\
    Redis.strings (store w') = Redis.strings (store w) /\
    forall w0,
      senderPool (data j) = Some pool ->
      rotate pool (List.length pool) 0 w0 initial_locals = rotate pool (S r) i w l ->
      (emailWorker w0).1 = Failed (render_error cause) /\
      outbox (emailWorker w0).2 = outbox w /\
      Redis.strings (store (emailWorker w0).2) = Redis.strings (store w).
Proof.
  intros Hc Hp Hr.
  destruct (iteration_cases replaceTags buildEmailHtml e j pool i w l)
    as [(Hn & _)|[(cand' & w1 & Hc' & Hp' & _)
       |[(cand' & cause' & w1 & l1 & Hc' & _ & Hr' & H & Hs & Hb & _)
       |(cand' & pdf & Hc' & _ & Hr')]]]; try congruence.
  rewrite Hr in Hr'. injection Hr' as <-.
  exists w1, l1. split; [by rewrite rotate_step, H|]. do 2 (split; [done|]).
  intros w0 Hpool Hreach. rewrite rotate_step, H in Hreach.
  rewrite (emailWorker_thrown replaceTags buildEmailHtml e j pool w0 _ _ _ Hpool
             (pool_at_nonempty _ _ _ Hc) Hreach).
  simpl. done.
Qed.

(** The loop walks over a stretch of paused candidates without any
    effect but telemetry. *)
Lemma rotate_over_paused pool : forall d i w l remaining,
  (forall k, (i <= k < i + d)%nat ->
     exists s, pool_at pool (senderIndex (startIndex j) k (List.length pool)) = Some s /\
               isPaused w (email s) = true) ->
  exists w', same_effects w w' /\
             rotate pool (d + remaining) i w l = rotate pool remaining (i + d) w' l.
Proof.
  induction d as [|d IH]; intros i w l remaining Hpaused.
  - exists w. split; [done|]. by rewrite Nat.add_0_r.
  - destruct (Hpaused i ltac:(lia)) as (s & Hc & Hp).
    pose proof (iteration_paused replaceTags buildEmailHtml e j pool i w l s Hc Hp) as Hit.
    set (w1 := if ((i =? List.length pool - 1)%nat && negb (success l))%bool
               then emitLiveLog (id j) (Telemetry.LogSkip (email s)) Telemetry.SevWarning w
               else w) in Hit.
    assert (same_effects w w1) as Hsame by (unfold w1; by destruct (_ && _)%bool).
    destruct (IH (S i) w1 l remaining) as (w' & Hs' & Hrot).
    { intros k Hk. destruct (Hpaused k ltac:(lia)) as (s' & Hc' & Hp').
      exists s'. split; [done|]. rewrite <- Hp'.
      destruct Hsame as (E1 & E2 & _). apply isPaused_same; [by rewrite E1|done]. }
    exists w'. split.
    + destruct Hsame as (?&?&?), Hs' as (?&?&?). repeat split; congruence.
    + change (S d + remaining)%nat with (S (d + remaining)).
      rewrite rotate_step, Hit, Hrot. f_equal. lia.
Qed.

(** X9. The first candidate of the rotation that is not paused gets the
    job: when its send succeeds the job completes in its name with one
    message handed to the transport. *)
Theorem first_available_sender_delivers pool i w cand pdf :
  senderPool (data j) = Some pool ->
  (i < List.length pool)%nat ->
  (forall k, (k < i)%nat ->
     exists s, pool_at pool (senderIndex (startIndex j) k (List.length pool)) = Some s /\
               isPaused w (email s) = true) ->
  pool_at pool (senderIndex (startIndex j) i (List.length pool)) = Some cand ->
  isPaused w (email cand) = false ->
  renderPdf e i = Rendered pdf ->
  (forall c m, sendMail e i c m = None) ->
  exists w' m,
    emailWorker w
    = (Completed {| ret_invoiceNumber := generateInvoiceId e; ret_sender := email cand |}, w') /\
    outbox w' = (outbox w ++ [(transportConfig cand, m)])%list /\
    mail_from_address m = email cand /\
    forall a, Redis.strings (store w') !! paused_key a
              = Redis.strings (store w) !! paused_key a.
Proof.
  intros Hpool Hi Hpaused Hc Hp Hr Hsend.
  destruct (rotate_over_paused pool i 0 w initial_locals (List.length pool - i))
    as (w1 & (E1 & E2 & E3) & Hrot).
  { intros k Hk. apply Hpaused. lia. }
  replace (i + (List.length pool - i))%nat with (List.length pool) in Hrot by lia.
  simpl in Hrot.
  assert (isPaused w1 (email cand) = false) as Hp1
    by (rewrite <- Hp; apply isPaused_same; [by rewrite E1|done]).
  destruct (iteration_prepared replaceTags buildEmailHtml e j pool i w1 initial_locals
              cand pdf Hc Hp1 Hr)
    as (m & w2 & l1 & Hd & Hfrom & Hbox & _ & _ & _ & Hsel & Hmode).
  rewrite (deliver_sent e j cand i _ m w2 l1 (Hsend _ _)) in Hd.
  destruct (List.length pool - i)%nat as [|r] eqn:Hlen; [lia|].
  rewrite rotate_step, Hd in Hrot.
  unfold Worker.emailWorker, Worker.attempt_job. rewrite Hpool.
  destruct pool as [|s0 pool0]; [simpl in Hi; lia|].
  rewrite Hrot. cbn [success negb selectedSender]. rewrite Hsel.
  eexists _, m. split; [done|]. split; [|split; [done|]].
  - rewrite throttle_outbox. simpl. by rewrite Hbox, E3.
  - intros a. rewrite throttle_same. simpl.
    destruct (String.eqb (job_deliveryMethod j) "attachment");
      destruct Hmode as [-> _]; rewrite ?E1; [done|].
    rewrite lookup_insert_ne; [done|]. intros E. symmetry in E. by apply keys_differ in E.
Qed.


Lemma rotate_break pool : forall remaining i w l w' l',
  rotate pool remaining i w l = (Break, w', l') ->
  success l' = true /\
  exists s m, selectedSender l' = Some s /\ In s pool /\
              last (outbox w') = Some (transportConfig s, m) /\
              mail_from_address m = email s.
Proof.
  induction remaining as [|r IH]; intros i w l w' l' H; [done|].
  rewrite rotate_step in H.
  destruct (iteration pool i w l) as [[c1 w1] l1] eqn:Hit.
  destruct c1; [by apply (IH (S i) w1 l1)| |done].
  injection H as <- <-.
  destruct (iteration_cases replaceTags buildEmailHtml e j pool i w l)
    as [(_ & H)|[(cand & w2 & _ & _ & H & _)
       |[(cand & cause & w2 & l2 & _ & _ & _ & H & _)
       |(cand & pdf & Hc & Hp & Hr)]]]; try congruence.
  destruct (iteration_prepared replaceTags buildEmailHtml e j pool i w l cand pdf Hc Hp Hr)
    as (m & w2 & l2 & Hd & Hfrom & _ & _ & _ & _ & Hsel & _).
  rewrite Hd in Hit.
  destruct (sendMail e i (transportConfig cand) m) as [err|] eqn:Hs.
  - unfold Worker.deliver in Hit. rewrite Hs in Hit.
    by destruct (is_rate_limit _).
  - rewrite (deliver_sent e j cand i _ m w2 l2 Hs) in Hit. injection Hit as <- <-.
    split; [done|]. exists cand, m. split; [done|]. split.
    + unfold pool_at in Hc. destruct (_ <? _)%Z; [done|]. by apply nth_error_In in Hc.
    + split; [|done]. simpl. apply last_snoc.
Qed.

(** X10. A completed job reports what happened: the invoice number is the
    one generated for the job, and the sender named in the result is a
    sender of the pool, the one of the last message handed to the
    transport. *)
Theorem completed_job_names_its_sender (w : World) (v : JobReturn) (w' : World) :
  emailWorker w = (Completed v, w') ->
  ret_invoiceNumber v = generateInvoiceId e /\
  exists s m,
    In s (default [] (senderPool (data j))) /\
    ret_sender v = email s /\
    last (outbox w') = Some (transportConfig s, m) /\
    mail_from_address m = email s.
Proof.
  unfold Worker.emailWorker, Worker.attempt_job.
  destruct (senderPool (data j)) as [[|s0 pool]|]; try done.
  destruct (rotate (s0 :: pool) (List.length (s0 :: pool)) 0 w initial_locals)
    as [[c w1] l1] eqn:Hr.
  destruct c; [| |done].
  - assert (no_success_yet w w initial_locals) as Hinit by done.
    destruct (rotate_no_success replaceTags buildEmailHtml e j w _ _ _ _ _ _ _ Hr Hinit)
      as (Hs & _).
    rewrite Hs. simpl. by destruct (lastError l1).
  - destruct (rotate_break _ _ _ _ _ _ _ Hr) as (Hs & s & m & Hsel & Hin & Hlast & Hfrom).
    rewrite Hs, Hsel. simpl. intros H. injection H as <- <-.
    split; [done|]. exists s, m. rewrite throttle_outbox. done.
Qed.

(** X11. What a job leaves alone in the string store: it removes no key,
    and a key that is neither a pause flag nor the document of this
    job's invoice number keeps its value and its expiry. *)
Theorem job_store_frame (w : World) (k : string) :
  (is_Some (Redis.strings (store w) !! k) ->
   is_Some (Redis.strings (store (emailWorker w).2) !! k)) /\
  ((forall a, k <> paused_key a) ->
   k <> invoice_key (generateInvoiceId e) ->
   Redis.strings (store (emailWorker w).2) !! k = Redis.strings (store w) !! k).
Proof.
  destruct (emailWorker_written replaceTags buildEmailHtml e j w k)
    as [E|[(E & _ & pdf & t & Hk)|(s & t & E & Hk)]].
  - split; [by rewrite E|done].
  - split; [by rewrite Hk|done].
  - split; [by rewrite Hk|]. intros Hne _. by destruct (Hne (email s)).
Qed.

Lemma paused_key_inj a b : paused_key a = paused_key b -> a = b.
Proof. unfold paused_key. intros H. by simplify_eq. Qed.

(** X12. A pause flag changes only in an iteration whose send failed with
    a rate-limit-shaped error, and only the flag of that iteration's
    candidate: a successful send, a fatal error, a render failure or a
    skip never pauses anybody. *)
Theorem pause_flag_written_only_on_rate_limit pool i w l c w' l' a :
  iteration pool i w l = (c, w', l') ->
  Redis.strings (store w') !! paused_key a <> Redis.strings (store w) !! paused_key a ->
  c = Continue /\
  exists cand err,
    pool_at pool (senderIndex (startIndex j) i (List.length pool)) = Some cand /\
    a = email cand /\
    lastError l' = Some err /\ is_rate_limit (JS.message err) = true /\
    Redis.strings (store w') !! paused_key a = Some ("true", (now w' + 3600 * 1000)%Z).
Proof.
  intros Hit Hdiff.
  destruct (iteration_cases replaceTags buildEmailHtml e j pool i w l)
    as [(_ & H)|[(cand & w1 & _ & _ & H & Hs & _)
       |[(cand & cause & w1 & l1 & _ & _ & _ & H & Hs & _)
       |(cand & pdf & Hc & Hp & Hr)]]];
    try (rewrite H in Hit; injection Hit as _ <- _; try rewrite Hs in Hdiff; done).
  destruct (iteration_prepared replaceTags buildEmailHtml e j pool i w l cand pdf Hc Hp Hr)
    as (m & w2 & l1 & Hd & _ & _ & _ & _ & _ & _ & Hmode).
  rewrite Hd in Hit.
  assert (Redis.strings (store w2) !! paused_key a = Redis.strings (store w) !! paused_key a)
    as E2.
  { destruct (String.eqb (job_deliveryMethod j) "attachment");
      destruct Hmode as [-> _]; [done|].
    rewrite lookup_insert_ne; [done|]. intros E. symmetry in E. by apply keys_differ in E. }
  destruct (deliver_cases e j cand i (transportConfig cand) m w2 l1)
    as [(_ & w3 & l3 & H & _ & Hst & _)
       |[(err & _ & Hrl & w3 & l3 & H & _ & Hl3 & _ & _ & Hst)
        |(err & _ & _ & w3 & l3 & H & _ & Hst & _)]];
    rewrite H in Hit; injection Hit as <- <- <-;
    try (rewrite Hst, E2 in Hdiff; done).
  split; [done|]. exists cand, err.
  destruct (decide (paused_key a = paused_key (email cand))) as [Ek|Hne].
  - apply paused_key_inj in Ek as ->. do 4 (split; [done|]).
    by rewrite Hst, lookup_insert_eq.
  - rewrite Hst, lookup_insert_ne in Hdiff by done. by rewrite E2 in Hdiff.
Qed.


(** X13. The throttle delay: between 8 and 20 seconds, or between 25 and
    45 seconds when the recipient's domain, in lower case, is one of the
    strict domains.  The block takes one random number for the delay, a
    second one for a strict domain, and one more for the id of the
    telemetry entry it writes; it touches neither the string store nor
    the outbox. *)
Theorem throttle_window (w : World) :
  let delay := (now (throttle e j w) - now w)%Z in
  (if existsb (String.eqb (recipientDomain (recipient (data j)))) strictDomains
   then (25000 <= delay <= 45000)%Z /\ draws (throttle e j w) = S (S (S (draws w)))
   else (8000 <= delay <= 20000)%Z /\ draws (throttle e j w) = S (S (draws w))) /\
  Redis.strings (store (throttle e j w)) = Redis.strings (store w) /\
  outbox (throttle e j w) = outbox w.
Proof.
  unfold throttle.
  destruct (existsb (String.eqb (recipientDomain (recipient (data j)))) strictDomains);
    cbn [now elapse emitLiveLog with_store with_draws draws store outbox];
    (split; [split; [|done]|done]).
  - pose proof (Z.mod_pos_bound (Z.of_nat (random e (S (draws w)))) (45000 - 25000 + 1)
                  ltac:(lia)). lia.
  - pose proof (Z.mod_pos_bound (Z.of_nat (random e (draws w))) (20000 - 8000 + 1)
                  ltac:(lia)). lia.
Qed.

Lemma throttle_floor w : (now w + 8000 <= now (throttle e j w))%Z.
Proof.
  unfold throttle.
  destruct (existsb (String.eqb (recipientDomain (recipient (data j)))) strictDomains);
    cbn [now elapse emitLiveLog with_store with_draws draws store outbox].
  - pose proof (Z.mod_pos_bound (Z.of_nat (random e (S (draws w)))) (45000 - 25000 + 1)
                  ltac:(lia)). lia.
  - pose proof (Z.mod_pos_bound (Z.of_nat (random e (draws w))) (20000 - 8000 + 1)
                  ltac:(lia)). lia.
Qed.

Lemma iteration_clock pool i w l c w' l' :
  (forall n, (0 <= render_ms e n)%Z /\ (0 <= send_ms e n)%Z) ->
  iteration pool i w l = (c, w', l') -> (now w <= now w')%Z.
Proof.
  intros Hpos Hit. destruct (Hpos i) as [Hr0 Hs0].
  destruct (iteration_cases replaceTags buildEmailHtml e j pool i w l)
    as [(_ & H)|[(cand & w1 & _ & _ & H & _ & Hn & _)
       |[(cand & cause & w1 & l1 & _ & _ & _ & H & _ & _ & Hn)
       |(cand & pdf & Hc & Hp & Hr)]]];
    try (rewrite H in Hit; injection Hit as _ <- _; lia).
  destruct (iteration_prepared replaceTags buildEmailHtml e j pool i w l cand pdf Hc Hp Hr)
    as (m & w2 & l1 & Hd & _ & _ & Hn2 & _).
  rewrite Hd in Hit.
  destruct (deliver_cases e j cand i (transportConfig cand) m w2 l1)
    as [(_ & w3 & l3 & H & _ & _ & _ & Hn)
       |[(err & _ & _ & w3 & l3 & H & _ & _ & Hn & _)
        |(err & _ & _ & w3 & l3 & H & _ & _ & _ & Hn)]];
    rewrite H in Hit; injection Hit as _ <- _; lia.
Qed.

Lemma rotate_clock pool : forall remaining i w l c w' l',
  (forall n, (0 <= render_ms e n)%Z /\ (0 <= send_ms e n)%Z) ->
  rotate pool remaining i w l = (c, w', l') -> (now w <= now w')%Z.
Proof.
  induction remaining as [|r IH]; intros i w l c w' l' Hpos H.
  - injection H as _ <- _. lia.
  - rewrite rotate_step in H.
    destruct (iteration pool i w l) as [[c1 w1] l1] eqn:Hit.
    pose proof (iteration_clock pool i w l c1 w1 l1 Hpos Hit).
    destruct c1; try (injection H as _ <- _; lia).
    pose proof (IH (S i) w1 l1 c w' l' Hpos H). lia.
Qed.

(** X14. Every completed job holds the worker for at least eight
    seconds: when rendering and sending take no negative time, the clock
    at the end of a completed job is at least 8000 ms after its start. *)
Theorem completed_job_takes_eight_seconds (w : World) (v : JobReturn) (w' : World) :
  (forall n, (0 <= render_ms e n)%Z /\ (0 <= send_ms e n)%Z) ->
  emailWorker w = (Completed v, w') ->
  (now w + 8000 <= now w')%Z.
Proof.
  intros Hpos. unfold Worker.emailWorker, Worker.attempt_job.
  destruct (senderPool (data j)) as [[|s0 pool]|]; try done.
  destruct (rotate (s0 :: pool) (List.length (s0 :: pool)) 0 w initial_locals)
    as [[c w1] l1] eqn:Hr.
  pose proof (rotate_clock _ _ _ _ _ _ _ _ Hpos Hr) as Hclock.
  pose proof (throttle_floor w1) as Hfloor.
  destruct c; [| |done];
    (destruct (negb (success l1)); [by destruct (lastError l1)|]);
    (destruct (selectedSender l1); [|done]);
    intros H; injection H as _ <-; lia.
Qed.

Lemma rpush_trim_bounded r x :
  (List.length (Redis.live_dispatch_logs (Redis.rpush_trim r x)) <= 100)%nat.
Proof.
  unfold Redis.rpush_trim. cbn [Redis.live_dispatch_logs].
  rewrite length_drop. lia.
Qed.

(** X15. No job failure goes unrecorded, and the telemetry list stays
    bounded: after any job the list has at most 100 entries, and when the
    job failed its last entry is the error event that carries the
    failure reason. *)
Theorem job_leaves_bounded_telemetry_and_logs_failure (w : World) :
  (List.length (Redis.live_dispatch_logs (store (emailWorker w).2)) <= 100)%nat /\
  forall reason,
    (emailWorker w).1 = Failed reason ->
    last (Redis.live_dispatch_logs (store (emailWorker w).2))
    = Some {| Telemetry.jobId := JS.or_else (Some (id j)) "N/A";
              Telemetry.message := Telemetry.LogJobFailed (JS.message reason);
              Telemetry.type := Telemetry.SevError |}.
Proof.
  assert (forall jobId m t w0,
            last (Redis.live_dispatch_logs (store (emitLiveLog jobId m t w0)))
            = Some {| Telemetry.jobId := jobId; Telemetry.message := m; Telemetry.type := t |})
    as Hlast.
  { intros jobId m t w0. unfold emitLiveLog, with_draws, with_store, Redis.rpush_trim.
    cbn [store Redis.live_dispatch_logs].
    set (l := (Redis.live_dispatch_logs (store w0) ++ _)%list).
    assert (last l = Some {| Telemetry.jobId := jobId; Telemetry.message := m;
                             Telemetry.type := t |}) as H by apply last_snoc.
    rewrite <- (take_drop (List.length l - 100) l) in H. rewrite last_app in H.
    destruct (last (drop (List.length l - 100) l)) eqn:Hd; [done|].
    apply last_None in Hd. apply (f_equal List.length) in Hd.
    rewrite length_drop in Hd. unfold l in Hd. rewrite length_app in Hd.
    simpl in Hd. lia. }
  assert (forall w0,
            (List.length (Redis.live_dispatch_logs (store (throttle e j w0))) <= 100)%nat)
    as Hthrottle.
  { intros w0. unfold throttle. destruct (existsb _ _);
      cbn [elapse store emitLiveLog with_store]; apply rpush_trim_bounded. }
  unfold Worker.emailWorker.
  destruct (attempt_job w) as [[v|err] w1] eqn:Ha; cbn [fst snd].
  - split; [|done].
    unfold Worker.attempt_job in Ha.
    destruct (senderPool (data j)) as [[|s0 pool]|]; try done.
    destruct (rotate (s0 :: pool) (List.length (s0 :: pool)) 0 w initial_locals)
      as [[c w2] l2].
    destruct c; [| |done];
      (destruct (negb (success l2)); [by destruct (lastError l2)|]);
      (destruct (selectedSender l2); [|done]);
      injection Ha as _ <-; apply Hthrottle.
  - split; [apply rpush_trim_bounded|].
    intros reason H. injection H as <-. apply Hlast.
Qed.

End RotationMoreFacts.

Section RotationMoreWitnesses.

Import Worker Examples MoreExamples.

Local Open Scope string_scope.

Lemma rotation_examines_each_sender_once_witness :
  Permutation
    (map (fun i => senderIndex 5 i (List.length [alice; bob])) (seq 0 (List.length [alice; bob])))
    (map Z.of_nat (seq 0 (List.length [alice; bob]))) /\
  forall i, exists s,
    pool_at [alice; bob] (senderIndex 5 i (List.length [alice; bob])) = Some s /\
    In s [alice; bob].
Proof.
  refine (rotation_examines_each_sender_once [alice; bob] 5 _ _ _);
    [lia|vm_compute; discriminate|discriminate].
Defined.

Lemma render_failure_is_fatal_witness :
  exists w' l',
    rotate plain_replaceTags plain_buildEmailHtml env_render_crash
      (sample_job "1" [alice] None) [alice] 1 0 fresh_world initial_locals
    = (Throw (render_error "Protocol error: Target closed"), w', l') /\
    outbox w' = outbox fresh_world /\
    Redis.strings (store w') = Redis.strings (store fresh_world).
Proof.
  destruct (render_failure_is_fatal plain_replaceTags plain_buildEmailHtml env_render_crash
              (sample_job "1" [alice] None) [alice] 0 0 fresh_world initial_locals alice
              "Protocol error: Target closed" eq_refl eq_refl eq_refl)
    as (w' & l' & H1 & H2 & H3 & _).
  exists w', l'. exact (conj H1 (conj H2 H3)).
Defined.

Lemma first_available_sender_delivers_witness :
  exists w' m,
    emailWorker plain_replaceTags plain_buildEmailHtml (env_answering None)
      (sample_job "2" [alice; bob] None) alice_paused
    = (Completed {| ret_invoiceNumber := generateInvoiceId (env_answering None);
                    ret_sender := email bob |}, w') /\
    outbox w' = (outbox alice_paused ++ [(transportConfig bob, m)])%list /\
    mail_from_address m = email bob /\
    forall a, Redis.strings (store w') !! paused_key a
              = Redis.strings (store alice_paused) !! paused_key a.
Proof.
  refine (first_available_sender_delivers plain_replaceTags plain_buildEmailHtml
            (env_answering None) (sample_job "2" [alice; bob] None)
            [alice; bob] 1 alice_paused bob pdf_bytes eq_refl _ _ eq_refl eq_refl eq_refl _).
  - simpl. lia.
  - intros k Hk. assert (k = 0)%nat as -> by lia. exists alice. split; reflexivity.
  - reflexivity.
Defined.

Lemma completed_job_names_its_sender_witness :
  ret_invoiceNumber {| ret_invoiceNumber := "INV-1A2B3C4D"; ret_sender := "alice@example.com" |}
  = generateInvoiceId (env_answering None) /\
  exists s m,
    In s (default [] (senderPool (data (sample_job "1" [alice] None)))) /\
    ret_sender {| ret_invoiceNumber := "INV-1A2B3C4D"; ret_sender := "alice@example.com" |}
    = email s /\
    last (outbox (run None "1" [alice] None fresh_world).2) = Some (transportConfig s, m) /\
    mail_from_address m = email s.
Proof.
  refine (completed_job_names_its_sender plain_replaceTags plain_buildEmailHtml
            (env_answering None) (sample_job "1" [alice] None) fresh_world
            {| ret_invoiceNumber := "INV-1A2B3C4D"; ret_sender := "alice@example.com" |}
            (run None "1" [alice] None fresh_world).2 _).
  vm_compute. reflexivity.
Defined.

Lemma pause_flag_written_only_on_rate_limit_witness :
  (iteration plain_replaceTags plain_buildEmailHtml (env_answering (Some rate_limited))
     (sample_job "1" [alice] None) [alice] 0 fresh_world initial_locals).1.1 = Continue.
Proof.
  destruct (pause_flag_written_only_on_rate_limit plain_replaceTags plain_buildEmailHtml
              (env_answering (Some rate_limited)) (sample_job "1" [alice] None) [alice] 0
              fresh_world initial_locals
              (iteration plain_replaceTags plain_buildEmailHtml
                 (env_answering (Some rate_limited))
                 (sample_job "1" [alice] None) [alice] 0 fresh_world initial_locals).1.1
              (iteration plain_replaceTags plain_buildEmailHtml
                 (env_answering (Some rate_limited))
                 (sample_job "1" [alice] None) [alice] 0 fresh_world initial_locals).1.2
              (iteration plain_replaceTags plain_buildEmailHtml
                 (env_answering (Some rate_limited))
                 (sample_job "1" [alice] None) [alice] 0 fresh_world initial_locals).2
              "alice@example.com") as [H _].
  - vm_compute. reflexivity.
  - vm_compute. discriminate.
  - exact H.
Defined.

Lemma completed_job_takes_eight_seconds_witness :
  (now fresh_world + 8000 <= now (run None "1" [alice] None fresh_world).2)%Z.
Proof.
  refine (completed_job_takes_eight_seconds plain_replaceTags plain_buildEmailHtml
            (env_answering None) (sample_job "1" [alice] None) fresh_world
            {| ret_invoiceNumber := "INV-1A2B3C4D"; ret_sender := "alice@example.com" |}
            (run None "1" [alice] None fresh_world).2 _ _).
  - intros n. simpl. lia.
  - vm_compute. reflexivity.
Defined.

End RotationMoreWitnesses.

(* ===================================================================== *)
(** * More on the gate and the routes *)
(* ===================================================================== *)

Section GateMoreFacts.
Import Gate.
Local Open Scope string_scope.

Variable cloaking_matches : string -> list flag.
Variable link_matches : string -> list flag.
Variable resolveTxt : string -> dns_answer.

Local Abbreviation segMiddleware := (segMiddleware cloaking_matches link_matches resolveTxt).
Local Abbreviation runPreFlightCheck := (runPreFlightCheck cloaking_matches link_matches resolveTxt).
Local Abbreviation verifyInfrastructure := (verifyInfrastructure resolveTxt).
Local Abbreviation check_spf := (check_spf resolveTxt).
Local Abbreviation check_dmarc := (check_dmarc resolveTxt).

Lemma not_found_false code :
  not_found code = false <-> code <> "ENOTFOUND" /\ code <> "ENODATA".
Proof.
  unfold not_found. rewrite orb_false_iff.
  destruct (String.eqb_spec code "ENOTFOUND"), (String.eqb_spec code "ENODATA");
    split; intros [? ?]; try done; split; congruence.
Qed.

Lemma existsb_starts (records : list string) (p : string) :
  existsb (fun r => JS.startsWith r p) records = true
  <-> exists r, In r records /\ JS.startsWith r p = true.
Proof. apply existsb_exists. Qed.

Lemma check_spf_clean d :
  (check_spf d).1 = [] <->
  match resolveTxt d with
  | Records raw => exists r, In r (map JS.join raw) /\ JS.startsWith r "v=spf1" = true
  | DnsError code => code <> "ENOTFOUND" /\ code <> "ENODATA"
  end.
Proof.
  unfold Gate.check_spf. destruct (resolveTxt d) as [raw|code].
  - rewrite <- existsb_starts. by destruct (existsb _ _).
  - rewrite <- not_found_false. by destruct (not_found code).
Qed.

Lemma check_dmarc_clean d :
  (check_dmarc d).1 = [] <->
  match resolveTxt ("_dmarc." ++ d) with
  | Records raw => exists r, In r (map JS.join raw) /\ JS.startsWith r "v=DMARC1" = true
  | DnsError code => code <> "ENOTFOUND" /\ code <> "ENODATA"
  end.
Proof.
  unfold Gate.check_dmarc. destruct (resolveTxt ("_dmarc." ++ d)) as [raw|code].
  - rewrite <- existsb_starts. by destruct (existsb _ _).
  - rewrite <- not_found_false. by destruct (not_found code).
Qed.

(** X16. The infrastructure check passes an address exactly when the
    address is not empty and holds an [@], the TXT lookup of its domain
    either returns a record that starts with [v=spf1] or fails with a code
    other than [ENOTFOUND] and [ENODATA], and the TXT lookup of [_dmarc.]
    before the domain does the same for [v=DMARC1]: a resolver failure of
    any other kind is let through. *)
Theorem infrastructure_passes_iff (a : string) :
  (verifyInfrastructure (Some a)).1 = [] <->
  a <> "" /\ JS.includes a "@" = true /\
  match resolveTxt (nth 1 (JS.split "@" a) "") with
  | Records raw => exists r, In r (map JS.join raw) /\ JS.startsWith r "v=spf1" = true
  | DnsError code => code <> "ENOTFOUND" /\ code <> "ENODATA"
  end /\
  match resolveTxt ("_dmarc." ++ nth 1 (JS.split "@" a) "") with
  | Records raw => exists r, In r (map JS.join raw) /\ JS.startsWith r "v=DMARC1" = true
  | DnsError code => code <> "ENOTFOUND" /\ code <> "ENODATA"
  end.
Proof.
  unfold Gate.verifyInfrastructure.
  rewrite <- check_spf_clean, <- check_dmarc_clean.
  unfold JS.truthy. destruct (String.eqb_spec a "") as [->|Hne]; simpl.
  - split; [done|]. by intros [? _].
  - destruct (JS.includes a "@"); simpl.
    + destruct (check_spf _) as [spf ev1], (check_dmarc _) as [dmarc ev2]. simpl.
      split.
      * intros H. apply app_eq_nil in H as [-> ->]. done.
      * intros (_ & _ & -> & ->). done.
    + split; [done|]. by intros (_ & ? & _).
Qed.

(** What the infrastructure check looks up: nothing for an unusable
    address, the domain and its _dmarc name otherwise. *)
Lemma verifyInfrastructure_lookups (a : option string) :
  filter (fun ev => is_check ev) (verifyInfrastructure a).2
  = if JS.truthy_opt a && JS.includes (default "" a) "@"
    then [ResolveTxt (nth 1 (JS.split "@" (default "" a)) "");
          ResolveTxt ("_dmarc." ++ nth 1 (JS.split "@" (default "" a)) "")]
    else [].
Proof.
  unfold Gate.verifyInfrastructure. destruct a as [a|]; [|done]. simpl.
  destruct (JS.truthy a); simpl; [|done].
  destruct (JS.includes a "@"); simpl; [|done].
  unfold Gate.check_spf, Gate.check_dmarc.
  destruct (resolveTxt (nth 1 (JS.split "@" a) "")) as [raw|code];
    [destruct (existsb _ _)|destruct (not_found code)];
    (destruct (resolveTxt ("_dmarc." ++ nth 1 (JS.split "@" a) "")) as [raw'|code'];
     [destruct (existsb _ _)|destruct (not_found code')]); reflexivity.
Qed.

(** X17. For a request with a message body the middleware runs the two
    scans and the infrastructure check and decides on their flags taken
    together: [next()] when there is none, otherwise 400 with all of them,
    cloaking flags first, then link flags, then infrastructure flags. *)
Theorem gate_decision (b : body) :
  JS.truthy_opt (emailBody b) = true ->
  let flags :=
    (scanHtmlDomForCloaking cloaking_matches (emailBody b)
     ++ scanLinkIntegrity link_matches (emailBody b)
     ++ (verifyInfrastructure (primarySenderEmail b)).1)%list in
  (segMiddleware (Some b)).1
  = match flags with
    | [] => Next
    | _ => Status400 flags
    end /\
  In (CloakingScan (emailBody b)) (segMiddleware (Some b)).2 /\
  In (LinkScan (emailBody b)) (segMiddleware (Some b)).2.
Proof.
  intros Hb. unfold Gate.segMiddleware, Gate.runPreFlightCheck. rewrite Hb. simpl negb.
  cbv iota. destruct (verifyInfrastructure (primarySenderEmail b)) as [infra ev].
  cbn [fst].
  set (flags := (scanHtmlDomForCloaking cloaking_matches (emailBody b)
                 ++ scanLinkIntegrity link_matches (emailBody b) ++ infra)%list).
  destruct flags as [|f fl]; cbn [List.length Nat.ltb Nat.leb fst snd];
    (split; [done|]); split; apply in_or_app; left; apply in_or_app; right;
    apply in_or_app; right; simpl; auto.
Qed.

End GateMoreFacts.

Section ApiMoreFacts.
Import Api.
Local Open Scope string_scope.

(** The job data that the dispatch handler builds for one recipient. *)
Local Abbreviation job_data b := (fun recipient =>
  {| Worker.recipient := recipient;
     Worker.invoiceDetails := req_invoiceDetails b;
     Worker.emailSubject := req_emailSubject b;
     Worker.emailBody := req_emailBody b;
     Worker.senderPool := req_senderPool b;
     Worker.deliveryMethod := req_deliveryMethod b;
     Worker.senderName := None |}).

Lemma add_all now (f : Worker.Recipient -> Worker.JobData) : forall rows q,
  let q' := fold_left (fun q r => add q now (f r)) rows q in
  counter q' = (counter q + List.length rows)%nat /\
  map job (wait q')
  = (map job (wait q)
     ++ imap (fun i r => {| Worker.id := JS.decimal (S (counter q + i));
                            Worker.data := f r |}) rows)%list /\
  active q' = active q /\ delayed q' = delayed q /\
  completed q' = completed q /\ failed q' = failed q /\ paused q' = paused q.
Proof.
  induction rows as [|r rows IH]; intros q; cbn zeta.
  - simpl. rewrite Nat.add_0_r, app_nil_r. done.
  - cbn [fold_left]. destruct (IH (add q now (f r))) as (Hc & Hw & Ha & Hd & Hcp & Hf & Hp).
    cbn zeta in *. rewrite Hc, Hw, Ha, Hd, Hcp, Hf, Hp. cbn [add counter wait active delayed
      completed failed paused List.length].
    split; [lia|]. split; [|done].
    rewrite map_app, <- app_assoc. cbn [map app job imap]. rewrite Nat.add_0_r.
    do 2 f_equal. apply imap_ext. intros i x _. simpl. do 3 f_equal. lia.
Qed.

Lemma post_dispatch_accepted
    (cloaking_matches link_matches : string -> list Gate.flag)
    (resolveTxt : string -> Gate.dns_answer) (now : Z) (b : DispatchBody) (s : Server) :
  (Gate.segMiddleware cloaking_matches link_matches resolveTxt (Some (gate_body b))).1
  = Gate.Next ->
  (post_dispatch cloaking_matches link_matches resolveTxt now (Some b) s).1
  = dispatch now b s.
Proof.
  unfold post_dispatch. cbn [option_map].
  destruct (Gate.segMiddleware cloaking_matches link_matches resolveTxt (Some (gate_body b)))
    as [v ev]. cbn [fst]. by intros ->.
Qed.

Lemma dispatch_accepted (now : Z) (b : DispatchBody) (s : Server)
    (rows : list Worker.Recipient) :
  csvData b = Some rows -> rows <> [] ->
  non_empty_array (req_senderPool b) = true ->
  (dispatch now b s).1 = Ok200 "Jobs Queued successfully" /\
  map job (wait (invoiceQueue (dispatch now b s).2))
  = (map job (wait (invoiceQueue s))
     ++ imap (fun i r => {| Worker.id := JS.decimal (S (counter (invoiceQueue s) + i));
                            Worker.data := job_data b r |}) rows)%list /\
  counter (invoiceQueue (dispatch now b s).2)
  = (counter (invoiceQueue s) + List.length rows)%nat /\
  (active (invoiceQueue (dispatch now b s).2) = active (invoiceQueue s) /\
   delayed (invoiceQueue (dispatch now b s).2) = delayed (invoiceQueue s) /\
   completed (invoiceQueue (dispatch now b s).2) = completed (invoiceQueue s) /\
   failed (invoiceQueue (dispatch now b s).2) = failed (invoiceQueue s)) /\
  Redis.lrange_all (connection (dispatch now b s).2) = [] /\
  Redis.strings (connection (dispatch now b s).2) = Redis.strings (connection s).
Proof.
  intros Hrows Hne Hpool. unfold dispatch. rewrite Hrows, Hpool.
  destruct rows as [|r rows]; [done|]. cbn [non_empty_array negb fst snd invoiceQueue connection].
  destruct (add_all now (job_data b) (r :: rows) (invoiceQueue s))
    as (Hc & Hw & Ha & Hd & Hcp & Hf & _).
  cbn zeta in *. done.
Qed.

(** X18. A dispatch request that names at least one recipient and one
    sender and that the security middleware lets through is answered
    200, and it queues one job per recipient: behind the jobs already
    waiting and in the order of the rows, numbered on from the queue's
    counter, each with the request's templates, sender pool and delivery
    method.  It empties the telemetry list and touches nothing else:
    the other job categories and the string keys stay as they were. *)
Theorem dispatch_queues_one_job_per_recipient
    (cloaking_matches link_matches : string -> list Gate.flag)
    (resolveTxt : string -> Gate.dns_answer) (now : Z) (b : DispatchBody) (s : Server)
    (rows : list Worker.Recipient) :
  csvData b = Some rows -> rows <> [] ->
  non_empty_array (req_senderPool b) = true ->
  (Gate.segMiddleware cloaking_matches link_matches resolveTxt (Some (gate_body b))).1
  = Gate.Next ->
  let answer := post_dispatch cloaking_matches link_matches resolveTxt now (Some b) s in
  let q := invoiceQueue s in
  let q' := invoiceQueue answer.1.2 in
  answer.1.1 = Ok200 "Jobs Queued successfully" /\
  map job (wait q')
  = (map job (wait q)
     ++ imap (fun i r => {| Worker.id := JS.decimal (S (counter q + i));
                            Worker.data := job_data b r |}) rows)%list /\
  counter q' = (counter q + List.length rows)%nat /\
  (active q' = active q /\ delayed q' = delayed q /\
   completed q' = completed q /\ failed q' = failed q) /\
  Redis.lrange_all (connection answer.1.2) = [] /\
  Redis.strings (connection answer.1.2) = Redis.strings (connection s).
Proof.
  intros Hrows Hne Hpool Hgate. cbn zeta.
  rewrite (post_dispatch_accepted _ _ _ now b s Hgate).
  by apply dispatch_accepted.
Qed.

(** X19. The dispatch route is closed by default: whatever the request,
    either it is answered 200, and then the body was parsed, named at
    least one recipient and one sender and got through the gate, or the
    server is left exactly as it was and the answer is not 200. *)
Theorem dispatch_route_changes_nothing_unless_accepted
    (cloaking_matches link_matches : string -> list Gate.flag)
    (resolveTxt : string -> Gate.dns_answer) (now : Z)
    (req_body : option DispatchBody) (s : Server) :
  let r := post_dispatch cloaking_matches link_matches resolveTxt now req_body s in
  (r.1.1 = Ok200 "Jobs Queued successfully" /\
   exists b, req_body = Some b /\
     non_empty_array (csvData b) = true /\
     non_empty_array (req_senderPool b) = true /\
     (Gate.segMiddleware cloaking_matches link_matches resolveTxt
        (Some (gate_body b))).1 = Gate.Next)
  \/ (r.1.2 = s /\ forall m, r.1.1 <> Ok200 m).
Proof.
  cbn zeta. unfold post_dispatch.
  destruct (Gate.segMiddleware cloaking_matches link_matches resolveTxt
              (option_map gate_body req_body)) as [v ev] eqn:Hg.
  destruct v as [|flags|].
  - destruct req_body as [b|]; [|by right].
    unfold dispatch.
    destruct (non_empty_array (csvData b)) eqn:Hcsv; [|by right].
    destruct (non_empty_array (req_senderPool b)) eqn:Hpool; [|by right].
    left. split; [done|]. exists b. change (option_map gate_body (Some b)) with (Some (gate_body b)) in Hg.
    by rewrite Hg.
  - right. by destruct req_body.
  - right. by destruct req_body.
Qed.

Lemma insert_newest_perm x l : Permutation (insert_newest x l) (x :: l).
Proof.
  induction l as [|y r IH]; simpl; [done|].
  destruct (job_time y <=? job_time x)%Z; [done|].
  rewrite IH. apply perm_swap.
Qed.

Lemma sort_newest_perm l : Permutation (sort_newest l) l.
Proof.
  induction l as [|x l IH]; simpl; [done|].
  rewrite insert_newest_perm. by constructor.
Qed.

Local Abbreviation newer_first := (fun a b : QueuedJob => (job_time b <= job_time a)%Z).

Lemma insert_newest_sorted x l :
  StronglySorted newer_first l -> StronglySorted newer_first (insert_newest x l).
Proof.
  induction 1 as [|y r Hr IH Hy]; simpl.
  - repeat constructor.
  - destruct (Z.leb_spec (job_time y) (job_time x)).
    + constructor; [by constructor|]. constructor; [lia|].
      eapply Forall_impl; [exact Hy|]. simpl. intros; lia.
    + constructor; [done|].
      rewrite insert_newest_perm. constructor; [lia|done].
Qed.

Lemma sort_newest_sorted l : StronglySorted newer_first (sort_newest l).
Proof.
  induction l as [|x l IH]; simpl; [constructor|]. by apply insert_newest_sorted.
Qed.

(** The sort is stable: jobs of one and the same time keep the order
    they had. *)
Lemma insert_newest_stable t x l :
  List.filter (fun y => (job_time y =? t)%Z) (insert_newest x l)
  = List.filter (fun y => (job_time y =? t)%Z) (x :: l).
Proof.
  induction l as [|y r IH]; [done|].
  cbn [insert_newest]. destruct (Z.leb_spec (job_time y) (job_time x)); [done|].
  cbn [List.filter] in *. rewrite IH.
  destruct (Z.eqb_spec (job_time y) t), (Z.eqb_spec (job_time x) t); try done. lia.
Qed.

Lemma sort_newest_stable t l :
  List.filter (fun y => (job_time y =? t)%Z) (sort_newest l)
  = List.filter (fun y => (job_time y =? t)%Z) l.
Proof.
  induction l as [|x l IH]; [done|].
  cbn [sort_newest fold_right]. rewrite insert_newest_stable.
  cbn [List.filter]. fold (sort_newest l). by rewrite IH.
Qed.

Lemma StronglySorted_take {A} (R : A -> A -> Prop) n l :
  StronglySorted R l -> StronglySorted R (take n l).
Proof.
  intros H. revert n. induction H as [|x l Hl IH Hx]; intros [|n]; simpl; try constructor.
  - apply IH.
  - by apply Forall_take.
Qed.

Lemma StronglySorted_map {A B} (R : A -> A -> Prop) (S : B -> B -> Prop) (f : A -> B) l :
  (forall a b, R a b -> S (f a) (f b)) ->
  StronglySorted R l -> StronglySorted S (map f l).
Proof.
  intros HRS. induction 1 as [|x l Hl IH Hx]; simpl; constructor; [done|].
  apply Forall_map. eapply Forall_impl; [exact Hx|]. intros. by apply HRS.
Qed.

(** X20. The job log of the status answer is made from the first 20 jobs
    of the stable newest-first sort of the first 21 completed jobs
    followed by the first 21 failed jobs: the sorted list holds the same
    jobs, its times never increase, and jobs of one and the same time
    keep the order they had (completed before failed).  So the log has
    at most 20 lines and its timestamps never increase from one line to
    the next. *)
Theorem status_logs_newest_first (s : Server) :
  let fetched :=
    (firstn 21 (completed (invoiceQueue s)) ++ firstn 21 (failed (invoiceQueue s)))%list in
  (exists sorted,
     logs (status s) = map log_line (firstn 20 sorted) /\
     Permutation sorted fetched /\
     StronglySorted (fun a b => (job_time b <= job_time a)%Z) sorted /\
     forall t, List.filter (fun x => (job_time x =? t)%Z) sorted
               = List.filter (fun x => (job_time x =? t)%Z) fetched) /\
  (List.length (logs (status s)) <= 20)%nat /\
  StronglySorted (fun a b => (log_timestamp b <= log_timestamp a)%Z) (logs (status s)).
Proof.
  cbn zeta. unfold status, getJobs. cbn [logs]. split; [|split].
  - eexists. split; [reflexivity|]. split; [apply sort_newest_perm|].
    split; [apply sort_newest_sorted|]. intros t. apply sort_newest_stable.
  - rewrite length_map, length_take. lia.
  - apply StronglySorted_map with (R := newer_first); [done|].
    apply StronglySorted_take, sort_newest_sorted.
Qed.

End ApiMoreFacts.

Section FetchFacts.
Import Worker Fetch.
Local Open Scope string_scope.

Variable replaceTags : option string -> Recipient -> string -> option string -> option string -> string.
Variable buildEmailHtml : HtmlArgs -> string.
Variable e : Env.
Variable j : Job.

Local Abbreviation iteration := (iteration replaceTags buildEmailHtml e j).
Local Abbreviation rotate := (rotate replaceTags buildEmailHtml e j).
Local Abbreviation emailWorker := (emailWorker replaceTags buildEmailHtml e j).

Lemma base64_nonempty pdf : pdf <> [] -> JS.truthy (JS.base64 pdf) = true.
Proof.
  intros H. destruct pdf as [|a [|b [|c rest]]]; [done|reflexivity..].
Qed.

Lemma rotate_break_stored pool : forall remaining i w l w' l',
  (forall n, (0 <= render_ms e n)%Z /\ (0 <= send_ms e n)%Z) ->
  String.eqb (job_deliveryMethod j) "attachment" = false ->
  rotate pool remaining i w l = (Break, w', l') ->
  exists k pdf expires,
    renderPdf e k = Rendered pdf /\
    Redis.strings (store w') !! invoice_key (generateInvoiceId e)
    = Some (JS.base64 pdf, expires) /\
    (now w + 86400 * 30 * 1000 <= expires <= now w' + 86400 * 30 * 1000)%Z.
Proof.
  induction remaining as [|r IH]; intros i w l w' l' Hpos Hmode H; [done|].
  rewrite rotate_step in H.
  destruct (iteration pool i w l) as [[c1 w1] l1] eqn:Hit.
  destruct c1; [| |done].
  - destruct (IH (S i) w1 l1 w' l' Hpos Hmode H) as (k & pdf & t & Hr & Hk & Ht).
    pose proof (iteration_clock replaceTags buildEmailHtml e j pool i w l _ _ _ Hpos Hit).
    exists k, pdf, t. do 2 (split; [done|]). lia.
  - injection H as <- <-.
    destruct (iteration_cases replaceTags buildEmailHtml e j pool i w l)
      as [(_ & H)|[(cand & w2 & _ & _ & H & _)
         |[(cand & cause & w2 & l2 & _ & _ & _ & H & _)
         |(cand & pdf & Hc & Hp & Hr)]]]; try congruence.
    destruct (iteration_prepared replaceTags buildEmailHtml e j pool i w l cand pdf Hc Hp Hr)
      as (m & w2 & l2 & Hd & _ & _ & Hn2 & _ & _ & _ & Hst2).
    rewrite Hmode in Hst2. destruct Hst2 as [Hst2 _].
    rewrite Hd in Hit.
    destruct (deliver_cases e j cand i (transportConfig cand) m w2 l2)
      as [(_ & w3 & l3 & H & _ & Hst & _ & Hn)
         |[(err & _ & _ & w3 & l3 & H & _)
          |(err & _ & _ & w3 & l3 & H & _)]];
      rewrite H in Hit; try done.
    injection Hit as <- <-.
    exists i, pdf, (now w + render_ms e i + 86400 * 30 * 1000)%Z.
    split; [done|]. split; [by rewrite Hst, Hst2, lookup_insert_eq|].
    destruct (Hpos i). lia.
Qed.

(** X21. What a completed job stored can be fetched: after a job that
    completed in a delivery mode other than attachment, the invoice
    route answers a request for the invoice number of the job's result
    with the base64 text of a rendered document until the key expires,
    30 days after the rendering (between 30 days after the start and 30
    days after the end of the job), and with 404 from then on. *)
Theorem completed_link_job_can_be_fetched (w : World) (v : JobReturn) (w' : World)
    (q : Api.Queue) :
  (forall n, (0 <= render_ms e n)%Z /\ (0 <= send_ms e n)%Z) ->
  String.eqb (job_deliveryMethod j) "attachment" = false ->
  emailWorker w = (Completed v, w') ->
  exists i pdf expires,
    renderPdf e i = Rendered pdf /\
    (now w + 86400 * 30 * 1000 <= expires <= now w' + 86400 * 30 * 1000)%Z /\
    forall T,
      get_invoice T (ret_invoiceNumber v) {| Api.invoiceQueue := q; Api.connection := store w' |}
      = if ((T <? expires)%Z && negb (bool_decide (pdf = [])))%bool
        then InvoiceFound (JS.base64 pdf)
        else InvoiceNotFound404 "Invoice not found or expired".
Proof.
  intros Hpos Hmode. unfold Worker.emailWorker, Worker.attempt_job.
  destruct (senderPool (data j)) as [[|s0 pool]|]; try done.
  destruct (rotate (s0 :: pool) (List.length (s0 :: pool)) 0 w initial_locals)
    as [[c w1] l1] eqn:Hr.
  destruct c; [| |done].
  - assert (no_success_yet w w initial_locals) as Hinit by done.
    destruct (rotate_no_success replaceTags buildEmailHtml e j w _ _ _ _ _ _ _ Hr Hinit)
      as (Hs & _).
    rewrite Hs. simpl. by destruct (lastError l1).
  - destruct (rotate_break replaceTags buildEmailHtml e j _ _ _ _ _ _ _ Hr) as (Hs & s & m & Hsel & _).
    destruct (rotate_break_stored _ _ _ _ _ _ _ Hpos Hmode Hr) as (k & pdf & t & Hrk & Hk & Ht).
    rewrite Hs, Hsel. simpl. intros H. injection H as <- <-.
    pose proof (throttle_floor e j w1) as Hfloor.
    exists k, pdf, t. split; [done|]. split; [lia|].
    intros T. unfold get_invoice, Redis.get. cbn [Api.connection ret_invoiceNumber].
    rewrite throttle_same, Hk.
    destruct (T <? t)%Z; [|done]. simpl.
    destruct pdf as [|a [|b [|c rest]]]; reflexivity.
Qed.

End FetchFacts.

Section PreviewFacts.
Import Preview.
Local Open Scope string_scope.

Lemma lower_char_brace c : JS.lower_char c = "{"%char -> c = "{"%char.
Proof.
  destruct c as [[] [] [] [] [] [] [] []]; vm_compute; intros H; congruence.
Qed.

Lemma append_cons (x : ascii) (a b : string) : String x a ++ b = String x (a ++ b).
Proof. reflexivity. Qed.

Lemma append_nil_l (b : string) : "" ++ b = b.
Proof. reflexivity. Qed.

Lemma append_assoc_s (a b c : string) : (a ++ b) ++ c = a ++ b ++ c.
Proof. induction a as [|x a IH]; [done|]. rewrite !append_cons. by f_equal. Qed.

Lemma append_nil_s (a : string) : a ++ "" = a.
Proof. induction a as [|x a IH]; [done|]. rewrite append_cons. by f_equal. Qed.

Lemma lower_append (a b : string) :
  JS.toLowerCase (a ++ b) = JS.toLowerCase a ++ JS.toLowerCase b.
Proof.
  induction a as [|x a IH]; [done|].
  rewrite append_cons. cbn [JS.toLowerCase]. rewrite append_cons. by f_equal.
Qed.

Lemma lower_length (a : string) : String.length (JS.toLowerCase a) = String.length a.
Proof.
  induction a as [|x a IH]; cbn [String.length JS.toLowerCase]; [done|]. by f_equal.
Qed.

Lemma matches_here_lower pat : forall s,
  matches_here pat s = String.prefix (JS.toLowerCase pat) (JS.toLowerCase s).
Proof.
  induction pat as [|p pat IH]; intros [|c s]; try reflexivity.
  cbn [matches_here JS.toLowerCase String.prefix]. unfold same_letter.
  destruct (ascii_dec (JS.lower_char p) (JS.lower_char c)) as [E|N].
  - rewrite E, Ascii.eqb_refl. apply IH.
  - apply Ascii.eqb_neq in N. by rewrite N.
Qed.

Lemma prefix_append (p s : string) : String.prefix p (p ++ s) = true.
Proof.
  induction p as [|c p IH]; [by destruct s|].
  rewrite append_cons. cbn [String.prefix].
  destruct (ascii_dec c c); [done|congruence].
Qed.

Lemma includes_cons (c : ascii) (r sub : string) :
  JS.includes (String c r) sub = String.prefix sub (String c r) || JS.includes r sub.
Proof. reflexivity. Qed.

Lemma no_brace_cons (c : ascii) (r : string) :
  JS.includes (String c r) "{" = false -> c <> "{"%char /\ JS.includes r "{" = false.
Proof.
  rewrite includes_cons. intros H. apply orb_false_iff in H as [H1 H2]. split; [|done].
  intros ->. cbn [String.prefix] in H1.
  destruct (ascii_dec "{" "{"); [by destruct r|done].
Qed.

Lemma no_brace_app (a b : string) :
  JS.includes a "{" = false -> JS.includes b "{" = false ->
  JS.includes (a ++ b) "{" = false.
Proof.
  induction a as [|c a IH]; intros Ha Hb; [done|].
  apply no_brace_cons in Ha as [Hc Ha]. rewrite append_cons, includes_cons.
  rewrite (IH Ha Hb), orb_false_r. cbn [String.prefix].
  destruct (ascii_dec "{" c); [congruence|done].
Qed.

(** A stretch without an opening brace hides no occurrence of a pattern
    that starts with one. *)
Lemma includes_after_brace_free (x y p : string) :
  JS.includes x "{" = false ->
  JS.includes (JS.toLowerCase x ++ y) (String "{" p) = JS.includes y (String "{" p).
Proof.
  induction x as [|c x IH]; intros Hx; [done|].
  apply no_brace_cons in Hx as [Hc Hx].
  cbn [JS.toLowerCase]. rewrite append_cons, includes_cons, (IH Hx).
  cbn [String.prefix].
  destruct (ascii_dec "{" (JS.lower_char c)) as [E|_]; [|done].
  symmetry in E. by apply lower_char_brace in E.
Qed.

(** Where the lowered text holds no occurrence of the lowered pattern,
    the replacement changes nothing. *)
Lemma replace_from_inert pat repl : forall s before,
  JS.includes (JS.toLowerCase s) (JS.toLowerCase pat) = false ->
  replace_from pat repl before 0 s = s.
Proof.
  induction s as [|c s IH]; intros before H; [done|].
  cbn [JS.toLowerCase] in H. rewrite includes_cons in H.
  apply orb_false_iff in H as [H1 H2].
  cbn [replace_from]. rewrite matches_here_lower. cbn [JS.toLowerCase]. rewrite H1.
  by rewrite IH.
Qed.

Lemma replace_from_brace_free pat' repl rest : forall x before,
  JS.includes x "{" = false ->
  exists before',
    replace_from (String "{" pat') repl before 0 (x ++ rest)
    = x ++ replace_from (String "{" pat') repl before' 0 rest.
Proof.
  induction x as [|c x IH]; intros before Hx; [by exists before|].
  apply no_brace_cons in Hx as [Hc Hx].
  destruct (IH (before ++ String c "") Hx) as (before' & E).
  exists before'. rewrite append_cons. cbn [replace_from matches_here]. unfold same_letter.
  destruct (Ascii.eqb_spec (JS.lower_char "{") (JS.lower_char c)) as [E'|_].
  - symmetry in E'. by apply lower_char_brace in E'.
  - cbn [andb]. by rewrite E.
Qed.

Lemma replace_from_skip pat repl rest : forall x before,
  exists before',
    replace_from pat repl before (String.length x) (x ++ rest)
    = replace_from pat repl before' 0 rest.
Proof.
  induction x as [|c x IH]; intros before; [by exists before|].
  destruct (IH (before ++ String c "")) as (before' & E).
  exists before'. rewrite append_cons. cbn [String.length replace_from]. exact E.
Qed.

Lemma expand_plain repl matched before after :
  JS.includes repl "$" = false -> expand repl matched before after = repl.
Proof.
  induction repl as [|d r IH]; intros H; [done|].
  rewrite includes_cons in H. apply orb_false_iff in H as [H1 H2].
  cbn [expand]. destruct (Ascii.eqb_spec d "$") as [->|_].
  - simpl in H1. by destruct r.
  - by rewrite IH.
Qed.

(** Steps the search for a pattern over literal characters at which it
    does not occur. *)
Ltac walk_literal :=
  repeat (rewrite includes_cons; cbn [String.prefix];
          repeat (destruct (ascii_dec _ _); try congruence); cbn [orb]).

(** One pass over a text with one occurrence of the tag. *)
Lemma replace_all_one pat' repl a t rest :
  JS.includes a "{" = false ->
  JS.toLowerCase t = JS.toLowerCase (String "{" pat') ->
  JS.includes repl "$" = false ->
  JS.includes (JS.toLowerCase rest) (JS.toLowerCase (String "{" pat')) = false ->
  replace_all (String "{" pat') repl (a ++ t ++ rest) = a ++ repl ++ rest.
Proof.
  intros Ha Ht Hrepl Hrest. unfold replace_all.
  destruct (replace_from_brace_free pat' repl (t ++ rest) a "" Ha) as (before & ->).
  f_equal.
  assert (String.length t = String.length (String "{" pat')) as Hlen
    by (by rewrite <- (lower_length t), Ht, lower_length).
  destruct t as [|c t]; [done|].
  rewrite append_cons. cbn [replace_from]. rewrite <- append_cons.
  rewrite matches_here_lower, lower_append, Ht, prefix_append.
  rewrite expand_plain by done. f_equal.
  cbn [String.length] in Hlen. injection Hlen as Hlen.
  cbn [String.length]. rewrite Nat.sub_succ, Nat.sub_0_r, <- Hlen.
  destruct (replace_from_skip (String "{" pat') repl rest t (before ++ String c ""))
    as (before' & ->).
  by apply replace_from_inert.
Qed.

Lemma includes_lower_tag p : forall t,
  JS.includes t "{{" = false ->
  JS.includes (JS.toLowerCase t) (String "{" (String "{" p)) = false.
Proof.
  induction t as [|c t IH]; intros H; [done|].
  rewrite includes_cons in H. apply orb_false_iff in H as [H1 H2].
  cbn [JS.toLowerCase]. rewrite includes_cons, (IH H2), orb_false_r.
  cbn [String.prefix].
  destruct (ascii_dec "{" (JS.lower_char c)) as [E|_]; [|done].
  destruct t as [|c' t]; [done|]. cbn [JS.toLowerCase String.prefix].
  destruct (ascii_dec "{" (JS.lower_char c')) as [E'|_]; [|done].
  symmetry in E, E'. apply lower_char_brace in E as ->. apply lower_char_brace in E' as ->.
  destruct t; vm_compute in H1; done.
Qed.

(** X22. A template without a double opening brace comes out of the
    preview as it went in, for every row and invoice number: plain text,
    single-brace placeholders and spintax groups are left as written. *)
Theorem preview_keeps_text_without_tags (r : Worker.Recipient) (n t : string) :
  JS.includes t "{{" = false ->
  replaceTags r n (Some t) = t.
Proof.
  intros H. unfold replaceTags. cbn [JS.truthy_opt default from_option id]. unfold JS.truthy.
  destruct (String.eqb_spec t "") as [->|_]; [done|]. cbn [negb].
  unfold replace_all.
  rewrite (replace_from_inert "{{Name}}" _ t)
    by exact (includes_lower_tag "name}}" t H).
  rewrite (replace_from_inert "{{Email}}" _ t)
    by exact (includes_lower_tag "email}}" t H).
  apply replace_from_inert. exact (includes_lower_tag "invoice_number}}" t H).
Qed.

(** X23. The three tags of the preview are matched in any letter case
    and replaced by the row's name, the row's address and the invoice
    number, the text around them staying as it is, when the surrounding
    text and the three values hold no opening brace and the values no
    dollar sign. *)
Theorem preview_fills_the_three_tags (r : Worker.Recipient) (n : string)
    (a tn b te c ti d : string) :
  JS.toLowerCase tn = "{{name}}" ->
  JS.toLowerCase te = "{{email}}" ->
  JS.toLowerCase ti = "{{invoice_number}}" ->
  Forall (fun x => JS.includes x "{" = false)
    [a; b; c; d; JS.or_else (Worker.Name r) ""; Worker.Email r; n] ->
  Forall (fun x => JS.includes x "$" = false)
    [JS.or_else (Worker.Name r) ""; Worker.Email r; n] ->
  replaceTags r n (Some (a ++ tn ++ b ++ te ++ c ++ ti ++ d))
  = a ++ JS.or_else (Worker.Name r) "" ++ b ++ Worker.Email r ++ c ++ n ++ d.
Proof.
  intros Hn He Hi Hb Hd.
  apply Forall_cons in Hb as [Ha Hb]. apply Forall_cons in Hb as [Hb0 Hb].
  apply Forall_cons in Hb as [Hc Hb]. apply Forall_cons in Hb as [Hd0 Hb].
  apply Forall_cons in Hb as [Hnb Hb]. apply Forall_cons in Hb as [Heb Hb].
  apply Forall_cons in Hb as [Hib _].
  apply Forall_cons in Hd as [Hnd Hd]. apply Forall_cons in Hd as [Hed Hd].
  apply Forall_cons in Hd as [Hid _].
  set (name := JS.or_else (Worker.Name r) "") in *.
  assert (JS.or_else (Some (Worker.Email r)) "" = Worker.Email r) as Hmail.
  { unfold JS.or_else, JS.truthy. by destruct (String.eqb_spec (Worker.Email r) "") as [->|_]. }
  unfold replaceTags. cbn [JS.truthy_opt default from_option id]. unfold JS.truthy.
  destruct (String.eqb_spec (a ++ tn ++ b ++ te ++ c ++ ti ++ d) "") as [E|_].
  { apply (f_equal String.length) in E. destruct a; [|done].
    destruct tn; [done|done]. }
  cbn [negb]. fold name. rewrite Hmail.
  assert (forall p, JS.includes (JS.toLowerCase d) (String "{" p) = false) as Hd1.
  { intros p. rewrite <- (append_nil_s (JS.toLowerCase d)).
    by rewrite includes_after_brace_free. }
  (* the pass of the name *)
  rewrite (replace_all_one "{Name}}" name a tn (b ++ te ++ c ++ ti ++ d)); try done.
  2:{ rewrite !lower_append, He, Hi. change (JS.toLowerCase "{{Name}}") with "{{name}}".
      rewrite includes_after_brace_free by done.
      rewrite ?append_cons, ?append_nil_l. walk_literal.
      rewrite includes_after_brace_free by done.
      rewrite ?append_cons, ?append_nil_l. walk_literal.
      apply Hd1. }
  (* the pass of the address *)
  replace (a ++ name ++ b ++ te ++ c ++ ti ++ d)
    with ((a ++ name ++ b) ++ te ++ c ++ ti ++ d) by (by rewrite !append_assoc_s).
  rewrite (replace_all_one "{Email}}" (Worker.Email r) (a ++ name ++ b) te (c ++ ti ++ d));
    try done.
  2:{ by repeat apply no_brace_app. }
  2:{ rewrite !lower_append, Hi. change (JS.toLowerCase "{{Email}}") with "{{email}}".
      rewrite includes_after_brace_free by done.
      rewrite ?append_cons, ?append_nil_l. walk_literal.
      apply Hd1. }
  (* the pass of the invoice number *)
  replace ((a ++ name ++ b) ++ Worker.Email r ++ c ++ ti ++ d)
    with ((a ++ name ++ b ++ Worker.Email r ++ c) ++ ti ++ d) by (by rewrite !append_assoc_s).
  rewrite (replace_all_one "{Invoice_Number}}" n (a ++ name ++ b ++ Worker.Email r ++ c) ti d);
    try done.
  - by rewrite !append_assoc_s.
  - by repeat apply no_brace_app.
  - apply Hd1.
Qed.

Lemma prefix_empty (s : string) : String.prefix "" s = true.
Proof. by destruct s. Qed.

Lemma includes_char_app (x : ascii) : forall a b : string,
  JS.includes (a ++ b) (String x "") = JS.includes a (String x "") || JS.includes b (String x "").
Proof.
  induction a as [|c a IH]; intros b.
  - rewrite append_nil_l. reflexivity.
  - rewrite append_cons, !includes_cons, IH. cbn [String.prefix].
    destruct (ascii_dec x c); [|done]. by rewrite !prefix_empty.
Qed.

Lemma digits_have_no (x : ascii) (d : uint) :
  (nat_of_ascii x < 48 \/ 57 < nat_of_ascii x)%nat ->
  JS.includes (NilEmpty.string_of_uint d) (String x "") = false.
Proof.
  intros Hx.
  induction d as [|d IH|d IH|d IH|d IH|d IH|d IH|d IH|d IH|d IH|d IH];
    cbn [NilEmpty.string_of_uint]; [done|..];
    rewrite includes_cons, IH, orb_false_r; cbn [String.prefix];
    (destruct (ascii_dec x _) as [->|_]; [|done]); vm_compute in Hx; lia.
Qed.

(** The invoice number of a preview holds neither a brace nor a dollar
    sign. *)
Lemma preview_invoice_number_plain (k : Clock) (i : nat) :
  JS.includes (preview_invoice_number k i) "{" = false /\
  JS.includes (preview_invoice_number k i) "$" = false.
Proof.
  unfold preview_invoice_number, decimalN.
  rewrite !includes_char_app, !digits_have_no by (vm_compute; lia). done.
Qed.

(** X24. The preview route answers 400 when the request names no row;
    otherwise it previews the first three rows and no more, one item
    per row in the order of the rows.  Each item carries the row's name
    and address, an invoice number of its own made of the clock reading
    and a number below 1000, free of braces and dollar signs, and the
    subject and body that the tag replacement gives for that row and
    that number. *)
Theorem preview_covers_first_three_rows (k : Clock) (b : PreviewBody) :
  match csvData b with
  | Some (r0 :: rest) =>
      exists items,
        preview k b = PreviewOk items /\
        List.length items = Nat.min 3 (List.length (r0 :: rest)) /\
        forall i r,
          (i < 3)%nat -> (r0 :: rest) !! i = Some r ->
          exists p,
            items !! i = Some p /\
            name p = Worker.Name r /\ email p = Worker.Email r /\
            (exists m, (m < 1000)%N /\
               invoiceNumber p
               = "INV-" ++ decimalN (date_now k i) ++ "-" ++ decimalN m) /\
            JS.includes (invoiceNumber p) "{" = false /\
            JS.includes (invoiceNumber p) "$" = false /\
            subject p = replaceTags r (invoiceNumber p) (emailSubject b) /\
            body p = replaceTags r (invoiceNumber p) (emailBody b)
  | _ => preview k b = PreviewBad400 "No CSV data provided"
  end.
Proof.
  unfold preview. destruct (csvData b) as [[|r0 rest]|]; [done| |done].
  cbn [Api.non_empty_array negb default from_option id].
  eexists. split; [reflexivity|]. split.
  - by rewrite length_imap, length_take.
  - intros i r Hi Hr. rewrite list_lookup_imap, lookup_take_lt, Hr by done.
    eexists. split; [reflexivity|]. cbn [name email invoiceNumber subject body].
    do 2 (split; [done|]). split.
    + exists (random k i mod 1000)%N. split; [|done]. apply N.mod_lt. done.
    + destruct (preview_invoice_number_plain k i) as [H1 H2]. done.
Qed.

End PreviewFacts.

Section MoreWitnesses.

Import Worker Examples RouteExamples.

Local Open Scope string_scope.

Lemma gate_decision_witness :
  let flags :=
    (Gate.scanHtmlDomForCloaking no_matches (Gate.emailBody plain_body)
     ++ Gate.scanLinkIntegrity no_matches (Gate.emailBody plain_body)
     ++ (Gate.verifyInfrastructure no_dns (Gate.primarySenderEmail plain_body)).1)%list in
  (Gate.segMiddleware no_matches no_matches no_dns (Some plain_body)).1
  = match flags with
    | [] => Gate.Next
    | _ => Gate.Status400 flags
    end /\
  In (Gate.CloakingScan (Gate.emailBody plain_body))
     (Gate.segMiddleware no_matches no_matches no_dns (Some plain_body)).2 /\
  In (Gate.LinkScan (Gate.emailBody plain_body))
     (Gate.segMiddleware no_matches no_matches no_dns (Some plain_body)).2.
Proof.
  exact (gate_decision no_matches no_matches no_dns plain_body eq_refl).
Defined.

Lemma dispatch_queues_one_job_per_recipient_witness :
  let answer :=
    Api.post_dispatch no_matches no_matches verified_dns 5000 (Some three_row_request)
      busy_server in
  let q := Api.invoiceQueue busy_server in
  let q' := Api.invoiceQueue answer.1.2 in
  answer.1.1 = Api.Ok200 "Jobs Queued successfully" /\
  map Api.job (Api.wait q')
  = (map Api.job (Api.wait q)
     ++ imap (fun i r =>
                {| Worker.id := JS.decimal (S (Api.counter q + i));
                   Worker.data :=
                     {| Worker.recipient := r;
                        Worker.invoiceDetails := Api.req_invoiceDetails three_row_request;
                        Worker.emailSubject := Api.req_emailSubject three_row_request;
                        Worker.emailBody := Api.req_emailBody three_row_request;
                        Worker.senderPool := Api.req_senderPool three_row_request;
                        Worker.deliveryMethod := Api.req_deliveryMethod three_row_request;
                        Worker.senderName := None |} |}) [carol; dave; erin])%list /\
  Api.counter q' = (Api.counter q + List.length [carol; dave; erin])%nat /\
  (Api.active q' = Api.active q /\ Api.delayed q' = Api.delayed q /\
   Api.completed q' = Api.completed q /\ Api.failed q' = Api.failed q) /\
  Redis.lrange_all (Api.connection answer.1.2) = [] /\
  Redis.strings (Api.connection answer.1.2) = Redis.strings (Api.connection busy_server).
Proof.
  refine (dispatch_queues_one_job_per_recipient no_matches no_matches verified_dns 5000
            three_row_request busy_server [carol; dave; erin] eq_refl _ eq_refl eq_refl).
  discriminate.
Defined.

Lemma completed_link_job_can_be_fetched_witness :
  exists i pdf expires,
    renderPdf (env_answering None) i = Rendered pdf /\
    (now fresh_world + 86400 * 30 * 1000 <= expires
     <= now (run None "1" [alice] (Some "link") fresh_world).2 + 86400 * 30 * 1000)%Z /\
    forall T,
      Fetch.get_invoice T
        (ret_invoiceNumber {| ret_invoiceNumber := "INV-1A2B3C4D";
                              ret_sender := "alice@example.com" |})
        {| Api.invoiceQueue := Api.empty_queue;
           Api.connection := store (run None "1" [alice] (Some "link") fresh_world).2 |}
      = if ((T <? expires)%Z && negb (bool_decide (pdf = [])))%bool
        then Fetch.InvoiceFound (JS.base64 pdf)
        else Fetch.InvoiceNotFound404 "Invoice not found or expired".
Proof.
  refine (completed_link_job_can_be_fetched plain_replaceTags plain_buildEmailHtml
            (env_answering None) (sample_job "1" [alice] (Some "link")) fresh_world
            {| ret_invoiceNumber := "INV-1A2B3C4D"; ret_sender := "alice@example.com" |}
            (run None "1" [alice] (Some "link") fresh_world).2 Api.empty_queue _ eq_refl _).
  - intros n. simpl. lia.
  - vm_compute. reflexivity.
Defined.

Lemma preview_keeps_text_without_tags_witness :
  Preview.replaceTags carol "INV-1700000000000-7" (Some "Pay {now|today}, {Name}")
  = "Pay {now|today}, {Name}".
Proof.
  exact (preview_keeps_text_without_tags carol "INV-1700000000000-7"
           "Pay {now|today}, {Name}" eq_refl).
Defined.

Lemma preview_fills_the_three_tags_witness :
  Preview.replaceTags carol "INV-1700000000000-7"
    (Some ("Dear " ++ "{{NAME}}" ++ " <" ++ "{{email}}" ++ ">, invoice "
           ++ "{{Invoice_number}}" ++ " is ready"))
  = "Dear " ++ JS.or_else (Name carol) "" ++ " <" ++ Email carol ++ ">, invoice "
    ++ "INV-1700000000000-7" ++ " is ready".
Proof.
  refine (preview_fills_the_three_tags carol "INV-1700000000000-7"
            "Dear " "{{NAME}}" " <" "{{email}}" ">, invoice " "{{Invoice_number}}" " is ready"
            eq_refl eq_refl eq_refl _ _);
    repeat constructor.
Defined.

End MoreWitnesses.

Section BatchFacts.
Import Worker.
Local Open Scope string_scope.

Variable replaceTags :
  option string -> Recipient -> string -> option string -> option string -> string.
Variable buildEmailHtml : HtmlArgs -> string.
Variable e : Env.

Local Abbreviation emailWorker := (emailWorker replaceTags buildEmailHtml e).

(** X25. A job whose data names no sender fails before anything else
    happens: the failure is the missing-pool error, no message goes to
    the transport, no string key changes and no time passes.  All it
    leaves behind is the failure event on the telemetry list, with the
    one random draw that the id of that event takes. *)
Theorem job_without_pool_fails_untouched (j : Job) (w : World) :
  Api.non_empty_array (senderPool (data j)) = false ->
  (emailWorker j w).1 = Failed no_pool_error /\
  outbox (emailWorker j w).2 = outbox w /\
  now (emailWorker j w).2 = now w /\
  draws (emailWorker j w).2 = S (draws w) /\
  store (emailWorker j w).2
  = Redis.rpush_trim (store w)
      {| Telemetry.jobId := JS.or_else (Some (id j)) "N/A";
         Telemetry.message :=
           Telemetry.LogJobFailed "No sender pool provided in job data.";
         Telemetry.type := Telemetry.SevError |} /\
  Redis.strings (store (emailWorker j w).2) = Redis.strings (store w).
Proof.
  intros H. unfold Worker.emailWorker, Worker.attempt_job.
  destruct (senderPool (data j)) as [[|s pool]|]; done.
Qed.

(** X26. A batch is spread over the pool round robin.  When a dispatch
    request gets through the gate, the job queued for row [i] carries
    the id [counter + 1 + i], as the queue numbers its jobs, and the
    first sender that the worker's rotation examines for it is the one
    at position [(counter + 1 + i) mod n] of the [n] senders: consecutive
    rows start at consecutive senders.  The ids are taken below 2^53,
    where [parseInt] is exact. *)
Theorem batch_rotation_starts_round_robin
    (cloaking_matches link_matches : string -> list Gate.flag)
    (resolveTxt : string -> Gate.dns_answer) (now : Z) (b : Api.DispatchBody)
    (s : Api.Server) (rows : list Recipient) (pool : list Sender) (i : nat)
    (r : Recipient) :
  Api.csvData b = Some rows -> Api.req_senderPool b = Some pool -> pool <> [] ->
  (Gate.segMiddleware cloaking_matches link_matches resolveTxt (Some (Api.gate_body b))).1
  = Gate.Next ->
  (Z.of_nat (Api.counter (Api.invoiceQueue s) + List.length rows) < 2 ^ 53)%Z ->
  rows !! i = Some r ->
  let answer :=
    Api.post_dispatch cloaking_matches link_matches resolveTxt now (Some b) s in
  exists jb first,
    map Api.job (Api.wait (Api.invoiceQueue answer.1.2))
      !! (List.length (Api.wait (Api.invoiceQueue s)) + i)%nat = Some jb /\
    recipient (data jb) = r /\
    senderPool (data jb) = Some pool /\
    id jb = JS.decimal (Api.counter (Api.invoiceQueue s) + 1 + i) /\
    pool_at pool (senderIndex (startIndex jb) 0 (List.length pool)) = Some first /\
    nth_error pool ((Api.counter (Api.invoiceQueue s) + 1 + i) mod List.length pool)
    = Some first.
Proof.
  intros Hrows Hpool Hne Hgate _ Hr. cbn zeta.
  rewrite (post_dispatch_accepted _ _ _ now b s Hgate).
  assert (rows <> []) as Hrne by (intros ->; done).
  assert (Api.non_empty_array (Api.req_senderPool b) = true) as Hnon
    by (rewrite Hpool; by destruct pool).
  destruct (dispatch_accepted now b s rows Hrows Hrne Hnon) as (_ & Hw & _).
  rewrite Hw, Hpool.
  set (n := List.length pool).
  set (k := (Api.counter (Api.invoiceQueue s) + 1 + i)%nat).
  assert (0 < n)%nat as Hn by (unfold n; destruct pool; [done|simpl; lia]).
  assert (k mod n < n)%nat as Hlt by (apply Nat.mod_upper_bound; lia).
  destruct (nth_error pool (k mod n)) as [first|] eqn:Hfirst;
    [|apply nth_error_None in Hfirst; fold n in Hfirst; lia].
  eexists _, first. split.
  - rewrite lookup_app_r by (rewrite length_map; lia).
    rewrite length_map, Nat.add_comm, Nat.add_sub, list_lookup_imap, Hr. reflexivity.
  - cbn [data id recipient senderPool]. do 2 (split; [done|]).
    replace (S (Api.counter (Api.invoiceQueue s) + i)) with k by (unfold k; lia).
    split; [done|]. split; [|done].
    unfold startIndex. cbn [id]. rewrite parseInt_or_decimal.
    unfold senderIndex. rewrite Z.add_0_r, Z.rem_mod_nonneg by lia.
    rewrite <- Nat2Z.inj_mod, pool_at_nat. done.
Qed.

End BatchFacts.

Section BatchWitnesses.

Import Worker Examples RouteExamples.

Local Open Scope string_scope.

Lemma job_without_pool_fails_untouched_witness :
  (run None "1" [] None fresh_world).1 = Failed no_pool_error /\
  outbox (run None "1" [] None fresh_world).2 = outbox fresh_world /\
  now (run None "1" [] None fresh_world).2 = now fresh_world /\
  draws (run None "1" [] None fresh_world).2 = S (draws fresh_world) /\
  store (run None "1" [] None fresh_world).2
  = Redis.rpush_trim (store fresh_world)
      {| Telemetry.jobId := JS.or_else (Some (id (sample_job "1" [] None))) "N/A";
         Telemetry.message :=
           Telemetry.LogJobFailed "No sender pool provided in job data.";
         Telemetry.type := Telemetry.SevError |} /\
  Redis.strings (store (run None "1" [] None fresh_world).2)
  = Redis.strings (store fresh_world).
Proof.
  exact (job_without_pool_fails_untouched plain_replaceTags plain_buildEmailHtml
           (env_answering None) (sample_job "1" [] None) fresh_world eq_refl).
Defined.

Lemma batch_rotation_starts_round_robin_witness :
  let queued :=
    map Api.job
      (Api.wait (Api.invoiceQueue
         (Api.post_dispatch no_matches no_matches verified_dns 5000
            (Some three_row_request) busy_server).1.2)) in
  (exists jb, queued !! 1%nat = Some jb /\ recipient (data jb) = carol /\
              id jb = "5" /\
              pool_at [alice; bob] (senderIndex (startIndex jb) 0 2) = Some bob) /\
  (exists jb, queued !! 2%nat = Some jb /\ recipient (data jb) = dave /\
              id jb = "6" /\
              pool_at [alice; bob] (senderIndex (startIndex jb) 0 2) = Some alice) /\
  (exists jb, queued !! 3%nat = Some jb /\ recipient (data jb) = erin /\
              id jb = "7" /\
              pool_at [alice; bob] (senderIndex (startIndex jb) 0 2) = Some bob).
Proof.
  cbn zeta. split; [|split].
  - destruct (batch_rotation_starts_round_robin no_matches no_matches verified_dns 5000
                three_row_request busy_server [carol; dave; erin] [alice; bob] 0 carol
                eq_refl eq_refl ltac:(discriminate) eq_refl eq_refl eq_refl)
      as (jb & first & H1 & H2 & _ & H4 & H5 & H6).
    vm_compute in H6. injection H6 as <-. exists jb. exact (conj H1 (conj H2 (conj H4 H5))).
  - destruct (batch_rotation_starts_round_robin no_matches no_matches verified_dns 5000
                three_row_request busy_server [carol; dave; erin] [alice; bob] 1 dave
                eq_refl eq_refl ltac:(discriminate) eq_refl eq_refl eq_refl)
      as (jb & first & H1 & H2 & _ & H4 & H5 & H6).
    vm_compute in H6. injection H6 as <-. exists jb. exact (conj H1 (conj H2 (conj H4 H5))).
  - destruct (batch_rotation_starts_round_robin no_matches no_matches verified_dns 5000
                three_row_request busy_server [carol; dave; erin] [alice; bob] 2 erin
                eq_refl eq_refl ltac:(discriminate) eq_refl eq_refl eq_refl)
      as (jb & first & H1 & H2 & _ & H4 & H5 & H6).
    vm_compute in H6. injection H6 as <-. exists jb. exact (conj H1 (conj H2 (conj H4 H5))).
Defined.

End BatchWitnesses.
